(** * HidlSupport: transport selection, hidl_handle and hidl_string

    A shallow embedding of [base/HidlSupport.cpp] (namespace
    [android::hardware]).  The file has three parts, one per component of the
    translation unit:

    - [Transport]: [getTransportFromManifest] and [getTransport], as
      functions that return the transport together with the trace of the
      log records and manifest accesses they perform;
    - [Handle]: [hidl_handle], over a store of objects and a table of
      native-handle records managed by the external
      [native_handle_clone/close/delete] primitives;
    - [HString]: [hidl_string], over a store of objects and a block memory
      with [malloc], [free], [memcpy] and [strlen].

    C++ objects are kept in a store indexed by their address, so that the
    tests [this == &other] of the source are address comparisons and a
    method that writes to [other] is seen through every alias. *)

From Stdlib Require Import NArith ZArith Lia.
From stdpp Require Import base option list strings gmap sets numbers.

Local Open Scope N_scope.

(** ** Transport selection *)

Module Transport.

(** [vintf::Transport].  Modelled from the spec: the enumeration is declared
    in the vintf headers; the resolver only distinguishes [EMPTY] from the
    other values. *)
Inductive Transport := EMPTY | HWBINDER | PASSTHROUGH.

#[global] Instance Transport_eq_dec : EqDecision Transport.
Proof. solve_decision. Defined.

Definition Transport_eqb (a b : Transport) : bool :=
  match a, b with
  | EMPTY, EMPTY | HWBINDER, HWBINDER | PASSTHROUGH, PASSTHROUGH => true
  | _, _ => false
  end.

(** [vintf::Version]. *)
Record Version := mkVersion { majorVer : N; minorVer : N }.

(** The view of [FQName] the resolver uses.  The parser itself is external
    (hidl-util); its results are the fields of this record. *)
Record FQName := mkFQName {
  isValid : bool;
  hasVersion : bool;
  package : string;
  getPackageMajorVersion : N;
  getPackageMinorVersion : N;
  fq_string : string
}.

(** [vintf::HalManifest], seen through its one method
    [getTransport(package, version)]. *)
Definition HalManifest := string -> Version -> Transport.

(** The process-scoped accessors of [vintf::VintfObject]; [None] is the
    null handle. *)
Record VintfObject := mkVintf {
  GetFrameworkHalManifest : option HalManifest;
  GetDeviceHalManifest : option HalManifest
}.

Inductive severity := DEBUG | WARNING | ERROR | FATAL.

Inductive manifest_kind := FrameworkManifest | DeviceManifest.

(** What a call does besides returning: log records, and which manifest
    accessor it called. *)
Inductive event :=
| Log (s : severity) (msg : string)
| Consult (k : manifest_kind).

(** Results paired with the events emitted, oldest first. *)
Definition W (A : Type) : Type := (A * list event)%type.

Definition ret {A} (a : A) : W A := (a, []).
Definition bind {A B} (m : W A) (k : A -> W B) : W B :=
  let '(a, t1) := m in let '(b, t2) := k a in (b, t1 ++ t2).
Definition emit (e : event) : W unit := (tt, [e]).

Notation "'let*' x ':=' m 'in' k" := (bind m (fun x => k))
  (at level 10, x name, m at level 100, k at level 200).
Notation "m ';;' k" := (bind m (fun _ => k))
  (at level 100, k at level 200, right associativity).

Section Resolver.

(** External collaborators: the name parser, the package test of
    [FQName], and the printer of transports. *)
Variable parse : string -> FQName.
Variable inPackage : FQName -> string -> bool.
Variable to_string : Transport -> string.
Variable vintf : VintfObject.

Definition getTransportFromManifest
    (fqName : FQName) (manifestName : string) (vm : option HalManifest)
    : W Transport :=
  match vm with
  | None =>
      emit (Log WARNING
             ("getTransportFromManifest: No " +:+ manifestName +:+
              " manifest defined, " +:+ "using default transport for " +:+
              fq_string fqName)) ;;
      ret EMPTY
  | Some m =>
      let tr := m (package fqName)
                  (mkVersion (getPackageMajorVersion fqName)
                             (getPackageMinorVersion fqName)) in
      (if Transport_eqb tr EMPTY
       then emit (Log WARNING
                   ("getTransportFromManifest: Cannot find entry " +:+
                    fq_string fqName +:+ " in " +:+ manifestName +:+
                    " manifest, using default transport."))
       else emit (Log DEBUG
                   ("getTransportFromManifest: " +:+ fq_string fqName +:+
                    " declares transport method " +:+ to_string tr +:+
                    " in " +:+ manifestName +:+ " manifest"))) ;;
      ret tr
  end.

Definition getTransport (name : string) : W Transport :=
  let fqName := parse name in
  if negb (isValid fqName) then
    emit (Log ERROR ("getTransport: " +:+ name +:+
                     " is not a valid fully-qualified name.")) ;;
    ret EMPTY
  else if negb (hasVersion fqName) then
    emit (Log ERROR ("getTransport: " +:+ fq_string fqName +:+
                     " does not specify a version. Using default transport.")) ;;
    ret EMPTY
  else if inPackage fqName "android.hidl" then
    let* vm := (emit (Consult FrameworkManifest) ;;
                ret (GetFrameworkHalManifest vintf)) in
    getTransportFromManifest fqName "framework" vm
  else
    let* vm := (emit (Consult DeviceManifest) ;;
                ret (GetDeviceHalManifest vintf)) in
    getTransportFromManifest fqName "device" vm.

End Resolver.

(** What the manifest [m] declares for the package and version of [fq]. *)
Definition entry (m : HalManifest) (fq : FQName) : Transport :=
  m (package fq)
    (mkVersion (getPackageMajorVersion fq) (getPackageMinorVersion fq)).

(** [label] occurs in [msg]. *)
Definition names (msg label : string) : Prop :=
  exists pre post : string, msg = pre +:+ label +:+ post.

(** The log records of a trace, in order. *)
Definition logs (t : list event) : list (severity * string) :=
  omap (fun e => match e with Log s msg => Some (s, msg) | Consult _ => None end) t.

(** The manifest handle that [getTransport] hands to the lookup step for
    the parsed name [fq]. *)
Definition consulted (inPackage : FQName -> string -> bool)
    (vintf : VintfObject) (fq : FQName) : option HalManifest :=
  if inPackage fq "android.hidl" then GetFrameworkHalManifest vintf
  else GetDeviceHalManifest vintf.

(** A small installation, for the scenarios below: a parser that knows
    four names, the package test as a test on the leading characters, a
    framework manifest with one entry and no device manifest. *)
Module Sample.

Definition parse (name : string) : FQName :=
  if String.eqb name "android.hidl.manager@1.0::IServiceManager"
  then mkFQName true true "android.hidl.manager" 1 0 name
  else if String.eqb name "vendor.acme.foo@2.1::IFoo"
  then mkFQName true true "vendor.acme.foo" 2 1 name
  else if String.eqb name "android.hidl.base::IBase"
  then mkFQName true false "android.hidl.base" 0 0 name
  else mkFQName false false "" 0 0 "".

Definition inPackage (fq : FQName) (root : string) : bool :=
  String.prefix root (package fq).

Definition to_string (tr : Transport) : string :=
  match tr with
  | EMPTY => ""
  | HWBINDER => "hwbinder"
  | PASSTHROUGH => "passthrough"
  end.

Definition framework : HalManifest :=
  fun pkg v =>
    if String.eqb pkg "android.hidl.manager"
       && (majorVer v =? 1) && (minorVer v =? 0)
    then HWBINDER else EMPTY.

Definition vintf : VintfObject := mkVintf (Some framework) None.

End Sample.

End Transport.

(** ** Calls that change a store and may abort

    A call either returns a value and the new state, or stops the process
    at a [LOG(FATAL)] (the state at that point is kept, so that what was
    done before the abort can be inspected), or has no defined behaviour
    (use of a dangling or null pointer, a read out of bounds, a second
    release of the same allocation). *)

Inductive outcome (W A : Type) : Type :=
| Ok (a : A) (w : W)
| Abort (w : W)
| Undefined.
Arguments Ok {W A} a w.
Arguments Abort {W A} w.
Arguments Undefined {W A}.

Definition M (W A : Type) : Type := W -> outcome W A.

Definition mret {W A} (a : A) : M W A := fun w => Ok a w.
Definition mbnd {W A B} (m : M W A) (k : A -> M W B) : M W B :=
  fun w => match m w with
           | Ok a w' => k a w'
           | Abort w' => Abort w'
           | Undefined => Undefined
           end.

Declare Scope call_scope.
Delimit Scope call_scope with call.
Notation "'let*' x ':=' m 'in' k" := (mbnd m (fun x => k))
  (at level 10, x name, m at level 100, k at level 200) : call_scope.
Notation "m ';;' k" := (mbnd m (fun _ => k))
  (at level 100, k at level 200, right associativity) : call_scope.

(** ** hidl_string *)

Module HString.

Import Byte.
Local Open Scope call_scope.

Definition UINT32_MAX : N := 4294967295.
(** [size_t] is taken to be 64 bits wide (an LP64 target). *)
Definition SIZE_MAX : N := 18446744073709551615.

(** A [const char *]: null, the address of the literal bound to
    [kEmptyString], or an offset into a block of the memory. *)
Inductive ptr :=
| nullptr
| kEmptyString
| Addr (b : N) (off : N).

Definition ptr_eqb (p q : ptr) : bool :=
  match p, q with
  | nullptr, nullptr => true
  | kEmptyString, kEmptyString => true
  | Addr b o, Addr b' o' => (b =? b') && (o =? o')
  | _, _ => false
  end.

(** A block of memory: its cells ([None] is a byte never written) and
    whether it came from [malloc] (only such a block may be passed to
    [free]); the other blocks are the caller's. *)
Record block := mkBlock { cells : list (option byte); from_malloc : bool }.

(** The fields of a [hidl_string]. *)
Record hidl_string := mkString {
  mBuffer : ptr;
  mSize : N;          (* uint32_t *)
  mOwnsBuffer : bool
}.

Inductive event :=
| EvMalloc (n : N) (p : ptr)
| EvFree (p : ptr)
| EvLogFatal (msg : string).

Record world := mkWorld {
  objs : gmap N hidl_string;   (* the hidl_string objects, by address *)
  mem : gmap N block;          (* the live blocks *)
  oom : list bool;             (* whether the coming calls of malloc fail *)
  trace : list event           (* allocator calls and fatal logs, oldest first *)
}.

Definition set_objs (f : gmap N hidl_string -> gmap N hidl_string) (w : world) :=
  mkWorld (f (objs w)) (mem w) (oom w) (trace w).
Definition set_mem (f : gmap N block -> gmap N block) (w : world) :=
  mkWorld (objs w) (f (mem w)) (oom w) (trace w).
Definition set_oom (o : list bool) (w : world) :=
  mkWorld (objs w) (mem w) o (trace w).
Definition record (e : event) (w : world) :=
  mkWorld (objs w) (mem w) (oom w) (trace w ++ [e]).

Abbreviation call := (M world).

(** *** The C library *)

(** [LOG(FATAL) << msg]: the record is written and the process aborts. *)
Definition log_fatal {A} (msg : string) : call A :=
  fun w => Abort (record (EvLogFatal msg) w).

(** The cells from [p] to the end of the block [p] points into. *)
Definition cells_at (w : world) (p : ptr) : option (list (option byte)) :=
  match p with
  | nullptr => None
  | kEmptyString => Some [Some x00]
  | Addr b off =>
      match mem w !! b with
      | Some blk =>
          if off <=? N.of_nat (length (cells blk))
          then Some (drop (N.to_nat off) (cells blk)) else None
      | None => None
      end
  end.

(** All cells written, as bytes. *)
Fixpoint written (cs : list (option byte)) : option (list byte) :=
  match cs with
  | [] => Some []
  | Some b :: cs' =>
      match written cs' with Some bs => Some (b :: bs) | None => None end
  | None :: _ => None
  end.

(** The [n] bytes at [p], when they lie in one live block and were all
    written. *)
Definition load (w : world) (p : ptr) (n : N) : option (list byte) :=
  match cells_at w p with
  | Some cs =>
      if n <=? N.of_nat (length cs) then written (take (N.to_nat n) cs)
      else None
  | None => None
  end.

(** Writing [bs] at [p]: [p] must point into a live block with room for
    them; the literal cannot be written. *)
Definition write (p : ptr) (bs : list byte) : call unit :=
  fun w =>
    match p with
    | Addr b off =>
        match mem w !! b with
        | Some blk =>
            if off + N.of_nat (length bs) <=? N.of_nat (length (cells blk))
            then Ok tt (set_mem
                   <[b := mkBlock
                            (take (N.to_nat off) (cells blk) ++
                             (Some <$> bs) ++
                             drop (N.to_nat off + length bs) (cells blk))
                            (from_malloc blk)]> w)
            else Undefined
        | None => Undefined
        end
    | _ => Undefined
    end.

Definition ptr_add (p : ptr) (n : N) : ptr :=
  match p with
  | Addr b off => Addr b (off + n)
  | _ => p
  end.

(** [malloc(n)]: a new block of [n] unwritten cells at a fresh address, or
    null when the allocation fails. *)
Definition malloc (n : N) : call ptr :=
  fun w =>
    match oom w with
    | true :: o => Ok nullptr (record (EvMalloc n nullptr) (set_oom o w))
    | o =>
        let b := fresh (dom (mem w)) in
        Ok (Addr b 0)
           (record (EvMalloc n (Addr b 0))
              (set_mem <[b := mkBlock (replicate (N.to_nat n) None) true]>
                 (set_oom (tail o) w)))
    end.

(** [free(p)]: nothing for null; otherwise [p] must be the start of a live
    block obtained from [malloc], which is released. *)
Definition free (p : ptr) : call unit :=
  fun w =>
    match p with
    | nullptr => Ok tt (record (EvFree p) w)
    | Addr b 0 =>
        match mem w !! b with
        | Some blk =>
            if from_malloc blk
            then Ok tt (record (EvFree p) (set_mem (delete b) w))
            else Undefined
        | None => Undefined
        end
    | _ => Undefined
    end.

(** [memcpy(dst, src, n)]. *)
Definition memcpy (dst src : ptr) (n : N) : call unit :=
  fun w =>
    match load w src n with
    | Some bs => write dst bs w
    | None => Undefined
    end.

Fixpoint find_nul (cs : list (option byte)) : option N :=
  match cs with
  | [] => None
  | None :: _ => None
  | Some b :: cs' =>
      if Byte.eqb b x00 then Some 0
      else match find_nul cs' with Some n => Some (N.succ n) | None => None end
  end.

(** [strlen(s)]: the offset of the first zero byte at or after [s]. *)
Definition strlen (s : ptr) : call N :=
  fun w =>
    match cells_at w s with
    | Some cs =>
        match find_nul cs with Some n => Ok n w | None => Undefined end
    | None => Undefined
    end.

(** *** The class *)

(** Reading and writing a field of the object at address [this]. *)
Definition field {A} (f : hidl_string -> A) (this : N) : call A :=
  fun w => match objs w !! this with
           | Some o => Ok (f o) w
           | None => Undefined
           end.
Definition assign (f : hidl_string -> hidl_string) (this : N) : call unit :=
  fun w => match objs w !! this with
           | Some o => Ok tt (set_objs <[this := f o]> w)
           | None => Undefined
           end.

Definition set_mBuffer (p : ptr) := assign (fun o => mkString p (mSize o) (mOwnsBuffer o)).
Definition set_mSize (n : N) := assign (fun o => mkString (mBuffer o) n (mOwnsBuffer o)).
Definition set_mOwnsBuffer (b : bool) := assign (fun o => mkString (mBuffer o) (mSize o) b).

(** [hidl_string::hidl_string()]: the object comes into being at [this]. *)
Definition ctor (this : N) : call unit :=
  fun w => Ok tt (set_objs <[this := mkString kEmptyString 0 false]> w).

Definition c_str (this : N) : call ptr := field mBuffer this.
Definition size (this : N) : call N := field mSize this.
Definition empty (this : N) : call bool := field (fun o => mSize o =? 0) this.

(** [operator std::string()]: the host string built from [mSize] bytes at
    [mBuffer].  The read is that of [load], which asks for a pointer into
    a live block (or at the literal) whatever the length: the conversion
    of a string of length zero through a null or released pointer, which
    reads no byte, is given no result here, and nothing below is
    concluded from that. *)
Definition to_std_string (this : N) : call (list byte) :=
  let* p := field mBuffer this in
  let* n := field mSize this in
  fun w => match load w p n with
           | Some bs => Ok bs w
           | None => Undefined
           end.

(** [operator const char *()]. *)
Definition to_c_str (this : N) : call ptr := field mBuffer this.

Definition copyFrom (this : N) (data : ptr) (size : N) : call unit :=
  (* assume my resources are freed. *)
  (if UINT32_MAX <? size
   then log_fatal "string size can't exceed 2^32 bytes."
   else mret tt) ;;
  let* buf := malloc ((size + 1) mod (SIZE_MAX + 1)) in
  memcpy buf data size ;;
  write (ptr_add buf size) [x00] ;;
  set_mBuffer buf this ;;
  set_mSize (size mod (UINT32_MAX + 1)) this ;;
  set_mOwnsBuffer true this.

Definition moveFrom (this other : N) : call unit :=
  (* assume my resources are freed. *)
  (let* b := field mBuffer other in set_mBuffer b this) ;;
  (let* n := field mSize other in set_mSize n this) ;;
  (let* o := field mOwnsBuffer other in set_mOwnsBuffer o this) ;;
  set_mOwnsBuffer false other.

Definition clear (this : N) : call unit :=
  (let* owns := field mOwnsBuffer this in
   let* buf := field mBuffer this in
   if owns && negb (ptr_eqb buf kEmptyString) then free buf else mret tt) ;;
  set_mBuffer kEmptyString this ;;
  set_mSize 0 this ;;
  set_mOwnsBuffer false this.

(** [hidl_string::~hidl_string()]: after [clear()] the object is gone. *)
Definition dtor (this : N) : call unit :=
  clear this ;;
  fun w => Ok tt (set_objs (delete this) w).

(** [hidl_string(const char *s)]. *)
Definition ctor_cstr (this : N) (s : ptr) : call unit :=
  ctor this ;;
  if ptr_eqb s nullptr then mret tt
  else let* n := strlen s in copyFrom this s n.

(** [hidl_string(const char *s, size_t length)]. *)
Definition ctor_buf (this : N) (s : ptr) (length : N) : call unit :=
  ctor this ;;
  copyFrom this s length.

(** [hidl_string(const hidl_string &other)]. *)
Definition ctor_copy (this other : N) : call unit :=
  ctor this ;;
  let* p := c_str other in
  let* n := size other in
  copyFrom this p n.

(** A host [std::string], seen through [c_str()] and [size()]. *)
Record std_string := mkStd { std_c_str : ptr; std_size : N }.

(** [hidl_string(const std::string &s)]. *)
Definition ctor_std (this : N) (s : std_string) : call unit :=
  ctor this ;;
  copyFrom this (std_c_str s) (std_size s).

(** [hidl_string(hidl_string &&other)]. *)
Definition ctor_move (this other : N) : call unit :=
  ctor this ;;
  moveFrom this other.

(** [operator=(hidl_string &&other)]. *)
Definition assign_move (this other : N) : call unit :=
  if negb (this =? other) then
    clear this ;;
    moveFrom this other
  else mret tt.

(** [operator=(const hidl_string &other)]. *)
Definition assign_copy (this other : N) : call unit :=
  if negb (this =? other) then
    clear this ;;
    let* p := c_str other in
    let* n := size other in
    copyFrom this p n
  else mret tt.

(** [operator=(const char *s)]. *)
Definition assign_cstr (this : N) (s : ptr) : call unit :=
  clear this ;;
  if ptr_eqb s nullptr then mret tt
  else let* n := strlen s in copyFrom this s n.

(** [operator=(const std::string &s)]. *)
Definition assign_std (this : N) (s : std_string) : call unit :=
  clear this ;;
  copyFrom this (std_c_str s) (std_size s).

Definition setToExternal (this : N) (data : ptr) (size : N) : call unit :=
  (if UINT32_MAX <? size
   then log_fatal "string size can't exceed 2^32 bytes."
   else mret tt) ;;
  clear this ;;
  set_mBuffer data this ;;
  set_mSize (size mod (UINT32_MAX + 1)) this ;;
  set_mOwnsBuffer false this.

(** An empty process: no object, no block, no allocation failure ahead. *)
Definition boot : world := mkWorld ∅ ∅ [] [].

(** *** Vocabulary of the properties *)

(** The state of a default-constructed string. *)
Definition sentinel : hidl_string := mkString kEmptyString 0 false.

(** [clear()] passes the buffer of [o] to [free]. *)
Definition owns_alloc (o : hidl_string) : bool :=
  mOwnsBuffer o && negb (ptr_eqb (mBuffer o) kEmptyString).

(** The next call of [malloc] succeeds. *)
Definition malloc_ok (w : world) : Prop := head (oom w) <> Some true.

(** The releases recorded in a trace. *)
Definition frees (t : list event) : list ptr :=
  omap (fun e => match e with EvFree p => Some p | _ => None end) t.

(** What [o] owns is the start of a live block obtained from [malloc]. *)
Definition releasable (w : world) (o : hidl_string) : Prop :=
  mOwnsBuffer o = true ->
  exists b blk, mBuffer o = Addr b 0 /\ mem w !! b = Some blk /\
                from_malloc blk = true.

Definition block_of (p : ptr) : N :=
  match p with
  | Addr b _ => b
  | _ => 0
  end.

(** The world once the buffer that [o] owns, if any, has been given to
    [free]. *)
Definition released (o : hidl_string) (w : world) : world :=
  if mOwnsBuffer o
  then record (EvFree (mBuffer o)) (set_mem (delete (block_of (mBuffer o))) w)
  else w.

(** The buffer of [o'] does not lie in a block that [o] owns. *)
Definition apart (o o' : hidl_string) : Prop :=
  mOwnsBuffer o = true ->
  forall b off off', mBuffer o = Addr b off -> mBuffer o' <> Addr b off'.

(** The state a move leaves the source in: pointer and length kept, not
    owning. *)
Definition disowned (o : hidl_string) : hidl_string :=
  mkString (mBuffer o) (mSize o) false.

(** The objects after a move of [x], which was [ox], into [y]. *)
Definition moved (x y : N) (ox : hidl_string) (w : world) : world :=
  set_objs (fun m => <[x := disowned ox]> (<[y := ox]> m)) w.

(** [w'] is a world after a move of [x], which was [ox] and held the bytes
    [B], into [y]: what the accessors of both objects answer. *)
Definition transferred (x y : N) (ox : hidl_string) (B : list byte)
    (w' : world) : Prop :=
  objs w' !! x = Some (disowned ox) /\
  c_str x w' = Ok (mBuffer ox) w' /\
  size x w' = Ok (N.of_nat (length B)) w' /\
  empty x w' = Ok (N.of_nat (length B) =? 0) w' /\
  objs w' !! y = Some ox /\
  to_std_string y w' = Ok B w'.

(** In [w'], after a move of [x], which was [ox], into [y]: [clear()] or
    the destructor on [x] release nothing and leave the memory as it is,
    and destroying [x] and then [y] releases the buffer once if it was
    owned and never otherwise. *)
Definition source_inert (x y : N) (ox : hidl_string) (w' : world) : Prop :=
  objs w' !! x = Some (disowned ox) /\
  (exists w2,
      clear x w' = Ok tt w2 /\
      frees (trace w2) = frees (trace w') /\ mem w2 = mem w') /\
  (exists w3 w4,
      dtor x w' = Ok tt w3 /\
      frees (trace w3) = frees (trace w') /\ mem w3 = mem w' /\
      dtor y w3 = Ok tt w4 /\
      frees (trace w4) =
        frees (trace w') ++ (if mOwnsBuffer ox then [mBuffer ox] else [])).

(** Two properties of the objects [os] over the memory [m].  No object
    owns the literal: a buffer pointer equal to [kEmptyString] comes with
    ownership false. *)
Definition literal_unowned (os : gmap N hidl_string) (m : gmap N block) : Prop :=
  forall this o, os !! this = Some o ->
    mBuffer o = kEmptyString -> mOwnsBuffer o = false.

(** Every owned buffer is the start of a live block obtained from
    [malloc], and no two objects own the same buffer. *)
Definition well_owned (os : gmap N hidl_string) (m : gmap N block) : Prop :=
  (forall this o, os !! this = Some o -> mOwnsBuffer o = true ->
     exists b blk, mBuffer o = Addr b 0 /\ m !! b = Some blk /\
                   from_malloc blk = true) /\
  (forall t1 t2 o1 o2, t1 <> t2 -> os !! t1 = Some o1 -> os !! t2 = Some o2 ->
     mOwnsBuffer o1 = true -> mOwnsBuffer o2 = true -> mBuffer o1 <> mBuffer o2).

(** [m] maintains the property [P] of objects and memory whenever it
    returns. *)
Definition keeps (P : gmap N hidl_string -> gmap N block -> Prop) {A}
    (m : call A) : Prop :=
  forall w a w', m w = Ok a w' -> P (objs w) (mem w) -> P (objs w') (mem w').

(** No length exceeds [UINT32_MAX]; every owned buffer is a block from
    [malloc] that holds [mSize] bytes followed by a zero byte; and no two
    objects own the same buffer. *)
Definition terminated (os : gmap N hidl_string) (m : gmap N block) : Prop :=
  (forall this o, os !! this = Some o ->
     mSize o <= UINT32_MAX /\
     (mOwnsBuffer o = true ->
      exists b bs,
        mBuffer o = Addr b 0 /\
        m !! b = Some (mkBlock ((Some <$> bs) ++ [Some x00]) true) /\
        N.of_nat (length bs) = mSize o)) /\
  (forall t1 t2 o1 o2, t1 <> t2 -> os !! t1 = Some o1 -> os !! t2 = Some o2 ->
     mOwnsBuffer o1 = true -> mOwnsBuffer o2 = true -> mBuffer o1 <> mBuffer o2).

(** The world once [copyFrom] has given the object at [this] a copy of
    the bytes [bs]. *)
Definition with_copy (this : N) (bs : list byte) (w : world) : world :=
  let b := fresh (dom (mem w)) in
  let n := N.of_nat (length bs) in
  mkWorld (<[this := mkString (Addr b 0) n true]> (objs w))
          (<[b := mkBlock ((Some <$> bs) ++ [Some x00]) true]> (mem w))
          (tail (oom w))
          (trace w ++ [EvMalloc (n + 1) (Addr b 0)]).

(** [w'] is a world after a copy of [x], which is [ox] and holds the bytes
    [B], into [y]: [y] owns a buffer of its own with the same bytes, [x] is
    as it was, and clearing either of them leaves the bytes of the other
    readable. *)
Definition copied (x y : N) (ox : hidl_string) (B : list byte)
    (w' : world) : Prop :=
  exists b,
    objs w' !! y = Some (mkString (Addr b 0) (N.of_nat (length B)) true) /\
    (forall off, mBuffer ox <> Addr b off) /\
    objs w' !! x = Some ox /\
    to_std_string x w' = Ok B w' /\
    to_std_string y w' = Ok B w' /\
    (exists w2, clear x w' = Ok tt w2 /\ to_std_string y w2 = Ok B w2) /\
    (exists w3, clear y w' = Ok tt w3 /\ to_std_string x w3 = Ok B w3).

(** The C string at [s] is [B]: the cells from [s] on hold the bytes of
    [B], none of them zero, and then a zero byte. *)
Definition c_string (w : world) (s : ptr) (B : list byte) : Prop :=
  Forall (fun b => b <> x00) B /\
  exists rest, cells_at w s = Some ((Some <$> B) ++ Some x00 :: rest).

(** The object at [this] holds the bytes [B], as [size()] and the
    conversion to a host string show it. *)
Definition holds (this : N) (B : list byte) (w : world) : Prop :=
  size this w = Ok (N.of_nat (length B)) w /\
  to_std_string this w = Ok B w.

(** The public operations, and the worlds they lead to from a process
    that holds no [hidl_string] yet (its memory is the caller's). *)
Inductive op :=
| Ctor (this : N)
| CtorCstr (this : N) (s : ptr)
| CtorBuf (this : N) (s : ptr) (length : N)
| CtorCopy (this other : N)
| CtorStd (this : N) (s : std_string)
| CtorMove (this other : N)
| AssignMove (this other : N)
| AssignCopy (this other : N)
| AssignCstr (this : N) (s : ptr)
| AssignStd (this : N) (s : std_string)
| Clear (this : N)
| SetToExternal (this : N) (data : ptr) (size : N)
| Dtor (this : N).

Definition exec (o : op) : call unit :=
  match o with
  | Ctor this => ctor this
  | CtorCstr this s => ctor_cstr this s
  | CtorBuf this s n => ctor_buf this s n
  | CtorCopy this other => ctor_copy this other
  | CtorStd this s => ctor_std this s
  | CtorMove this other => ctor_move this other
  | AssignMove this other => assign_move this other
  | AssignCopy this other => assign_copy this other
  | AssignCstr this s => assign_cstr this s
  | AssignStd this s => assign_std this s
  | Clear this => clear this
  | SetToExternal this data n => setToExternal this data n
  | Dtor this => dtor this
  end.

Fixpoint exec_all (l : list op) : call unit :=
  match l with
  | [] => mret tt
  | o :: l' => exec o ;; exec_all l'
  end.

Definition reachable (w : world) : Prop :=
  exists w0 l, objs w0 = ∅ /\ exec_all l w0 = Ok tt w.

(** The operation [o] is applied to the object at [y], or moves from
    it. *)
Definition touches (o : op) (y : N) : bool :=
  match o with
  | Ctor this | CtorCstr this _ | CtorBuf this _ _ | CtorCopy this _
  | CtorStd this _ | AssignCopy this _ | AssignCstr this _ | AssignStd this _
  | Clear this | SetToExternal this _ _ | Dtor this => this =? y
  | CtorMove this other | AssignMove this other => (this =? y) || (other =? y)
  end.

(** From [w] to [w'] the object at [y] stays [oy] and the block [b] stays
    as it is. *)
Definition preserved (y : N) (oy : hidl_string) (b : N) (w w' : world) : Prop :=
  objs w' !! y = Some oy /\ mem w' !! b = mem w !! b.

(** The object at [this] is in the state of a default-constructed string,
    as its accessors show it. *)
Definition is_sentinel (this : N) (w : world) : Prop :=
  objs w !! this = Some sentinel /\
  c_str this w = Ok kEmptyString w /\
  size this w = Ok 0 w /\
  empty this w = Ok true w.

(** The world reached when [m] returns (the starting one otherwise). *)
Definition after {A} (m : call A) (w : world) : world :=
  match m w with
  | Ok _ w' => w'
  | _ => w
  end.

(** A process whose caller holds the C string "hello" in block 7. *)
Module Sample.

Definition hello : list byte := [x68; x65; x6c; x6c; x6f].

Definition w_hello : world :=
  set_mem <[7 := mkBlock (Some <$> hello ++ [x00]) false]> boot.

(** ... and then [hidl_string x("hello")] at address 100. *)
Definition w_x : world := after (ctor_cstr 100 (Addr 7 0)) w_hello.

(** ... and then a default-constructed [y] at address 200. *)
Definition w_xy : world := after (ctor 200) w_x.

(** [hidl_string e(p)] at address 100, where [p] points at the closing
    zero byte of the caller's string, that is, at an empty C string. *)
Definition w_e : world := after (ctor_cstr 100 (Addr 7 5)) w_hello.

(** The object [x] in these worlds. *)
Definition x_obj : hidl_string := mkString (Addr 8 0) 5 true.

End Sample.

End HString.

(** ** hidl_handle *)

Module Handle.

Local Open Scope call_scope.

(** A [const native_handle_t *] is an address; zero is the null pointer. *)
Definition nullptr : N := 0.

(** A native-handle record: its file descriptors and its integers. *)
Record native_handle_t := mkNative { fds : list N; ints : list Z }.

(** The fields of a [hidl_handle]. *)
Record hidl_handle := mkHandle {
  mHandle : N;
  mOwnsHandle : bool
}.

Inductive event :=
| EvClone (h res : N)
| EvClose (h : N)
| EvDelete (h : N)
| EvLogFatal (msg : string).

Record world := mkWorld {
  objs : gmap N hidl_handle;        (* the hidl_handle objects, by address *)
  recs : gmap N native_handle_t;    (* the live records, by address *)
  open_fds : gset N;                (* the open file descriptors *)
  clone_fails : list bool;          (* whether the coming clones fail *)
  trace : list event                (* primitive calls and fatal logs, oldest first *)
}.

Definition set_objs (f : gmap N hidl_handle -> gmap N hidl_handle) (w : world) :=
  mkWorld (f (objs w)) (recs w) (open_fds w) (clone_fails w) (trace w).
Definition set_recs (f : gmap N native_handle_t -> gmap N native_handle_t) (w : world) :=
  mkWorld (objs w) (f (recs w)) (open_fds w) (clone_fails w) (trace w).
Definition set_open_fds (f : gset N -> gset N) (w : world) :=
  mkWorld (objs w) (recs w) (f (open_fds w)) (clone_fails w) (trace w).
Definition set_clone_fails (o : list bool) (w : world) :=
  mkWorld (objs w) (recs w) (open_fds w) o (trace w).
Definition record (e : event) (w : world) :=
  mkWorld (objs w) (recs w) (open_fds w) (clone_fails w) (trace w ++ [e]).

Abbreviation call := (M world).

Definition log_fatal {A} (msg : string) : call A :=
  fun w => Abort (record (EvLogFatal msg) w).

(** *** The native-handle primitives

    Modelled from the spec: [native_handle_clone], [native_handle_close] and
    [native_handle_delete] belong to the external handle allocator.  Clone
    returns an independent copy (a new record whose descriptors are
    duplicates of the source's) or null; close closes the descriptors the
    record contains; delete releases the record itself.  A primitive applied
    to an address that holds no live record has no defined behaviour. *)

(** [dup] of each descriptor in turn: every duplicate is a descriptor that
    was not open. *)
Fixpoint dup_all (l : list N) (open : gset N) : list N * gset N :=
  match l with
  | [] => ([], open)
  | _ :: l' =>
      let fd := fresh open in
      let '(ds, open') := dup_all l' ({[fd]} ∪ open) in
      (fd :: ds, open')
  end.

Definition native_handle_clone (h : N) : call N :=
  fun w =>
    match recs w !! h with
    | Some r =>
        match clone_fails w with
        | true :: o => Ok nullptr (record (EvClone h nullptr) (set_clone_fails o w))
        | o =>
            let a := fresh ({[nullptr]} ∪ dom (recs w)) in
            let '(ds, open') := dup_all (fds r) (open_fds w) in
            Ok a (record (EvClone h a)
                    (set_recs <[a := mkNative ds (ints r)]>
                       (set_open_fds (fun _ => open')
                          (set_clone_fails (tail o) w))))
        end
    | None => Undefined
    end.

Definition native_handle_close (h : N) : call unit :=
  fun w =>
    match recs w !! h with
    | Some r =>
        Ok tt (record (EvClose h)
                 (set_open_fds (fun open => open ∖ list_to_set (fds r)) w))
    | None => Undefined
    end.

Definition native_handle_delete (h : N) : call unit :=
  fun w =>
    match recs w !! h with
    | Some r => Ok tt (record (EvDelete h) (set_recs (delete h) w))
    | None => Undefined
    end.

(** *** The class *)

Definition field {A} (f : hidl_handle -> A) (this : N) : call A :=
  fun w => match objs w !! this with
           | Some o => Ok (f o) w
           | None => Undefined
           end.
Definition assign (f : hidl_handle -> hidl_handle) (this : N) : call unit :=
  fun w => match objs w !! this with
           | Some o => Ok tt (set_objs <[this := f o]> w)
           | None => Undefined
           end.

Definition set_mHandle (h : N) := assign (fun o => mkHandle h (mOwnsHandle o)).
Definition set_mOwnsHandle (b : bool) := assign (fun o => mkHandle (mHandle o) b).

(** The storage of an object under construction; [raw] is whatever the
    fields hold before the constructor body writes them. *)
Definition storage (this : N) (raw : hidl_handle) : call unit :=
  fun w => Ok tt (set_objs <[this := raw]> w).

Definition freeHandle (this : N) : call unit :=
  let* owns := field mOwnsHandle this in
  let* h := field mHandle this in
  if owns && negb (h =? nullptr) then
    native_handle_close h ;;
    native_handle_delete h ;;
    set_mHandle nullptr this
  else mret tt.

(** [hidl_handle::hidl_handle()]. *)
Definition ctor (this : N) (raw : hidl_handle) : call unit :=
  storage this raw ;;
  set_mHandle nullptr this ;;
  set_mOwnsHandle false this.

(** [hidl_handle::~hidl_handle()]: after [freeHandle()] the object is gone. *)
Definition dtor (this : N) : call unit :=
  freeHandle this ;;
  fun w => Ok tt (set_objs (delete this) w).

(** [hidl_handle(const native_handle_t *handle)]. *)
Definition ctor_native (this : N) (raw : hidl_handle) (handle : N) : call unit :=
  storage this raw ;;
  set_mHandle handle this ;;
  set_mOwnsHandle false this.

(** [operator=(const hidl_handle &other)]. *)
Definition assign_copy (this other : N) : call unit :=
  if this =? other then mret tt
  else
    freeHandle this ;;
    let* oh := field mHandle other in
    if negb (oh =? nullptr) then
      (let* c := native_handle_clone oh in set_mHandle c this) ;;
      (let* h := field mHandle this in
       if h =? nullptr
       then log_fatal "Failed to clone native_handle in hidl_handle."
       else mret tt) ;;
      set_mOwnsHandle true this
    else
      set_mHandle nullptr this ;;
      set_mOwnsHandle false this.

(** [operator=(const native_handle_t *native_handle)]. *)
Definition assign_native (this : N) (native_handle : N) : call unit :=
  freeHandle this ;;
  set_mHandle native_handle this ;;
  set_mOwnsHandle false this.

(** [operator=(hidl_handle &&other)]. *)
Definition assign_move (this other : N) : call unit :=
  if negb (this =? other) then
    freeHandle this ;;
    (let* h := field mHandle other in set_mHandle h this) ;;
    (let* o := field mOwnsHandle other in set_mOwnsHandle o this) ;;
    set_mHandle nullptr other ;;
    set_mOwnsHandle false other
  else mret tt.

(** The copy constructor. *)
Definition ctor_copy (this : N) (raw : hidl_handle) (other : N) : call unit :=
  storage this raw ;;
  set_mOwnsHandle false this ;;
  assign_copy this other.

(** The move constructor. *)
Definition ctor_move (this : N) (raw : hidl_handle) (other : N) : call unit :=
  storage this raw ;;
  set_mOwnsHandle false this ;;
  assign_move this other.

Definition setTo (this : N) (handle : N) (shouldOwn : bool) : call unit :=
  freeHandle this ;;
  set_mHandle handle this ;;
  set_mOwnsHandle shouldOwn this.

(** [operator->()], the implicit conversion and [getNativeHandle()]. *)
Definition getNativeHandle (this : N) : call N := field mHandle this.

(** *** Vocabulary of the properties *)

(** [freeHandle()] closes and deletes the record of [o]. *)
Definition owns_record (o : hidl_handle) : bool :=
  mOwnsHandle o && negb (mHandle o =? nullptr).

(** The record that [o] owns, if any, is live. *)
Definition valid (w : world) (o : hidl_handle) : Prop :=
  owns_record o = true -> is_Some (recs w !! mHandle o).

(** [o'] does not point to the record that [o] owns. *)
Definition apart (o o' : hidl_handle) : Prop :=
  owns_record o = true -> mHandle o' <> mHandle o.

(** The world once the live record [r] at [h] has been closed and then
    deleted. *)
Definition closed_deleted (h : N) (r : native_handle_t) (w : world) : world :=
  record (EvDelete h)
    (set_recs (delete h)
       (record (EvClose h)
          (set_open_fds (fun open => open ∖ list_to_set (fds r)) w))).

(** The world, without the objects, once [freeHandle()] has run on [o]. *)
Definition freed (o : hidl_handle) (w : world) : world :=
  if owns_record o
  then match recs w !! mHandle o with
       | Some r => closed_deleted (mHandle o) r w
       | None => w
       end
  else w.

(** The object [o] once [freeHandle()] has run on it. *)
Definition dropped (o : hidl_handle) : hidl_handle :=
  if owns_record o then mkHandle nullptr (mOwnsHandle o) else o.

(** The world once [freeHandle()] has run on the object [o] at [this]. *)
Definition let_go (this : N) (o : hidl_handle) (w : world) : world :=
  set_objs <[this := dropped o]> (freed o w).

(** The calls of the close and delete primitives that [freeHandle()] on
    [o] makes. *)
Definition release_calls (o : hidl_handle) : list event :=
  if owns_record o then [EvClose (mHandle o); EvDelete (mHandle o)] else [].

(** The next call of the clone primitive succeeds. *)
Definition clone_ok (w : world) : Prop := head (clone_fails w) <> Some true.

(** The address and the world that a successful clone of the record [r] at
    [h] gives. *)
Definition clone_addr (w : world) : N := fresh ({[nullptr]} ∪ dom (recs w)).

Definition with_clone (h : N) (r : native_handle_t) (w : world) : world :=
  let d := dup_all (fds r) (open_fds w) in
  record (EvClone h (clone_addr w))
    (set_recs <[clone_addr w := mkNative (fst d) (ints r)]>
       (set_open_fds (fun _ => snd d)
          (set_clone_fails (tail (clone_fails w)) w))).

(** The objects after a move of [x], which was [ox], into [y]. *)
Definition moved (x y : N) (ox : hidl_handle) (w : world) : world :=
  set_objs (fun m => <[x := mkHandle nullptr false]> (<[y := ox]> m)) w.

(** [w'] is a world after a move of [x], which was [ox], into [y]: [x] is
    null and not owning, [y] is what [x] was, and destroying [y] and then
    [x] calls close and then delete on the record once if [x] owned it,
    and calls nothing otherwise. *)
Definition handed_over (x y : N) (ox : hidl_handle) (w' : world) : Prop :=
  objs w' !! x = Some (mkHandle nullptr false) /\
  objs w' !! y = Some ox /\
  exists w2 w3,
    dtor y w' = Ok tt w2 /\
    trace w2 = trace w' ++ release_calls ox /\
    (owns_record ox = true -> recs w2 !! mHandle ox = None) /\
    dtor x w2 = Ok tt w3 /\
    trace w3 = trace w2.

(** [w'] is a world after a copy of [x], which is [ox] with the live record
    [r], into [y], made in the world [w1]: [y] owns a record at an address
    that held no record and differs from [x]'s pointer, the record came
    from the clone primitive, [x] and its record are as they were, and
    destroying [y] closes and deletes the clone only, leaving the record of
    [x] live and its descriptors open. *)
Definition cloned (x y : N) (ox : hidl_handle) (r : native_handle_t)
    (w1 w' : world) : Prop :=
  exists c rc,
    objs w' !! y = Some (mkHandle c true) /\
    c <> nullptr /\ c <> mHandle ox /\ recs w1 !! c = None /\
    trace w' = trace w1 ++ [EvClone (mHandle ox) c] /\
    recs w' !! c = Some rc /\ ints rc = ints r /\
    length (fds rc) = length (fds r) /\
    objs w' !! x = Some ox /\
    recs w' !! mHandle ox = Some r /\
    exists w2,
      dtor y w' = Ok tt w2 /\
      trace w2 = trace w' ++ [EvClose c; EvDelete c] /\
      objs w2 !! x = Some ox /\
      recs w2 !! mHandle ox = Some r /\
      forall fd, fd ∈ fds r -> fd ∈ open_fds w1 -> fd ∈ open_fds w2.

(** What the copy operation [op] into [y] does when started in [w], where
    [x] is [ox] and [w1] is [w] once what [y] held has been released: a
    null [x] gives a null [y] that does not own; otherwise the record [r] of
    [x] is cloned, and a failed clone (the primitive returns null) is
    fatal. *)
Definition copies (op : call unit) (x y : N) (ox : hidl_handle)
    (w w1 : world) : Prop :=
  (mHandle ox = nullptr ->
   exists w',
     op w = Ok tt w' /\
     objs w' !! y = Some (mkHandle nullptr false) /\
     objs w' !! x = Some ox /\
     trace w' = trace w1) /\
  (forall r,
     mHandle ox <> nullptr -> recs w1 !! mHandle ox = Some r ->
     (clone_ok w -> exists w', op w = Ok tt w' /\ cloned x y ox r w1 w') /\
     (~ clone_ok w ->
      exists w',
        op w = Abort w' /\
        trace w' =
          trace w1 ++
          [EvClone (mHandle ox) nullptr;
           EvLogFatal "Failed to clone native_handle in hidl_handle."])).

(** The world reached when [m] returns (the starting one otherwise). *)
Definition after {A} (m : call A) (w : world) : world :=
  match m w with
  | Ok _ w' => w'
  | _ => w
  end.

(** A process with one record at address 16, holding the descriptors 3
    and 4, all clones ahead succeeding. *)
Module Sample.

Definition rec16 : native_handle_t := mkNative [3; 4] [7%Z].

Definition w_rec : world :=
  mkWorld ∅ {[16 := rec16]} {[0; 1; 2; 3; 4]} [] [].

(** ... and then [hidl_handle x; x.setTo(r, true)] at address 100. *)
Definition x_obj : hidl_handle := mkHandle 16 true.
Definition w_x : world :=
  after (ctor 100 (mkHandle 99 true) ;; setTo 100 16 true) w_rec.

(** ... and then a default-constructed [y] at address 200. *)
Definition w_xy : world := after (ctor 200 (mkHandle 99 true)) w_x.

(** The same, when the next clone fails. *)
Definition w_xy_failing : world := set_clone_fails [true] w_xy.

(** Another process over [w_rec]: [hidl_handle y; y.setTo(r, true)] at
    address 200 and then [hidl_handle x(y.getNativeHandle())] at address
    100, so that [x] is a view, not owning, of the record that [y] owns. *)
Definition w_alias : world :=
  after (ctor 200 (mkHandle 99 true) ;;
         setTo 200 16 true ;;
         let* h := getNativeHandle 200 in
         ctor_native 100 (mkHandle 99 true) h) w_rec.

End Sample.

End Handle.

(** * Properties *)

(** ** Sequencing *)

Section Sequencing.

Context {W A B : Type}.
Implicit Types (m : M W A) (k : A -> M W B).

Lemma bind_ok m k w a w1 : m w = Ok a w1 -> mbnd m k w = k a w1.
Proof. unfold mbnd. now intros ->. Qed.

Lemma bind_inv m k w b w' :
  mbnd m k w = Ok b w' -> exists a w1, m w = Ok a w1 /\ k a w1 = Ok b w'.
Proof.
  unfold mbnd. destruct (m w) as [a w1| |]; try discriminate. eauto.
Qed.

End Sequencing.

Ltac inv_bind H :=
  let a := fresh "a" in
  let w1 := fresh "w" in
  let H1 := fresh "Hstep" in
  apply bind_inv in H as (a & w1 & H1 & H).

(** ** The transport resolver *)

Module TransportFacts.
Import Transport.

Section Facts.

Variable parse : string -> FQName.
Variable inPackage : FQName -> string -> bool.
Variable to_string : Transport -> string.
Variable vintf : VintfObject.

Lemma Transport_eqb_EMPTY tr : Transport_eqb tr EMPTY = true <-> tr = EMPTY.
Proof. destruct tr; simpl; split; congruence. Qed.

Lemma lookup_null fq label :
  getTransportFromManifest to_string fq label None =
    (EMPTY, [Log WARNING
               ("getTransportFromManifest: No " +:+ label +:+
                " manifest defined, using default transport for " +:+
                fq_string fq)]).
Proof. reflexivity. Qed.

Lemma lookup_missing fq label m :
  entry m fq = EMPTY ->
  getTransportFromManifest to_string fq label (Some m) =
    (EMPTY, [Log WARNING
               ("getTransportFromManifest: Cannot find entry " +:+
                fq_string fq +:+ " in " +:+ label +:+
                " manifest, using default transport.")]).
Proof.
  unfold entry, getTransportFromManifest. intros ->. reflexivity.
Qed.

Lemma lookup_found fq label m :
  entry m fq <> EMPTY ->
  getTransportFromManifest to_string fq label (Some m) =
    (entry m fq,
     [Log DEBUG
        ("getTransportFromManifest: " +:+ fq_string fq +:+
         " declares transport method " +:+ to_string (entry m fq) +:+
         " in " +:+ label +:+ " manifest")]).
Proof.
  unfold entry, getTransportFromManifest. intros Hne.
  destruct (Transport_eqb _ EMPTY) eqn:E; [|reflexivity].
  apply Transport_eqb_EMPTY in E. contradiction.
Qed.

(** A lookup logs exactly one record and consults nothing itself. *)
Lemma lookup_trace fq label vm :
  exists sev msg, snd (getTransportFromManifest to_string fq label vm) = [Log sev msg].
Proof.
  destruct vm as [m|]; [|rewrite lookup_null; eauto].
  destruct (decide (entry m fq = EMPTY)) as [E|E].
  - rewrite (lookup_missing _ _ _ E). eauto.
  - rewrite (lookup_found _ _ _ E). eauto.
Qed.

(** C4.  The manifest lookup step, for every interface name (a valid
    versioned one in particular) and manifest label: with a null manifest
    handle it returns EMPTY and logs one warning that names the label;
    with a manifest that has no entry for the name's package and version
    (the manifest answers EMPTY) it returns EMPTY and logs one warning;
    otherwise it returns the manifest's entry unchanged and logs one
    record of debug severity. *)
Theorem getTransportFromManifest_cases fq label :
  (exists msg,
      getTransportFromManifest to_string fq label None
        = (EMPTY, [Log WARNING msg]) /\ names msg label) /\
  (forall m,
      entry m fq = EMPTY ->
      exists msg,
        getTransportFromManifest to_string fq label (Some m)
          = (EMPTY, [Log WARNING msg])) /\
  (forall m,
      entry m fq <> EMPTY ->
      exists msg,
        getTransportFromManifest to_string fq label (Some m)
          = (entry m fq, [Log DEBUG msg])).
Proof.
  split; [|split].
  - eexists. split; [apply lookup_null|].
    exists "getTransportFromManifest: No ". eexists. reflexivity.
  - intros m E. eexists. apply (lookup_missing _ _ _ E).
  - intros m E. eexists. apply (lookup_found _ _ _ E).
Qed.

(** C3.  [getTransport name]: an invalid name gives EMPTY and one error
    record, and so does a valid name without a version, no manifest being
    consulted in either case; for a valid versioned name the framework
    manifest is consulted exactly when the package is in "android.hidl",
    the device manifest exactly when it is not, and the answer is that of
    the lookup step on the consulted manifest under its label. *)
Theorem getTransport_policy name :
  let fq := parse name in
  let r := getTransport parse inPackage to_string vintf name in
  (isValid fq = false ->
     r = (EMPTY, [Log ERROR ("getTransport: " +:+ name +:+
                             " is not a valid fully-qualified name.")])) /\
  (isValid fq = true -> hasVersion fq = false ->
     r = (EMPTY, [Log ERROR ("getTransport: " +:+ fq_string fq +:+
              " does not specify a version. Using default transport.")])) /\
  (isValid fq = true -> hasVersion fq = true ->
     (Consult FrameworkManifest ∈ snd r <-> inPackage fq "android.hidl" = true) /\
     (Consult DeviceManifest ∈ snd r <-> inPackage fq "android.hidl" = false) /\
     r = if inPackage fq "android.hidl"
         then (fst (getTransportFromManifest to_string fq "framework" (GetFrameworkHalManifest vintf)),
               Consult FrameworkManifest ::
               snd (getTransportFromManifest to_string fq "framework" (GetFrameworkHalManifest vintf)))
         else (fst (getTransportFromManifest to_string fq "device" (GetDeviceHalManifest vintf)),
               Consult DeviceManifest ::
               snd (getTransportFromManifest to_string fq "device" (GetDeviceHalManifest vintf)))).
Proof.
  intros fq r. subst r. unfold getTransport. fold fq.
  split; [|split].
  - intros ->. reflexivity.
  - intros -> ->. reflexivity.
  - intros -> ->. cbn [negb].
    destruct (inPackage fq "android.hidl") eqn:P.
    + unfold bind, emit, ret.       destruct (lookup_trace fq "framework" (GetFrameworkHalManifest vintf))
        as (sev & msg & Ht).
      destruct (getTransportFromManifest to_string fq "framework" (GetFrameworkHalManifest vintf))
        as [tr t] eqn:L.
      simpl in Ht. subst t. cbn.
      split; [|split]; [| |reflexivity].
      * split; [reflexivity|]. intros _. left.
      * split; [|discriminate]. intros H.
        repeat (apply elem_of_cons in H as [H|H]; [discriminate|]).
        now apply elem_of_nil in H.
    + unfold bind, emit, ret.       destruct (lookup_trace fq "device" (GetDeviceHalManifest vintf))
        as (sev & msg & Ht).
      destruct (getTransportFromManifest to_string fq "device" (GetDeviceHalManifest vintf))
        as [tr t] eqn:L.
      simpl in Ht. subst t. cbn.
      split; [|split]; [| |reflexivity].
      * split; [|discriminate]. intros H.
        repeat (apply elem_of_cons in H as [H|H]; [discriminate|]).
        now apply elem_of_nil in H.
      * split; [reflexivity|]. intros _. left.
Qed.

End Facts.

(** Scenario: the lookup step on the sample framework manifest, which
    declares android.hidl.manager@1.0. *)
Lemma getTransportFromManifest_cases_witness :
  let fq := Sample.parse "android.hidl.manager@1.0::IServiceManager" in
  entry Sample.framework fq <> EMPTY /\
  exists msg,
    getTransportFromManifest Sample.to_string fq "framework"
      (Some Sample.framework) = (HWBINDER, [Log DEBUG msg]).
Proof.
  intros fq. split; [discriminate|].
  destruct (getTransportFromManifest_cases Sample.to_string fq "framework")
    as (_ & _ & H).
  apply (H Sample.framework). discriminate.
Defined.

(** Scenario: a framework interface is resolved through the framework
    manifest. *)
Lemma getTransport_policy_witness :
  let name := "android.hidl.manager@1.0::IServiceManager" in
  isValid (Sample.parse name) = true /\
  hasVersion (Sample.parse name) = true /\
  getTransport Sample.parse Sample.inPackage Sample.to_string Sample.vintf name
    = (HWBINDER,
       [Consult FrameworkManifest;
        Log DEBUG ("getTransportFromManifest: " +:+ name +:+
                   " declares transport method hwbinder in framework manifest")]).
Proof.
  intros name. split; [reflexivity|]. split; [reflexivity|].
  destruct (getTransport_policy Sample.parse Sample.inPackage Sample.to_string
              Sample.vintf name) as (_ & _ & H).
  destruct (H eq_refl eq_refl) as (_ & _ & ->). reflexivity.
Defined.

(** *** What the resolver never does *)

Section NoFallback.

Variable parse : string -> FQName.
Variable inPackage : FQName -> string -> bool.
Variable to_string : Transport -> string.

(** X1.  There is no fallback between the manifests: for a name in
    "android.hidl" the answer and the trace do not depend on the device
    manifest, and for any other name they do not depend on the framework
    manifest; so a framework interface gets EMPTY when the framework
    manifest is null, whatever the device manifest declares. *)
Theorem getTransport_no_fallback (fw fw' dev dev' : option HalManifest)
    (name : string) :
  (inPackage (parse name) "android.hidl" = true ->
   getTransport parse inPackage to_string (mkVintf fw dev) name =
   getTransport parse inPackage to_string (mkVintf fw dev') name) /\
  (inPackage (parse name) "android.hidl" = false ->
   getTransport parse inPackage to_string (mkVintf fw dev) name =
   getTransport parse inPackage to_string (mkVintf fw' dev) name) /\
  (inPackage (parse name) "android.hidl" = true ->
   fst (getTransport parse inPackage to_string (mkVintf None dev) name) = EMPTY).
Proof.
  unfold getTransport.
  destruct (isValid (parse name)), (hasVersion (parse name));
    cbn [negb]; repeat split; intros ->; reflexivity.
Qed.

(** X2.  Every call of [getTransport] writes exactly one log record, never
    a fatal one, and its severity tells the outcome: DEBUG exactly when the
    answer is not EMPTY.  An answer other than EMPTY only comes from a
    valid, versioned name whose manifest is present, and is that
    manifest's entry for the name. *)
Theorem getTransport_log_tells_result (vintf : VintfObject) (name : string) :
  let fq := parse name in
  let r := getTransport parse inPackage to_string vintf name in
  (exists sev msg,
      logs (snd r) = [(sev, msg)] /\ sev <> FATAL /\
      (sev = DEBUG <-> fst r <> EMPTY)) /\
  (fst r <> EMPTY ->
   isValid fq = true /\ hasVersion fq = true /\
   exists m, consulted inPackage vintf fq = Some m /\ entry m fq = fst r).
Proof.
  intros fq r. subst r. unfold getTransport, consulted. fold fq.
  destruct (isValid fq); cbn [negb];
    [|split; [do 2 eexists; cbn; repeat split; try discriminate; tauto
             | cbn; tauto]].
  destruct (hasVersion fq); cbn [negb];
    [|split; [do 2 eexists; cbn; repeat split; try discriminate; tauto
             | cbn; tauto]].
  assert (H : forall k label vm,
    let r := bind (bind (emit (Consult k)) (fun _ => ret vm))
               (fun vm => getTransportFromManifest to_string fq label vm) in
    (exists sev msg, logs (snd r) = [(sev, msg)] /\ sev <> FATAL /\
                     (sev = DEBUG <-> fst r <> EMPTY)) /\
    (fst r <> EMPTY ->
     true = true /\ true = true /\
     exists m, vm = Some m /\ entry m fq = fst r)).
  { intros k label vm. destruct vm as [m|].
    - destruct (decide (entry m fq = EMPTY)) as [E|E].
      + cbv zeta. unfold bind, emit, ret.
        rewrite (lookup_missing to_string fq label m E). cbn. split.
        * do 2 eexists. repeat split; try discriminate; tauto.
        * tauto.
      + cbv zeta. unfold bind, emit, ret.
        rewrite (lookup_found to_string fq label m E). cbn. split.
        * do 2 eexists. repeat split; try discriminate; tauto.
        * intros _. repeat split. now exists m.
    - cbv zeta. unfold bind, emit, ret. rewrite lookup_null. cbn. split.
      + do 2 eexists. repeat split; try discriminate; tauto.
      + tauto. }
  destruct (inPackage fq "android.hidl"); apply H.
Qed.

End NoFallback.

(** Scenario: a vendor interface is looked up in the (absent) device
    manifest, although the framework manifest is there. *)
Lemma getTransport_no_fallback_witness :
  getTransport Sample.parse Sample.inPackage Sample.to_string
    (mkVintf (Some Sample.framework) None) "vendor.acme.foo@2.1::IFoo" =
  getTransport Sample.parse Sample.inPackage Sample.to_string
    (mkVintf None None) "vendor.acme.foo@2.1::IFoo".
Proof.
  destruct (getTransport_no_fallback Sample.parse Sample.inPackage
              Sample.to_string (Some Sample.framework) None None None
              "vendor.acme.foo@2.1::IFoo") as (_ & H & _).
  apply H. reflexivity.
Defined.

(** Scenario: the one answer of the sample installation that is not
    EMPTY. *)
Lemma getTransport_log_tells_result_witness :
  let name := "android.hidl.manager@1.0::IServiceManager" in
  exists m,
    consulted Sample.inPackage Sample.vintf (Sample.parse name) = Some m /\
    entry m (Sample.parse name) = HWBINDER.
Proof.
  intros name.
  destruct (getTransport_log_tells_result Sample.parse Sample.inPackage
              Sample.to_string Sample.vintf name) as [_ H].
  destruct H as (_ & _ & m & Hm & He); [discriminate|].
  exists m. split; [exact Hm | exact He].
Defined.

End TransportFacts.

(** ** hidl_string *)

Module HStringFacts.
Import Byte HString.
Local Open Scope call_scope.

(** *** Stepping through a call *)

Lemma field_ok {A} (f : hidl_string -> A) this w o :
  objs w !! this = Some o -> field f this w = Ok (f o) w.
Proof. unfold field. now intros ->. Qed.

(** *** Memory *)

Lemma written_Some (bs : list byte) : written (Some <$> bs) = Some bs.
Proof.
  induction bs as [|b bs IH]; [reflexivity|].
  rewrite fmap_cons. cbn [written]. now rewrite IH.
Qed.

Lemma written_length cs bs : written cs = Some bs -> length bs = length cs.
Proof.
  revert bs. induction cs as [|[c|] cs IH]; simpl; intros bs H;
    try discriminate.
  - now injection H as <-.
  - destruct (written cs) as [bs'|]; [|discriminate].
    injection H as <-. simpl. f_equal. now apply IH.
Qed.

Lemma load_length w p n bs : load w p n = Some bs -> N.of_nat (length bs) = n.
Proof.
  unfold load. destruct (cells_at w p) as [cs|]; [|discriminate].
  destruct (n <=? N.of_nat (length cs)) eqn:E; [|discriminate].
  apply N.leb_le in E. intros H%written_length.
  rewrite H, length_take. lia.
Qed.

(** A read only depends on the block read. *)
Lemma cells_at_insert_ne w p b blk :
  (forall o, p <> Addr b o) ->
  cells_at (set_mem <[b := blk]> w) p = cells_at w p.
Proof.
  intros Hp. destruct p as [| |b' o]; try reflexivity. simpl.
  rewrite lookup_insert_ne; [reflexivity|]. intros ->. now apply (Hp o).
Qed.

Lemma cells_at_delete_ne w p b :
  (forall o, p <> Addr b o) ->
  cells_at (set_mem (delete b) w) p = cells_at w p.
Proof.
  intros Hp. destruct p as [| |b' o]; try reflexivity. simpl.
  rewrite lookup_delete_ne; [reflexivity|]. intros ->. now apply (Hp o).
Qed.

Lemma cells_at_live w p cs b o :
  cells_at w p = Some cs -> p = Addr b o -> is_Some (mem w !! b).
Proof.
  intros H ->. simpl in H. destruct (mem w !! b); [eauto | discriminate].
Qed.

Lemma load_live w p n bs b o :
  load w p n = Some bs -> p = Addr b o -> is_Some (mem w !! b).
Proof.
  unfold load. destruct (cells_at w p) as [cs|] eqn:E; [|discriminate].
  intros _. now apply (cells_at_live _ _ _ _ _ E).
Qed.

Lemma fresh_block_not_live (w : world) : mem w !! fresh (dom (mem w)) = None.
Proof. apply not_elem_of_dom, is_fresh. Qed.

Lemma load_fresh_frame w p n bs blk :
  load w p n = Some bs ->
  load (set_mem <[fresh (dom (mem w)) := blk]> w) p n = Some bs.
Proof.
  intros H. unfold load. rewrite cells_at_insert_ne; [exact H|].
  intros o ->. destruct (load_live _ _ _ _ _ o H eq_refl) as [x Hx].
  now rewrite fresh_block_not_live in Hx.
Qed.

(** *** The private methods *)

Ltac run :=
  repeat first
    [ progress cbn [objs mem oom trace set_objs set_mem set_oom record
                    mBuffer mSize mOwnsBuffer mret]
    | rewrite lookup_insert_eq
    | rewrite insert_insert_eq
    | rewrite lookup_insert_ne by congruence
    | match goal with
      | H : ?m !! ?t = Some _ |- context [?m !! ?t] => rewrite H
      | H : ?c = _ |- context [if ?c then _ else _] => rewrite H
      | H : ?c = _ |- context [match ?c with _ => _ end] => rewrite H
      end ].

Ltac same_world :=
  unfold set_objs, set_mem, set_oom, record; run; try reflexivity.

Lemma free_inv p w w1 :
  free p w = Ok tt w1 ->
  objs w1 = objs w /\ oom w1 = oom w /\ trace w1 = trace w ++ [EvFree p] /\
  (p = nullptr /\ mem w1 = mem w \/
   exists b blk, p = Addr b 0 /\ mem w !! b = Some blk /\
                 from_malloc blk = true /\ mem w1 = delete b (mem w)).
Proof.
  unfold free. destruct p as [| |b [|o]]; try discriminate.
  - intros [= <-]. simpl. repeat split. left. auto.
  - destruct (mem w !! b) as [blk|] eqn:E; [|discriminate].
    destruct (from_malloc blk) eqn:F; [|discriminate].
    intros [= <-]. simpl. repeat split. right. exists b, blk. auto.
Qed.

Lemma clear_keep this w o :
  objs w !! this = Some o -> owns_alloc o = false ->
  clear this w = Ok tt (set_objs <[this := sentinel]> w).
Proof.
  intros Ho Hk. unfold owns_alloc in Hk.
  unfold clear, mbnd, field, set_mBuffer, set_mSize, set_mOwnsBuffer, assign.
  run. same_world.
Qed.

Lemma clear_free this w o w1 :
  objs w !! this = Some o -> owns_alloc o = true ->
  free (mBuffer o) w = Ok tt w1 ->
  clear this w = Ok tt (set_objs <[this := sentinel]> w1).
Proof.
  intros Ho Hk Hf. unfold owns_alloc in Hk.
  destruct (free_inv _ _ _ Hf) as (E & _).
  assert (Ho1 : objs w1 !! this = Some o) by now rewrite E.
  unfold clear, mbnd, field, set_mBuffer, set_mSize, set_mOwnsBuffer, assign.
  run. same_world.
Qed.

Lemma moveFrom_ne this other w ot oo :
  this <> other ->
  objs w !! this = Some ot -> objs w !! other = Some oo ->
  moveFrom this other w =
    Ok tt (set_objs (fun m => <[other := mkString (mBuffer oo) (mSize oo) false]>
                                (<[this := oo]> m)) w).
Proof.
  intros Hne Ht Ho.
  unfold moveFrom, mbnd, field, set_mBuffer, set_mSize, set_mOwnsBuffer, assign.
  run. destruct oo. same_world.
Qed.

Lemma malloc_spec n w :
  malloc_ok w ->
  let b := fresh (dom (mem w)) in
  malloc n w =
    Ok (Addr b 0)
       (mkWorld (objs w)
                (<[b := mkBlock (replicate (N.to_nat n) None) true]> (mem w))
                (tail (oom w))
                (trace w ++ [EvMalloc n (Addr b 0)])).
Proof.
  intros H b. subst b. unfold malloc_ok in H. unfold malloc.
  destruct (oom w) as [|[|] o]; simpl in *; try reflexivity. congruence.
Qed.

Lemma load_ext w w' p n : mem w = mem w' -> load w p n = load w' p n.
Proof.
  intros E. unfold load, cells_at. destruct p; try reflexivity. now rewrite E.
Qed.

Lemma size_fits_size_t size :
  size <= UINT32_MAX -> (size + 1) mod (SIZE_MAX + 1) = size + 1.
Proof. unfold UINT32_MAX, SIZE_MAX. intros H. apply N.mod_small. lia. Qed.

Lemma size_fits_uint32 size :
  size <= UINT32_MAX -> size mod (UINT32_MAX + 1) = size.
Proof. unfold UINT32_MAX. intros H. apply N.mod_small. lia. Qed.

Lemma write_ok b off bs w blk :
  mem w !! b = Some blk ->
  off + N.of_nat (length bs) <= N.of_nat (length (cells blk)) ->
  write (Addr b off) bs w =
    Ok tt (set_mem
             <[b := mkBlock (take (N.to_nat off) (cells blk) ++ (Some <$> bs) ++
                             drop (N.to_nat off + length bs) (cells blk))
                            (from_malloc blk)]> w).
Proof.
  intros Hb Hle. unfold write. rewrite Hb.
  apply N.leb_le in Hle. now rewrite Hle.
Qed.

(** Filling a fresh block of [length bs + 1] cells with [bs] and then a
    zero byte. *)
Lemma fill_block (bs : list byte) :
  let c0 := replicate (length bs + 1) (@None byte) in
  let c1 := take 0 c0 ++ (Some <$> bs) ++ drop (0 + length bs) c0 in
  take (length bs) c1 ++ (Some <$> [x00]) ++ drop (length bs + length [x00]) c1
    = (Some <$> bs) ++ [Some x00].
Proof.
  intros c0 c1. subst c1 c0. rewrite take_0, Nat.add_0_l. cbn [app].
  rewrite drop_replicate.
  replace (length bs + 1 - length bs)%nat with 1%nat by lia.
  rewrite take_app_length' by now rewrite length_fmap.
  rewrite drop_ge; [reflexivity|].
  rewrite length_app, length_fmap, length_replicate. simpl. lia.
Qed.

(** [copyFrom] on a readable source of at most [UINT32_MAX] bytes, when the
    allocation succeeds: a fresh block holds the bytes and a closing zero,
    and the object owns it. *)
Lemma copyFrom_ok this data size w o bs :
  objs w !! this = Some o ->
  size <= UINT32_MAX ->
  load w data size = Some bs ->
  malloc_ok w ->
  let b := fresh (dom (mem w)) in
  copyFrom this data size w =
    Ok tt (mkWorld (<[this := mkString (Addr b 0) size true]> (objs w))
                   (<[b := mkBlock ((Some <$> bs) ++ [Some x00]) true]> (mem w))
                   (tail (oom w))
                   (trace w ++ [EvMalloc (size + 1) (Addr b 0)])).
Proof.
  intros Ho Hsz Hld Hm b. unfold copyFrom.
  assert (Hlt : (UINT32_MAX <? size) = false) by now apply N.ltb_ge.
  rewrite Hlt. unfold mbnd at 1. cbn [mret].
  rewrite (bind_ok _ _ _ _ _ (malloc_spec _ w Hm)). fold b.
  rewrite size_fits_size_t by assumption.
  pose proof (load_length _ _ _ _ Hld) as Hlen.
  assert (Hn : N.to_nat size = length bs) by lia.
  set (c0 := replicate (N.to_nat (size + 1)) (@None byte)).
  set (w1 := mkWorld _ _ _ _).
  assert (Hld1 : load w1 data size = Some bs).
  { rewrite <- (load_fresh_frame w data size bs (mkBlock c0 true) Hld).
    now apply load_ext. }
  assert (Hb1 : mem w1 !! b = Some (mkBlock c0 true)) by apply lookup_insert_eq.
  assert (Hcpy : memcpy (Addr b 0) data size w1 =
            Ok tt (set_mem <[b := mkBlock (take (N.to_nat 0) c0 ++ (Some <$> bs) ++
                       drop (N.to_nat 0 + length bs) c0) true]> w1)).
  { unfold memcpy. rewrite Hld1. apply (write_ok _ _ _ _ _ Hb1).
    subst c0. cbn [cells]. rewrite length_replicate. lia. }
  rewrite (bind_ok _ _ _ _ _ Hcpy). cbn [ptr_add]. rewrite N.add_0_l.
  set (c1 := _ ++ _ ++ _). set (w2 := set_mem _ w1).
  assert (Hb2 : mem w2 !! b = Some (mkBlock c1 true)) by apply lookup_insert_eq.
  assert (Hst : write (Addr b size) [x00] w2 =
            Ok tt (set_mem <[b := mkBlock (take (N.to_nat size) c1 ++ (Some <$> [x00]) ++
                       drop (N.to_nat size + length [x00]) c1) true]> w2)).
  { apply (write_ok _ _ _ _ _ Hb2). subst c1 c0. cbn [cells].
    rewrite !length_app, length_take, length_drop, length_fmap,
      length_replicate. simpl. lia. }
  rewrite (bind_ok _ _ _ _ _ Hst).
  assert (Hfill : take (N.to_nat size) c1 ++ (Some <$> [x00]) ++
                    drop (N.to_nat size + length [x00]) c1
                  = (Some <$> bs) ++ [Some x00]).
  { subst c1 c0. rewrite Hn.
    replace (N.to_nat (size + 1)) with (length bs + 1)%nat by lia.
    apply fill_block. }
  rewrite Hfill.
  unfold mbnd, set_mBuffer, set_mSize, set_mOwnsBuffer, assign.
  subst w2 w1. run. rewrite size_fits_uint32 by assumption. same_world.
Qed.

Lemma ctor_spec this w :
  ctor this w = Ok tt (set_objs <[this := sentinel]> w).
Proof. reflexivity. Qed.

Lemma load_whole w b bs flag n :
  mem w !! b = Some (mkBlock ((Some <$> bs) ++ [Some x00]) flag) ->
  n = N.of_nat (length bs) ->
  load w (Addr b 0) (n + 1) = Some (bs ++ [x00]) /\
  load w (Addr b 0) n = Some bs.
Proof.
  intros Hb ->. unfold load, cells_at. rewrite Hb. cbn [cells].
  change (N.to_nat 0) with 0%nat. rewrite drop_0.
  assert (L : length ((Some <$> bs) ++ [Some x00]) = S (length bs))
    by (rewrite length_app, length_fmap; simpl; lia).
  rewrite L.
  assert (E1 : (N.of_nat (length bs) + 1 <=? N.of_nat (S (length bs))) = true)
    by (apply N.leb_le; lia).
  assert (E2 : (N.of_nat (length bs) <=? N.of_nat (S (length bs))) = true)
    by (apply N.leb_le; lia).
  assert (E0 : (0 <=? N.of_nat (S (length bs))) = true)
    by (apply N.leb_le; lia).
  rewrite E0. cbn beta iota. rewrite L, E1, E2. split.
  - rewrite take_ge by lia.
    change [Some x00] with (Some <$> [x00]). rewrite <- fmap_app.
    apply written_Some.
  - rewrite Nat2N.id, take_app_length' by now rewrite length_fmap.
    apply written_Some.
Qed.

(** *** Construction from bytes *)

Lemma ctor_buf_ok this data n w bs :
  n <= UINT32_MAX -> load w data n = Some bs -> malloc_ok w ->
  let b := fresh (dom (mem w)) in
  ctor_buf this data n w =
    Ok tt (mkWorld (<[this := mkString (Addr b 0) n true]> (objs w))
                   (<[b := mkBlock ((Some <$> bs) ++ [Some x00]) true]> (mem w))
                   (tail (oom w))
                   (trace w ++ [EvMalloc (n + 1) (Addr b 0)])).
Proof.
  intros Hn Hld Hm b.
  set (w0 := set_objs <[this := sentinel]> w).
  assert (Ho : objs w0 !! this = Some sentinel) by apply lookup_insert_eq.
  assert (Hld0 : load w0 data n = Some bs) by now rewrite <- Hld; apply load_ext.
  unfold ctor_buf. rewrite (bind_ok _ _ _ _ _ (ctor_spec this w)). fold w0.
  rewrite (copyFrom_ok this data n w0 sentinel bs Ho Hn Hld0 Hm).
  subst w0 b. run. reflexivity.
Qed.

(** C5.  For every byte sequence [B] of at most 2^32-1 bytes readable at
    [data], constructing a hidl_string from the pointer and the length, or
    from the host string with that buffer and size, succeeds when the
    allocation does; then [size()] is the length of [B], the buffer at
    [c_str()] holds [B] followed by a zero byte at offset [|B|], and the
    conversion to a host string gives exactly [B]. *)
Theorem construct_round_trip (w : world) (this : N) (data : ptr) (B : list byte) :
  let n := N.of_nat (length B) in
  n <= UINT32_MAX ->
  load w data n = Some B ->
  malloc_ok w ->
  exists w' buf,
    ctor_buf this data n w = Ok tt w' /\
    ctor_std this (mkStd data n) w = Ok tt w' /\
    size this w' = Ok n w' /\
    c_str this w' = Ok buf w' /\
    load w' buf (n + 1) = Some (B ++ [x00]) /\
    load w' (ptr_add buf n) 1 = Some [x00] /\
    to_std_string this w' = Ok B w'.
Proof.
  intros n Hn Hld Hm.
  pose proof (ctor_buf_ok this data n w B Hn Hld Hm) as Hc. cbv zeta in Hc.
  set (b := fresh (dom (mem w))) in Hc. set (w' := mkWorld _ _ _ _) in Hc.
  assert (Hb : mem w' !! b = Some (mkBlock ((Some <$> B) ++ [Some x00]) true))
    by apply lookup_insert_eq.
  assert (Ho' : objs w' !! this = Some (mkString (Addr b 0) n true))
    by apply lookup_insert_eq.
  destruct (load_whole w' b B true n Hb eq_refl) as [L1 L2].
  exists w', (Addr b 0). repeat split.
  - exact Hc.
  - exact Hc.
  - unfold size. now rewrite (field_ok _ _ _ _ Ho').
  - unfold c_str. now rewrite (field_ok _ _ _ _ Ho').
  - exact L1.
  - cbn [ptr_add]. rewrite N.add_0_l. unfold load, cells_at. rewrite Hb.
    cbn [cells]. rewrite length_app, length_fmap. cbn [length].
    assert (E : (n <=? N.of_nat (length B + 1)) = true) by (apply N.leb_le; lia).
    rewrite E. subst n. rewrite Nat2N.id, drop_app_length'
      by now rewrite length_fmap. reflexivity.
  - unfold to_std_string, mbnd. rewrite (field_ok _ _ _ _ Ho').
    rewrite (field_ok _ _ _ _ Ho'). cbn [mBuffer mSize]. now rewrite L2.
Qed.

(** Scenario: [hidl_string x("hello", 5)] from the caller's block. *)
Lemma construct_round_trip_witness :
  exists w' buf,
    ctor_buf 100 (Addr 7 0) 5 Sample.w_hello = Ok tt w' /\
    ctor_std 100 (mkStd (Addr 7 0) 5) Sample.w_hello = Ok tt w' /\
    size 100 w' = Ok 5 w' /\
    c_str 100 w' = Ok buf w' /\
    load w' buf (5 + 1) = Some (Sample.hello ++ [x00]) /\
    load w' (ptr_add buf 5) 1 = Some [x00] /\
    to_std_string 100 w' = Ok Sample.hello w'.
Proof.
  apply (construct_round_trip Sample.w_hello 100 (Addr 7 0) Sample.hello).
  - vm_compute. discriminate.
  - reflexivity.
  - vm_compute. discriminate.
Defined.

(** *** clear, the destructor and setToExternal *)

Lemma releasable_owns_alloc w o :
  releasable w o -> owns_alloc o = mOwnsBuffer o.
Proof.
  unfold releasable, owns_alloc. destruct (mOwnsBuffer o); [|reflexivity].
  intros H. destruct (H eq_refl) as (b & blk & -> & _). reflexivity.
Qed.

Lemma clear_spec this w o :
  objs w !! this = Some o -> releasable w o ->
  clear this w = Ok tt (set_objs <[this := sentinel]> (released o w)).
Proof.
  intros Ho Hr. pose proof (releasable_owns_alloc _ _ Hr) as Ha.
  unfold released. destruct (mOwnsBuffer o) eqn:Hown.
  - destruct (Hr Hown) as (b & blk & Hp & Hb & Hm).
    apply (clear_free _ _ _ _ Ho Ha). rewrite Hp. unfold free.
    now rewrite Hb, Hm.
  - apply (clear_keep _ _ _ Ho Ha).
Qed.

Lemma dtor_spec this w o :
  objs w !! this = Some o -> releasable w o ->
  dtor this w = Ok tt (set_objs (delete this) (released o w)).
Proof.
  intros Ho Hr. unfold dtor. rewrite (bind_ok _ _ _ _ _ (clear_spec _ _ _ Ho Hr)).
  unfold set_objs. cbn [objs mem oom trace]. now rewrite delete_insert_eq.
Qed.

Lemma released_objs o w : objs (released o w) = objs w.
Proof. unfold released. now destruct (mOwnsBuffer o). Qed.

Lemma released_unowned o w : mOwnsBuffer o = false -> released o w = w.
Proof. unfold released. now intros ->. Qed.

Lemma frees_app t1 t2 : frees (t1 ++ t2) = frees t1 ++ frees t2.
Proof. apply omap_app. Qed.

Lemma released_frees o w :
  frees (trace (released o w)) =
  frees (trace w) ++ (if mOwnsBuffer o then [mBuffer o] else []).
Proof.
  unfold released. destruct (mOwnsBuffer o); cbn [trace record].
  - now rewrite frees_app.
  - now rewrite app_nil_r.
Qed.

Lemma setToExternal_ok this data n w o :
  n <= UINT32_MAX ->
  objs w !! this = Some o -> releasable w o ->
  setToExternal this data n w =
    Ok tt (set_objs <[this := mkString data n false]> (released o w)).
Proof.
  intros Hn Ho Hr. unfold setToExternal.
  assert (Hlt : (UINT32_MAX <? n) = false) by now apply N.ltb_ge.
  rewrite Hlt. unfold mbnd at 1. cbn [mret].
  rewrite (bind_ok _ _ _ _ _ (clear_spec _ _ _ Ho Hr)).
  unfold mbnd, set_mBuffer, set_mSize, set_mOwnsBuffer, assign. run.
  rewrite size_fits_uint32 by assumption. same_world.
Qed.

Lemma setToExternal_fatal this data n w :
  UINT32_MAX < n ->
  setToExternal this data n w =
    Abort (record (EvLogFatal "string size can't exceed 2^32 bytes.") w).
Proof.
  intros Hn. unfold setToExternal.
  assert (Hlt : (UINT32_MAX <? n) = true) by now apply N.ltb_lt.
  rewrite Hlt. reflexivity.
Qed.

(** *** Moves *)

Lemma ctor_move_spec x y w ox :
  x <> y -> objs w !! x = Some ox ->
  ctor_move y x w = Ok tt (moved x y ox w).
Proof.
  intros Hne Hx. unfold ctor_move.
  rewrite (bind_ok _ _ _ _ _ (ctor_spec y w)).
  rewrite (moveFrom_ne y x _ sentinel ox);
    [| congruence | run; reflexivity | run; reflexivity].
  unfold moved, disowned. same_world.
Qed.

Lemma assign_move_spec x y w ox oy :
  x <> y -> objs w !! x = Some ox -> objs w !! y = Some oy ->
  releasable w oy ->
  assign_move y x w = Ok tt (moved x y ox (released oy w)).
Proof.
  intros Hne Hx Hy Hr. unfold assign_move.
  assert (E : (y =? x) = false) by (apply N.eqb_neq; congruence).
  rewrite E. cbn [negb].
  rewrite (bind_ok _ _ _ _ _ (clear_spec _ _ _ Hy Hr)).
  rewrite (moveFrom_ne y x _ sentinel ox); [| congruence | run; reflexivity |].
  - unfold moved, disowned. same_world.
  - run. rewrite released_objs. run. reflexivity.
Qed.

Lemma assign_move_self x w : assign_move x x w = Ok tt w.
Proof. unfold assign_move. now rewrite N.eqb_refl. Qed.

Lemma moved_x x y ox w : x <> y -> objs (moved x y ox w) !! x = Some (disowned ox).
Proof. intros. unfold moved. run. reflexivity. Qed.

Lemma moved_y x y ox w : x <> y -> objs (moved x y ox w) !! y = Some ox.
Proof. intros. unfold moved. run. reflexivity. Qed.

(** A read that does not go through a released block is not affected by
    the release. *)
Lemma load_released w oy p n bs :
  releasable w oy ->
  (mOwnsBuffer oy = true -> forall off, p <> Addr (block_of (mBuffer oy)) off) ->
  load w p n = Some bs -> load (released oy w) p n = Some bs.
Proof.
  intros Hr Hp Hld. unfold released. destruct (mOwnsBuffer oy); [|exact Hld].
  unfold load in *.
  replace (cells_at _ p) with (cells_at w p); [exact Hld|].
  symmetry. apply (cells_at_delete_ne w p). auto.
Qed.

Lemma apart_block oy ox w :
  releasable w oy -> apart oy ox ->
  mOwnsBuffer oy = true ->
  forall off, mBuffer ox <> Addr (block_of (mBuffer oy)) off.
Proof.
  intros Hr Ha Hown off. destruct (Hr Hown) as (b & blk & Hb & _).
  rewrite Hb. cbn [block_of]. apply (Ha Hown b 0 off Hb).
Qed.

Lemma to_std_string_inv x w B ox :
  objs w !! x = Some ox -> to_std_string x w = Ok B w ->
  load w (mBuffer ox) (mSize ox) = Some B.
Proof.
  intros Hx. unfold to_std_string, mbnd. rewrite !(field_ok _ _ _ _ Hx).
  destruct (load w _ _); [|discriminate]. now intros [= ->].
Qed.

Lemma transferred_moved x y ox B w w0 :
  x <> y -> objs w !! x = Some ox ->
  to_std_string x w = Ok B w ->
  load w0 (mBuffer ox) (mSize ox) = Some B ->
  transferred x y ox B (moved x y ox w0).
Proof.
  intros Hne Hx HB Hld.
  pose proof (load_length _ _ _ _ Hld) as Hlen.
  pose proof (moved_x x y ox w0 Hne) as Hx'.
  pose proof (moved_y x y ox w0 Hne) as Hy'.
  unfold transferred, c_str, size, empty, to_std_string, mbnd.
  rewrite !(field_ok _ _ _ _ Hx'), !(field_ok _ _ _ _ Hy').
  cbn [disowned mBuffer mSize]. rewrite Hlen.
  repeat split; try assumption.
  replace (load (moved x y ox w0) _ _) with (load w0 (mBuffer ox) (mSize ox))
    by now apply load_ext.
  now rewrite Hld.
Qed.

Lemma releasable_ext w w' o :
  mem w = mem w' -> releasable w o -> releasable w' o.
Proof. unfold releasable. intros <-. auto. Qed.

Lemma source_inert_moved x y ox w0 :
  x <> y -> releasable w0 ox ->
  source_inert x y ox (moved x y ox w0).
Proof.
  intros Hne Hr. set (w' := moved x y ox w0).
  pose proof (moved_x x y ox w0 Hne) as Hx.
  pose proof (moved_y x y ox w0 Hne) as Hy.
  assert (Hd : releasable w' (disowned ox)) by (intros [=]).
  split; [exact Hx|]. split.
  - eexists. split; [apply (clear_spec _ _ _ Hx Hd)|].
    rewrite released_unowned by reflexivity. now split.
  - pose proof (dtor_spec _ _ _ Hx Hd) as Hdx.
    rewrite released_unowned in Hdx by reflexivity.
    set (w3 := set_objs (delete x) w') in Hdx.
    assert (Hy3 : objs w3 !! y = Some ox).
    { subst w3. cbn [objs set_objs]. rewrite lookup_delete_ne by congruence.
      exact Hy. }
    assert (Hr3 : releasable w3 ox) by now apply (releasable_ext w0).
    exists w3. eexists. split; [exact Hdx|]. split; [reflexivity|].
    split; [reflexivity|]. split; [apply (dtor_spec _ _ _ Hy3 Hr3)|].
    cbn [trace set_objs]. rewrite released_frees. reflexivity.
Qed.

(** *** What the operations do to objects and memory, whenever they return *)

Lemma field_inv {A} (f : hidl_string -> A) this w a w' :
  field f this w = Ok a w' ->
  w' = w /\ exists o, objs w !! this = Some o /\ a = f o.
Proof.
  unfold field. destruct (objs w !! this) as [o|]; [|discriminate].
  intros [= <- <-]. eauto.
Qed.

Lemma assign_inv f this w w' :
  assign f this w = Ok tt w' ->
  exists o, objs w !! this = Some o /\ w' = set_objs <[this := f o]> w.
Proof.
  unfold assign. destruct (objs w !! this) as [o|]; [|discriminate].
  intros [= <-]. eauto.
Qed.

Lemma malloc_inv n w p w' :
  malloc n w = Ok p w' ->
  objs w' = objs w /\
  (p = nullptr \/
   exists b blk, p = Addr b 0 /\ mem w !! b = None /\
                 from_malloc blk = true /\ mem w' = <[b := blk]> (mem w)).
Proof.
  unfold malloc.
  destruct (oom w) as [|[|] o]; intros [= <- <-]; cbn [objs mem record set_mem
    set_oom]; split; try reflexivity; try (now left);
    right; exists (fresh (dom (mem w))),
                  (mkBlock (replicate (N.to_nat n) None) true);
    (split; [reflexivity|]); (split; [apply fresh_block_not_live|]);
    split; reflexivity.
Qed.

Lemma write_inv p bs w w' :
  write p bs w = Ok tt w' ->
  objs w' = objs w /\
  exists b off blk cs,
    p = Addr b off /\ mem w !! b = Some blk /\
    mem w' = <[b := mkBlock cs (from_malloc blk)]> (mem w).
Proof.
  unfold write. destruct p as [| |b off]; try discriminate.
  destruct (mem w !! b) as [blk|] eqn:E; [|discriminate].
  destruct (_ <=? _); [|discriminate]. intros [= <-]. cbn [objs mem set_mem].
  split; [reflexivity|]. exists b, off, blk. eauto.
Qed.

Lemma memcpy_inv dst src n w w' :
  memcpy dst src n w = Ok tt w' ->
  objs w' = objs w /\
  exists b off blk cs,
    dst = Addr b off /\ mem w !! b = Some blk /\
    mem w' = <[b := mkBlock cs (from_malloc blk)]> (mem w).
Proof.
  unfold memcpy. destruct (load w src n); [|discriminate]. apply write_inv.
Qed.

Lemma strlen_inv s w n w' : strlen s w = Ok n w' -> w' = w.
Proof.
  unfold strlen. destruct (cells_at w s); [|discriminate].
  destruct (find_nul _); [|discriminate]. now intros [= _ <-].
Qed.

Lemma size_check_inv size w w' :
  (if UINT32_MAX <? size
   then log_fatal "string size can't exceed 2^32 bytes."
   else mret tt) w = Ok tt w' ->
  w' = w /\ size <= UINT32_MAX.
Proof.
  destruct (UINT32_MAX <? size) eqn:E; [discriminate|].
  intros [= <-]. split; [reflexivity|]. now apply N.ltb_ge.
Qed.

(** Three assignments to the fields of [this] in a row. *)
Lemma assign3_inv f g h this w w' :
  (assign f this ;; assign g this ;; assign h this) w = Ok tt w' ->
  exists o, objs w !! this = Some o /\
            objs w' = <[this := h (g (f o))]> (objs w) /\ mem w' = mem w.
Proof.
  intros H.
  inv_bind H. destruct a. apply assign_inv in Hstep as (o1 & Ho1 & ->).
  inv_bind H. destruct a. apply assign_inv in Hstep as (o2 & Ho2 & ->).
  apply assign_inv in H as (o3 & Ho3 & ->).
  revert Ho2 Ho3. run. intros [= <-] [= <-]. exists o1. now split.
Qed.

Lemma copyFrom_inv this data size w w' :
  copyFrom this data size w = Ok tt w' ->
  exists o b blk,
    objs w !! this = Some o /\ size <= UINT32_MAX /\
    mem w !! b = None /\ from_malloc blk = true /\
    objs w' = <[this := mkString (Addr b 0) size true]> (objs w) /\
    mem w' = <[b := blk]> (mem w).
Proof.
  unfold copyFrom. intros H.
  inv_bind H. destruct a. apply size_check_inv in Hstep as [-> Hsz].
  inv_bind H. apply malloc_inv in Hstep as [E1 Hp].
  inv_bind H. destruct a0.
  apply memcpy_inv in Hstep as [E2 (b & off & blk2 & cs2 & Hb & Hl2 & M2)].
  inv_bind H. destruct a0.
  apply write_inv in Hstep as [E3 (b3 & off3 & blk3 & cs3 & Hb3 & Hl3 & M3)].
  unfold set_mBuffer, set_mSize, set_mOwnsBuffer in H.
  apply assign3_inv in H as (o & Ho & Eo & Em).
  destruct Hp as [->|(b' & blk & -> & Hfresh & Hfm & M1)]; [discriminate|].
  injection Hb as <- <-. cbn [ptr_add] in Hb3. injection Hb3 as <- _.
  rewrite M1, lookup_insert_eq in Hl2. injection Hl2 as <-.
  rewrite M2, lookup_insert_eq in Hl3. injection Hl3 as <-.
  cbn [from_malloc] in *.
  exists o, b', (mkBlock cs3 (from_malloc blk)).
  rewrite E3, E2, E1 in Ho, Eo. repeat split; try assumption.
  - rewrite Eo. cbn [mBuffer mSize mOwnsBuffer].
    now rewrite size_fits_uint32.
  - rewrite Em, M3, M2, M1. now rewrite !insert_insert_eq.
Qed.

Lemma clear_inv this w w' :
  clear this w = Ok tt w' ->
  exists o,
    objs w !! this = Some o /\
    objs w' = <[this := sentinel]> (objs w) /\
    (mem w' = mem w \/
     exists b blk, mOwnsBuffer o = true /\ mBuffer o = Addr b 0 /\
                   mem w !! b = Some blk /\ mem w' = delete b (mem w)).
Proof.
  unfold clear. intros H.
  inv_bind H. destruct a.
  inv_bind Hstep. apply field_inv in Hstep0 as [-> (o & Ho & ->)].
  inv_bind Hstep. apply field_inv in Hstep0 as [-> (o' & Ho' & ->)].
  rewrite Ho in Ho'. injection Ho' as <-.
  unfold set_mBuffer, set_mSize, set_mOwnsBuffer in H.
  apply assign3_inv in H as (o1 & Ho1 & Eo & Em).
  exists o. split; [assumption|].
  destruct (mOwnsBuffer o && negb (ptr_eqb (mBuffer o) kEmptyString)) eqn:Hown.
  - apply andb_true_iff in Hown as [Hown _].
    destruct (free_inv _ _ _ Hstep) as (E & _ & _ & Hm).
    rewrite Eo, Em, E. split; [reflexivity|].
    destruct Hm as [[_ ->]|(b & blk & Hb & Hl & _ & ->)]; [now left|].
    right. exists b, blk. auto.
  - injection Hstep as <-. rewrite Eo, Em. split; [reflexivity | now left].
Qed.

Lemma moveFrom_inv this other w w' :
  moveFrom this other w = Ok tt w' ->
  exists oo,
    objs w !! other = Some oo /\
    objs w' = <[other := disowned oo]> (<[this := oo]> (objs w)) /\
    mem w' = mem w.
Proof.
  intros H.
  destruct (objs w !! other) as [oo|] eqn:Ho;
    [|unfold moveFrom, mbnd, field in H; now rewrite Ho in H].
  destruct (objs w !! this) as [ot|] eqn:Ht;
    [|unfold moveFrom, mbnd, field, set_mBuffer, assign in H;
      now rewrite Ho, Ht in H].
  exists oo. split; [reflexivity|].
  destruct (decide (this = other)) as [->|Hne].
  - revert H. unfold moveFrom, mbnd, field, set_mBuffer, set_mSize,
      set_mOwnsBuffer, assign. run. intros [= <-]. run. unfold disowned.
    rewrite Ho in Ht. injection Ht as ->. now split.
  - rewrite (moveFrom_ne _ _ _ _ _ Hne Ht Ho) in H. injection H as <-.
    now split.
Qed.

(** *** Properties that every public operation maintains *)

Section Invariant.

Variable P : gmap N hidl_string -> gmap N block -> Prop.

(** What [P] has to survive: an object replaced by one that owns nothing,
    an object removed, an object made the owner of a new block, the block
    of an owner released while the owner is reset, and a move. *)
Hypothesis P_unowned : forall os m k o,
  P os m -> mOwnsBuffer o = false -> P (<[k := o]> os) m.
Hypothesis P_delete : forall os m k, P os m -> P (delete k os) m.
Hypothesis P_alloc : forall os m k b blk n,
  P os m -> m !! b = None -> from_malloc blk = true ->
  P (<[k := mkString (Addr b 0) n true]> os) (<[b := blk]> m).
Hypothesis P_release : forall os m k o b blk,
  P os m -> os !! k = Some o -> mOwnsBuffer o = true ->
  mBuffer o = Addr b 0 -> m !! b = Some blk ->
  P (<[k := sentinel]> os) (delete b m).
Hypothesis P_move : forall os m this other oo,
  P os m -> os !! other = Some oo ->
  P (<[other := disowned oo]> (<[this := oo]> os)) m.

Lemma keeps_ret {A} (a : A) : keeps P (mret a).
Proof. intros w a' w' [= <- <-]. auto. Qed.

Lemma keeps_bind {A B} (m : call A) (k : A -> call B) :
  keeps P m -> (forall a, keeps P (k a)) -> keeps P (mbnd m k).
Proof.
  intros Hm Hk w b w' H. inv_bind H. intros Hw.
  apply (Hk _ _ _ _ H). now apply (Hm _ _ _ Hstep).
Qed.

Lemma keeps_field {A} (f : hidl_string -> A) this : keeps P (field f this).
Proof. intros w a w' H. now destruct (field_inv _ _ _ _ _ H) as [-> _]. Qed.

Lemma keeps_strlen s : keeps P (strlen s).
Proof. intros w a w' H. now rewrite (strlen_inv _ _ _ _ H). Qed.

Lemma keeps_ctor this : keeps P (ctor this).
Proof.
  intros w a w' [= <- <-] Hw. cbn [objs mem set_objs]. now apply P_unowned.
Qed.

Lemma keeps_copyFrom this data size : keeps P (copyFrom this data size).
Proof.
  intros w [] w' H Hw.
  apply copyFrom_inv in H as (o & b & blk & _ & _ & Hb & Hf & -> & ->).
  now apply P_alloc.
Qed.

Lemma keeps_clear this : keeps P (clear this).
Proof.
  intros w [] w' H Hw. apply clear_inv in H as (o & Ho & -> & Hm).
  destruct Hm as [->|(b & blk & Hown & Hb & Hl & ->)].
  - now apply P_unowned.
  - now apply (P_release _ _ _ o b blk).
Qed.

Lemma keeps_moveFrom this other : keeps P (moveFrom this other).
Proof.
  intros w [] w' H Hw. apply moveFrom_inv in H as (oo & Ho & -> & ->).
  now apply P_move.
Qed.

Lemma keeps_dtor this : keeps P (dtor this).
Proof.
  apply keeps_bind; [apply keeps_clear|]. intros _.
  intros w a w' [= <- <-] Hw. cbn [objs mem set_objs]. now apply P_delete.
Qed.

Lemma keeps_setToExternal this data size : keeps P (setToExternal this data size).
Proof.
  intros w [] w' H Hw. unfold setToExternal in H.
  inv_bind H. destruct a. apply size_check_inv in Hstep as [-> _].
  inv_bind H. destruct a. apply keeps_clear in Hstep. specialize (Hstep Hw).
  unfold set_mBuffer, set_mSize, set_mOwnsBuffer in H.
  apply assign3_inv in H as (o & _ & -> & ->). now apply P_unowned.
Qed.

Lemma keeps_copy_cstr this s :
  keeps P (if ptr_eqb s nullptr then mret tt
           else let* n := strlen s in copyFrom this s n).
Proof.
  destruct (ptr_eqb s nullptr); [apply keeps_ret|].
  apply keeps_bind; [apply keeps_strlen | intros; apply keeps_copyFrom].
Qed.

Lemma keeps_copy_of this other :
  keeps P (let* p := c_str other in
           let* n := size other in copyFrom this p n).
Proof.
  apply keeps_bind; [apply keeps_field|]. intros p.
  apply keeps_bind; [apply keeps_field | intros; apply keeps_copyFrom].
Qed.

Lemma keeps_exec o : keeps P (exec o).
Proof.
  destruct o; cbn [exec].
  - apply keeps_ctor.
  - apply keeps_bind; [apply keeps_ctor | intros; apply keeps_copy_cstr].
  - apply keeps_bind; [apply keeps_ctor | intros; apply keeps_copyFrom].
  - apply keeps_bind; [apply keeps_ctor | intros; apply keeps_copy_of].
  - apply keeps_bind; [apply keeps_ctor | intros; apply keeps_copyFrom].
  - apply keeps_bind; [apply keeps_ctor | intros; apply keeps_moveFrom].
  - unfold assign_move. destruct (negb _); [|apply keeps_ret].
    apply keeps_bind; [apply keeps_clear | intros; apply keeps_moveFrom].
  - unfold assign_copy. destruct (negb _); [|apply keeps_ret].
    apply keeps_bind; [apply keeps_clear | intros; apply keeps_copy_of].
  - apply keeps_bind; [apply keeps_clear | intros; apply keeps_copy_cstr].
  - apply keeps_bind; [apply keeps_clear | intros; apply keeps_copyFrom].
  - apply keeps_clear.
  - apply keeps_setToExternal.
  - apply keeps_dtor.
Qed.

Lemma keeps_exec_all l : keeps P (exec_all l).
Proof.
  induction l as [|o l IH]; [apply keeps_ret|].
  apply keeps_bind; [apply keeps_exec | intros; exact IH].
Qed.

(** A property that holds of no objects at all holds in every reachable
    world. *)
Lemma reachable_keeps w :
  (forall m, P ∅ m) -> reachable w -> P (objs w) (mem w).
Proof.
  intros P0 (w0 & l & H0 & H). apply (keeps_exec_all l _ _ _ H).
  rewrite H0. apply P0.
Qed.

End Invariant.

(** The literal is never owned. *)
Lemma reachable_literal_unowned w :
  reachable w -> literal_unowned (objs w) (mem w).
Proof.
  apply reachable_keeps; unfold literal_unowned.
  - intros os m k o H Ho this o'. destruct (decide (this = k)) as [->|Hne].
    + rewrite lookup_insert_eq. now intros [= <-].
    + rewrite lookup_insert_ne by congruence. apply H.
  - intros os m k H this o. destruct (decide (this = k)) as [->|Hne].
    + now rewrite lookup_delete_eq.
    + rewrite lookup_delete_ne by congruence. apply H.
  - intros os m k b blk n H _ _ this o. destruct (decide (this = k)) as [->|Hne].
    + rewrite lookup_insert_eq. now intros [= <-].
    + rewrite lookup_insert_ne by congruence. apply H.
  - intros os m k o b blk H _ _ _ _ this o'.
    destruct (decide (this = k)) as [->|Hne].
    + rewrite lookup_insert_eq. now intros [= <-].
    + rewrite lookup_insert_ne by congruence. apply H.
  - intros os m this other oo H Ho t o.
    destruct (decide (t = other)) as [->|Hne].
    + rewrite lookup_insert_eq. now intros [= <-].
    + rewrite lookup_insert_ne by congruence.
      destruct (decide (t = this)) as [->|Hne'].
      * rewrite lookup_insert_eq. intros [= <-]. apply (H _ _ Ho).
      * rewrite lookup_insert_ne by congruence. apply H.
  - intros m this o. now rewrite lookup_empty.
Qed.

(** Looking an address up in a map that was just updated at [k]. *)
Ltac at_key t k :=
  destruct (decide (t = k)) as [->|?];
  [ rewrite ?lookup_insert_eq, ?lookup_delete_eq
  | rewrite ?(lookup_insert_ne _ k t), ?(lookup_delete_ne _ k t) by congruence ].

(** Owned buffers are live allocations, each with one owner. *)
Lemma reachable_well_owned w : reachable w -> well_owned (objs w) (mem w).
Proof.
  apply reachable_keeps; unfold well_owned.
  - (* an object replaced by one that owns nothing *)
    intros os m k o [H1 H2] Ho. split.
    + intros t o'. at_key t k; [intros [= <-]; congruence | apply H1].
    + intros t1 t2 o1 o2 Hne. at_key t1 k; [intros [= <-]; congruence|].
      at_key t2 k; [intros _ [= <-]; congruence|]. now apply H2.
  - (* an object removed *)
    intros os m k [H1 H2]. split.
    + intros t o'. at_key t k; [discriminate | apply H1].
    + intros t1 t2 o1 o2 Hne. at_key t1 k; [discriminate|].
      at_key t2 k; [discriminate|]. now apply H2.
  - (* a new block and its owner *)
    intros os m k b blk n [H1 H2] Hb Hf.
    assert (Hold : forall t o, os !! t = Some o -> mOwnsBuffer o = true ->
                     mBuffer o <> Addr b 0).
    { intros t o Ht Hown E. destruct (H1 t o Ht Hown) as (b' & blk' & E' & Hl & _).
      rewrite E in E'. injection E' as <-. congruence. }
    split.
    + intros t o. at_key t k.
      * intros [= <-] _. exists b, blk. now rewrite lookup_insert_eq.
      * intros Ht Hown. destruct (H1 t o Ht Hown) as (b' & blk' & E' & Hl & Hfm).
        exists b', blk'. rewrite lookup_insert_ne; [auto|]. congruence.
    + intros t1 t2 o1 o2 Hne. at_key t1 k.
      * at_key t2 k; [congruence|]. intros [= <-] Ht2 _ Hown2 E.
        now apply (Hold t2 o2 Ht2 Hown2).
      * at_key t2 k; [|now apply H2]. intros Ht1 [= <-] Hown1 _ E.
        now apply (Hold t1 o1 Ht1 Hown1).
  - (* an owner reset and its block released *)
    intros os m k o b blk [H1 H2] Hk Hown Hbuf Hl. split.
    + intros t o'. at_key t k; [intros [= <-]; discriminate|].
      intros Ht Hown'. destruct (H1 t o' Ht Hown') as (b' & blk' & E' & Hl' & Hfm).
      exists b', blk'. rewrite lookup_delete_ne; [auto|].
      intros <-. apply (H2 t k o' o); try assumption. congruence.
    + intros t1 t2 o1 o2 Hne. at_key t1 k; [intros [= <-]; discriminate|].
      at_key t2 k; [intros _ [= <-]; discriminate|]. now apply H2.
  - (* a move *)
    intros os m this other oo [H1 H2] Ho. split.
    + intros t o. at_key t other; [intros [= <-]; discriminate|].
      at_key t this; [intros [= <-]; apply (H1 other _ Ho) | apply H1].
    + intros t1 t2 o1 o2 Hne.
      at_key t1 other; [intros [= <-]; discriminate|].
      at_key t2 other; [intros _ [= <-]; discriminate|].
      at_key t1 this.
      * at_key t2 this; [congruence|]. intros [= <-] Ht2.
        apply (H2 other t2); auto.
      * at_key t2 this; [|now apply H2]. intros Ht1 [= <-].
        apply (H2 t1 other); auto.
  - intros m. split.
    + intros t o. now rewrite lookup_empty.
    + intros t1 t2 o1 o2 _. now rewrite lookup_empty.
Qed.

Lemma reachable_releasable w this o :
  reachable w -> objs w !! this = Some o -> releasable w o.
Proof.
  intros Hw Ho Hown. destruct (reachable_well_owned w Hw) as [H1 _].
  now apply (H1 this o).
Qed.

Lemma exec_all_app l1 l2 w w1 :
  exec_all l1 w = Ok tt w1 -> exec_all (l1 ++ l2) w = exec_all l2 w1.
Proof.
  revert w. induction l1 as [|o l1 IH]; intros w H.
  - now injection H as <-.
  - cbn [exec_all app] in *. inv_bind H. destruct a.
    rewrite (bind_ok _ _ _ _ _ Hstep). now apply IH.
Qed.

Lemma reachable_step w o w' :
  reachable w -> exec o w = Ok tt w' -> reachable w'.
Proof.
  intros (w0 & l & H0 & H) Ho. exists w0, (l ++ [o]). split; [assumption|].
  rewrite (exec_all_app _ _ _ _ H). cbn [exec_all].
  now rewrite (bind_ok _ _ _ _ _ Ho).
Qed.

(** *** setToExternal *)

(** The sample worlds are reached by constructing [x], and then [y]. *)
Lemma sample_x_reachable : reachable Sample.w_x.
Proof.
  exists Sample.w_hello, [CtorCstr 100 (Addr 7 0)]. split; reflexivity.
Defined.

Lemma sample_xy_reachable : reachable Sample.w_xy.
Proof.
  exists Sample.w_hello, [CtorCstr 100 (Addr 7 0); Ctor 200].
  split; reflexivity.
Defined.

(** C8.  For every hidl_string of a reachable world: [setToExternal(p, n)]
    with [n] at most 2^32-1 clears first, releasing the old buffer exactly
    when it was owned, and leaves the object holding [p] with length [n]
    and ownership false; [clear()] or the destructor run afterwards call
    [free] on nothing and leave the memory, [p]'s block included, as it is.
    With [n] above 2^32-1 the call is fatal. *)
Theorem setToExternal_borrows (w : world) (this : N) (o : hidl_string)
    (p : ptr) (n : N) :
  reachable w ->
  objs w !! this = Some o ->
  (n <= UINT32_MAX ->
   exists w1,
     setToExternal this p n w = Ok tt w1 /\
     objs w1 !! this = Some (mkString p n false) /\
     frees (trace w1) =
       frees (trace w) ++ (if mOwnsBuffer o then [mBuffer o] else []) /\
     mem w1 =
       (if mOwnsBuffer o then delete (block_of (mBuffer o)) (mem w) else mem w) /\
     (exists w2, clear this w1 = Ok tt w2 /\
                 frees (trace w2) = frees (trace w1) /\ mem w2 = mem w1) /\
     (exists w3, dtor this w1 = Ok tt w3 /\
                 frees (trace w3) = frees (trace w1) /\ mem w3 = mem w1)) /\
  (UINT32_MAX < n -> exists w1, setToExternal this p n w = Abort w1).
Proof.
  intros Hw Ho. pose proof (reachable_releasable _ _ _ Hw Ho) as Hr. split.
  - intros Hn. eexists. split; [apply (setToExternal_ok _ _ _ _ _ Hn Ho Hr)|].
    set (w1 := set_objs _ _).
    assert (Ho1 : objs w1 !! this = Some (mkString p n false))
      by apply lookup_insert_eq.
    assert (Hr1 : releasable w1 (mkString p n false)) by (intros [=]).
    split; [exact Ho1|]. split; [apply released_frees|]. split.
    { subst w1. unfold released. now destruct (mOwnsBuffer o). }
    split.
    + eexists. split; [apply (clear_spec _ _ _ Ho1 Hr1)|]. now split.
    + eexists. split; [apply (dtor_spec _ _ _ Ho1 Hr1)|]. now split.
  - intros Hn. eexists. apply (setToExternal_fatal _ _ _ _ Hn).
Qed.

(** Scenario: the string that owns "hello" is pointed at the caller's
    block instead. *)
Lemma setToExternal_borrows_witness :
  exists w1,
    setToExternal 100 (Addr 7 0) 5 Sample.w_x = Ok tt w1 /\
    objs w1 !! 100 = Some (mkString (Addr 7 0) 5 false) /\
    frees (trace w1) = [Addr 8 0].
Proof.
  destruct (setToExternal_borrows Sample.w_x 100 Sample.x_obj (Addr 7 0) 5)
    as [H _].
  - apply sample_x_reachable.
  - reflexivity.
  - destruct H as (w1 & H1 & H2 & H3 & _).
    + vm_compute. discriminate.
    + exists w1. repeat split; assumption.
Defined.

(** C9.  With [n] above 2^32-1, [setToExternal] stops at its size check:
    the process aborts with the fatal record as the only thing written,
    nothing is released, and every object (the receiver included) and
    every block is as before the call. *)
Theorem setToExternal_overflow_keeps_state (w : world) (this : N)
    (data : ptr) (n : N) :
  UINT32_MAX < n ->
  exists w',
    setToExternal this data n w = Abort w' /\
    objs w' !! this = objs w !! this /\
    objs w' = objs w /\ mem w' = mem w /\
    trace w' = trace w ++ [EvLogFatal "string size can't exceed 2^32 bytes."].
Proof.
  intros Hn. eexists. split; [apply (setToExternal_fatal _ _ _ _ Hn)|].
  repeat split.
Qed.

(** Scenario: the string that owns "hello" is asked to borrow 2^32
    bytes. *)
Lemma setToExternal_overflow_keeps_state_witness :
  exists w',
    setToExternal 100 (Addr 7 0) 4294967296 Sample.w_x = Abort w' /\
    objs w' !! 100 = Some Sample.x_obj.
Proof.
  destruct (setToExternal_overflow_keeps_state Sample.w_x 100 (Addr 7 0)
              4294967296) as (w' & H1 & H2 & _).
  - reflexivity.
  - exists w'. split; [exact H1|]. rewrite H2. reflexivity.
Defined.

(** *** Moves, in reachable worlds *)

(** C1 (as amended).  In a reachable world, moving [x], which holds the
    bytes [B], into another object [y], by the move constructor or by move
    assignment (when [x]'s buffer is no part of a block that [y] owns): [x]
    keeps its buffer pointer and its length, so that [x.size()] is still
    [|B|] and [x.empty()] holds only for an empty [B], and only its
    ownership flag becomes false; [y] has the pointer, length and
    ownership flag [x] had and converts to exactly [B].  Moving an object
    into itself changes nothing. *)
Theorem move_keeps_source_view (w : world) (x y : N) (ox : hidl_string)
    (B : list byte) :
  reachable w ->
  x <> y ->
  objs w !! x = Some ox ->
  to_std_string x w = Ok B w ->
  (exists w', ctor_move y x w = Ok tt w' /\ transferred x y ox B w') /\
  (forall oy, objs w !! y = Some oy -> apart oy ox ->
     exists w', assign_move y x w = Ok tt w' /\ transferred x y ox B w') /\
  assign_move x x w = Ok tt w.
Proof.
  intros Hw Hne Hx HB.
  pose proof (to_std_string_inv _ _ _ _ Hx HB) as Hld.
  split; [|split].
  - eexists. split; [apply (ctor_move_spec _ _ _ _ Hne Hx)|].
    now apply (transferred_moved x y ox B w w).
  - intros oy Hy Ha. pose proof (reachable_releasable _ _ _ Hw Hy) as Hr.
    eexists. split; [apply (assign_move_spec _ _ _ _ _ Hne Hx Hy Hr)|].
    apply (transferred_moved x y ox B w); try assumption.
    apply load_released; try assumption.
    intros Hown. now apply (apart_block oy ox w).
  - apply assign_move_self.
Qed.

(** Scenario: ["hello"] moved from [x] at 100 into a new [y] at 200, or
    into the default-constructed [y] there. *)
Lemma move_keeps_source_view_witness :
  (exists w', ctor_move 200 100 Sample.w_x = Ok tt w' /\
              transferred 100 200 Sample.x_obj Sample.hello w') /\
  (exists w', assign_move 200 100 Sample.w_xy = Ok tt w' /\
              transferred 100 200 Sample.x_obj Sample.hello w').
Proof.
  split.
  - apply (move_keeps_source_view Sample.w_x 100 200 Sample.x_obj Sample.hello);
      [apply sample_x_reachable | discriminate | reflexivity | reflexivity].
  - destruct (move_keeps_source_view Sample.w_xy 100 200 Sample.x_obj
                Sample.hello) as (_ & H & _);
      [apply sample_xy_reachable | discriminate | reflexivity | reflexivity |].
    apply (H sentinel); [reflexivity | intros [=]].
Defined.

(** C1 as stated fails: after either move of a five-byte string, in a
    reachable world, the source still answers [size() == 5] and
    [empty() == false]. *)
Lemma move_source_not_emptied :
  ~ (forall (w w' : world) (x y : N) (B : list byte),
       reachable w -> x <> y -> to_std_string x w = Ok B w ->
       ctor_move y x w = Ok tt w' ->
       size x w' = Ok 0 w' /\ empty x w' = Ok true w') /\
  ~ (forall (w w' : world) (x y : N) (B : list byte),
       reachable w -> x <> y -> to_std_string x w = Ok B w ->
       assign_move y x w = Ok tt w' ->
       size x w' = Ok 0 w' /\ empty x w' = Ok true w').
Proof.
  split; intros H.
  - destruct (H Sample.w_x (after (ctor_move 200 100) Sample.w_x) 100 200
                Sample.hello) as [H1 _];
      [apply sample_x_reachable | discriminate | reflexivity | reflexivity |].
    vm_compute in H1. discriminate.
  - destruct (H Sample.w_xy (after (assign_move 200 100) Sample.w_xy) 100 200
                Sample.hello) as [H1 _];
      [apply sample_xy_reachable | discriminate | reflexivity | reflexivity |].
    vm_compute in H1. discriminate.
Qed.

Lemma releasable_released_owner w x y ox oy :
  well_owned (objs w) (mem w) -> x <> y ->
  objs w !! x = Some ox -> objs w !! y = Some oy ->
  releasable (released oy w) ox.
Proof.
  intros [H1 H2] Hne Hx Hy Hown.
  destruct (H1 x ox Hx Hown) as (b & blk & Hb & Hl & Hf).
  exists b, blk. repeat split; try assumption.
  unfold released. destruct (mOwnsBuffer oy) eqn:Hoy; [|assumption].
  cbn [mem record set_mem]. rewrite lookup_delete_ne; [assumption|].
  destruct (H1 y oy Hy Hoy) as (b' & blk' & Hb' & _).
  rewrite Hb'. cbn [block_of]. intros ->.
  apply (H2 x y ox oy Hne Hx Hy Hown Hoy). congruence.
Qed.

(** C10.  In a reachable world, after the move constructor or move
    assignment has moved [x] into another object [y]: [x] has its
    ownership flag false and its buffer pointer and length unchanged;
    [clear()] or the destructor on [x] call [free] on nothing and leave
    the memory as it is; and destroying [x] and then [y] releases the
    buffer exactly once when it was owned, and not at all otherwise. *)
Theorem moved_from_source_releases_nothing (w : world) (x y : N)
    (ox : hidl_string) :
  reachable w ->
  x <> y ->
  objs w !! x = Some ox ->
  (exists w', ctor_move y x w = Ok tt w' /\ source_inert x y ox w') /\
  (forall oy, objs w !! y = Some oy ->
     exists w', assign_move y x w = Ok tt w' /\ source_inert x y ox w').
Proof.
  intros Hw Hne Hx. split.
  - eexists. split; [apply (ctor_move_spec _ _ _ _ Hne Hx)|].
    apply source_inert_moved; [assumption|].
    apply (reachable_releasable _ _ _ Hw Hx).
  - intros oy Hy. pose proof (reachable_releasable _ _ _ Hw Hy) as Hry.
    eexists. split; [apply (assign_move_spec _ _ _ _ _ Hne Hx Hy Hry)|].
    apply source_inert_moved; [assumption|].
    apply (releasable_released_owner w x y); try assumption.
    now apply reachable_well_owned.
Qed.

(** Scenario: as above; the block of [x], number 8, is released once. *)
Lemma moved_from_source_releases_nothing_witness :
  (exists w', ctor_move 200 100 Sample.w_x = Ok tt w' /\
              source_inert 100 200 Sample.x_obj w') /\
  (exists w', assign_move 200 100 Sample.w_xy = Ok tt w' /\
              source_inert 100 200 Sample.x_obj w').
Proof.
  split.
  - apply (moved_from_source_releases_nothing Sample.w_x 100 200 Sample.x_obj);
      [apply sample_x_reachable | discriminate | reflexivity].
  - destruct (moved_from_source_releases_nothing Sample.w_xy 100 200
                Sample.x_obj) as [_ H];
      [apply sample_xy_reachable | discriminate | reflexivity |].
    apply (H sentinel). reflexivity.
Defined.

(** *** The empty sentinel *)

Lemma is_sentinel_intro this w :
  objs w !! this = Some sentinel -> is_sentinel this w.
Proof.
  intros H. unfold is_sentinel, c_str, size, empty.
  rewrite !(field_ok _ _ _ _ H). repeat split; assumption.
Qed.

(** C2 as stated fails: [hidl_string e(p)] for a non-null [p] that points
    at a zero byte is a reachable string of length zero whose buffer is a
    fresh one-byte allocation that it owns. *)
Lemma zero_length_not_sentinel :
  ~ (forall w, reachable w ->
       forall this o, objs w !! this = Some o -> mSize o = 0 ->
         mBuffer o = kEmptyString /\ mOwnsBuffer o = false).
Proof.
  intros H.
  destruct (H Sample.w_e) with (this := 100) (o := mkString (Addr 8 0) 0 true)
    as [H1 _]; try reflexivity; [|discriminate].
  exists Sample.w_hello, [CtorCstr 100 (Addr 7 5)]. split; reflexivity.
Qed.

(** C2 (as amended).  In every world reachable through the public
    operations no hidl_string owns the empty literal: a buffer pointer equal
    to it comes with ownership false.  Default construction and
    construction from a null pointer give the sentinel state (buffer
    pointer the literal, length zero, [empty()] true, ownership false) and
    [clear()] re-establishes it.  Length zero alone does not imply that state:
    construction from a pointer and the length zero leaves the object
    owning a fresh allocation. *)
Theorem sentinel_states (w : world) :
  reachable w ->
  literal_unowned (objs w) (mem w) /\
  (forall this,
      exists w', ctor this w = Ok tt w' /\ ctor_cstr this nullptr w = Ok tt w' /\
                 reachable w' /\ is_sentinel this w') /\
  (forall this o,
      objs w !! this = Some o ->
      exists w', clear this w = Ok tt w' /\ reachable w' /\ is_sentinel this w') /\
  (forall this data,
      load w data 0 = Some [] -> malloc_ok w ->
      exists w' b, ctor_buf this data 0 w = Ok tt w' /\ reachable w' /\
                   objs w' !! this = Some (mkString (Addr b 0) 0 true)).
Proof.
  intros Hw. split; [now apply reachable_literal_unowned|]. split; [|split].
  - intros this. eexists. split; [apply ctor_spec|]. split; [reflexivity|].
    split; [apply (reachable_step w (Ctor this) _ Hw); reflexivity|].
    apply is_sentinel_intro. apply lookup_insert_eq.
  - intros this o Ho. pose proof (reachable_releasable _ _ _ Hw Ho) as Hr.
    eexists. split; [apply (clear_spec _ _ _ Ho Hr)|].
    split; [apply (reachable_step w (Clear this) _ Hw), (clear_spec _ _ _ Ho Hr)|].
    apply is_sentinel_intro. apply lookup_insert_eq.
  - intros this data Hld Hm.
    assert (H0 : 0 <= UINT32_MAX) by (unfold UINT32_MAX; lia).
    pose proof (ctor_buf_ok this data 0 w [] H0 Hld Hm) as Hc.
    eexists. exists (fresh (dom (mem w))). split; [exact Hc|].
    split; [apply (reachable_step w (CtorBuf this data 0) _ Hw Hc)|].
    apply lookup_insert_eq.
Qed.

(** Scenario: in the world where [x] owns "hello", a further object is
    default-constructed and [x] is cleared. *)
Lemma sentinel_states_witness :
  literal_unowned (objs Sample.w_x) (mem Sample.w_x) /\
  (exists w', ctor 200 Sample.w_x = Ok tt w' /\ is_sentinel 200 w') /\
  (exists w', clear 100 Sample.w_x = Ok tt w' /\ is_sentinel 100 w') /\
  (exists w' b, ctor_buf 300 (Addr 7 5) 0 Sample.w_x = Ok tt w' /\
                objs w' !! 300 = Some (mkString (Addr b 0) 0 true)).
Proof.
  destruct (sentinel_states Sample.w_x) as (H1 & H2 & H3 & H4).
  - apply sample_x_reachable.
  - split; [exact H1|]. split; [|split].
    + destruct (H2 200) as (w' & Hc & _ & _ & Hs). exists w'. now split.
    + destruct (H3 100 Sample.x_obj) as (w' & Hc & _ & Hs); [reflexivity|].
      exists w'. now split.
    + destruct (H4 300 (Addr 7 5)) as (w' & b & Hc & _ & Ho).
      * reflexivity.
      * vm_compute. discriminate.
      * exists w', b. now split.
Defined.

(** *** Lengths and termination, in reachable worlds *)

Lemma malloc_inv_exact n w p w' :
  malloc n w = Ok p w' ->
  p = nullptr \/
  p = Addr (fresh (dom (mem w))) 0 /\
  objs w' = objs w /\
  mem w' = <[fresh (dom (mem w)) := mkBlock (replicate (N.to_nat n) None) true]>
             (mem w).
Proof.
  unfold malloc. destruct (oom w) as [|[|] o]; intros [= <- <-]; auto.
Qed.

Lemma write_inv_exact b off bs w w' :
  write (Addr b off) bs w = Ok tt w' ->
  exists blk,
    mem w !! b = Some blk /\
    objs w' = objs w /\
    mem w' = <[b := mkBlock (take (N.to_nat off) (cells blk) ++ (Some <$> bs) ++
                             drop (N.to_nat off + length bs) (cells blk))
                            (from_malloc blk)]> (mem w).
Proof.
  unfold write. destruct (mem w !! b) as [blk|]; [|discriminate].
  destruct (_ <=? _); [|discriminate]. intros [= <-]. eauto.
Qed.

Lemma memcpy_inv_exact dst src n w w' :
  memcpy dst src n w = Ok tt w' ->
  exists bs, load w src n = Some bs /\ write dst bs w = Ok tt w'.
Proof.
  unfold memcpy. destruct (load w src n) as [bs|]; [|discriminate]. eauto.
Qed.

(** What a successful [copyFrom] leaves in the new block. *)
Lemma copyFrom_inv_bytes this data size w w' :
  copyFrom this data size w = Ok tt w' ->
  exists o b bs,
    objs w !! this = Some o /\ mem w !! b = None /\
    N.of_nat (length bs) = size /\ size <= UINT32_MAX /\
    objs w' = <[this := mkString (Addr b 0) size true]> (objs w) /\
    mem w' = <[b := mkBlock ((Some <$> bs) ++ [Some x00]) true]> (mem w).
Proof.
  unfold copyFrom. intros H.
  inv_bind H. destruct a. apply size_check_inv in Hstep as [-> Hsz].
  rewrite size_fits_size_t in H by assumption.
  inv_bind H. apply malloc_inv_exact in Hstep as [->|(-> & E1 & M1)].
  { inv_bind H. destruct a.
    now apply memcpy_inv in Hstep as (_ & ? & ? & ? & ? & [=] & _). }
  set (b := fresh (dom (mem w))) in *.
  inv_bind H. destruct a.
  apply memcpy_inv_exact in Hstep as (bs & Hld & Hw).
  pose proof (load_length _ _ _ _ Hld) as Hlen.
  apply write_inv_exact in Hw as (blk1 & Hb1 & E2 & M2).
  rewrite M1, lookup_insert_eq in Hb1. injection Hb1 as <-.
  cbn [cells from_malloc] in M2.
  inv_bind H. destruct a. cbn [ptr_add] in Hstep. rewrite N.add_0_l in Hstep.
  apply write_inv_exact in Hstep as (blk2 & Hb2 & E3 & M3).
  rewrite M2, lookup_insert_eq in Hb2. injection Hb2 as <-.
  cbn [cells from_malloc] in M3.
  unfold set_mBuffer, set_mSize, set_mOwnsBuffer in H.
  apply assign3_inv in H as (o & Ho & Eo & Em).
  exists o, b, bs. rewrite E3, E2, E1 in Ho, Eo.
  split; [exact Ho|]. split; [apply fresh_block_not_live|].
  split; [exact Hlen|]. split; [exact Hsz|]. split.
  - rewrite Eo. cbn [mBuffer mSize mOwnsBuffer]. now rewrite size_fits_uint32.
  - rewrite Em, M3, M2, M1, !insert_insert_eq. f_equal. f_equal.
    assert (Hn : N.to_nat size = length bs) by lia. rewrite Hn.
    replace (N.to_nat (size + 1)) with (length bs + 1)%nat by lia.
    change (N.to_nat 0) with 0%nat. apply fill_block.
Qed.

(** The six methods the public operations are made of. *)
Section Methods.

Variable P : gmap N hidl_string -> gmap N block -> Prop.

Hypothesis K_ctor : forall this, keeps P (ctor this).
Hypothesis K_copyFrom : forall this data size, keeps P (copyFrom this data size).
Hypothesis K_clear : forall this, keeps P (clear this).
Hypothesis K_moveFrom : forall this other, keeps P (moveFrom this other).
Hypothesis K_setToExternal : forall this data size,
  keeps P (setToExternal this data size).
Hypothesis K_dtor : forall this, keeps P (dtor this).

Lemma methods_keep_exec o : keeps P (exec o).
Proof.
  assert (Hcs : forall this s,
    keeps P (if ptr_eqb s nullptr then mret tt
             else let* n := strlen s in copyFrom this s n)).
  { intros this s. destruct (ptr_eqb s nullptr); [apply keeps_ret|].
    apply keeps_bind; [apply keeps_strlen | intros; apply K_copyFrom]. }
  assert (Hco : forall this other,
    keeps P (let* p := c_str other in
             let* n := size other in copyFrom this p n)).
  { intros this other. apply keeps_bind; [apply keeps_field|]. intros p.
    apply keeps_bind; [apply keeps_field | intros; apply K_copyFrom]. }
  destruct o; cbn [exec].
  - apply K_ctor.
  - apply keeps_bind; [apply K_ctor | intros; apply Hcs].
  - apply keeps_bind; [apply K_ctor | intros; apply K_copyFrom].
  - apply keeps_bind; [apply K_ctor | intros; apply Hco].
  - apply keeps_bind; [apply K_ctor | intros; apply K_copyFrom].
  - apply keeps_bind; [apply K_ctor | intros; apply K_moveFrom].
  - unfold assign_move. destruct (negb _); [|apply keeps_ret].
    apply keeps_bind; [apply K_clear | intros; apply K_moveFrom].
  - unfold assign_copy. destruct (negb _); [|apply keeps_ret].
    apply keeps_bind; [apply K_clear | intros; apply Hco].
  - apply keeps_bind; [apply K_clear | intros; apply Hcs].
  - apply keeps_bind; [apply K_clear | intros; apply K_copyFrom].
  - apply K_clear.
  - apply K_setToExternal.
  - apply K_dtor.
Qed.

Lemma methods_keep_exec_all l : keeps P (exec_all l).
Proof.
  induction l as [|o l IH]; [apply keeps_ret|].
  apply keeps_bind; [apply methods_keep_exec | intros; exact IH].
Qed.

Lemma methods_keep_reachable w :
  (forall m, P ∅ m) -> reachable w -> P (objs w) (mem w).
Proof.
  intros P0 (w0 & l & H0 & H). apply (methods_keep_exec_all l _ _ _ H).
  rewrite H0. apply P0.
Qed.

End Methods.

Lemma terminated_unowned os m k o :
  terminated os m -> mOwnsBuffer o = false -> mSize o <= UINT32_MAX ->
  terminated (<[k := o]> os) m.
Proof.
  intros [H1 H2] Ho Hs. split.
  - intros t o'. at_key t k; [|apply H1]. intros [= <-].
    split; [assumption | congruence].
  - intros t1 t2 o1 o2 Hne. at_key t1 k; [intros [= <-]; congruence|].
    at_key t2 k; [intros _ [= <-]; congruence|]. now apply H2.
Qed.

Lemma terminated_delete os m k : terminated os m -> terminated (delete k os) m.
Proof.
  intros [H1 H2]. split.
  - intros t o'. at_key t k; [discriminate | apply H1].
  - intros t1 t2 o1 o2 Hne. at_key t1 k; [discriminate|].
    at_key t2 k; [discriminate|]. now apply H2.
Qed.

Lemma terminated_alloc os m k b bs n :
  terminated os m -> m !! b = None ->
  N.of_nat (length bs) = n -> n <= UINT32_MAX ->
  terminated (<[k := mkString (Addr b 0) n true]> os)
             (<[b := mkBlock ((Some <$> bs) ++ [Some x00]) true]> m).
Proof.
  intros [H1 H2] Hb Hlen Hn.
  assert (Hold : forall t o, os !! t = Some o -> mOwnsBuffer o = true ->
                   mBuffer o <> Addr b 0).
  { intros t o Ht Hown E. destruct (H1 t o Ht) as [_ H].
    destruct (H Hown) as (b' & bs' & E' & Hl & _).
    rewrite E in E'. injection E' as <-. congruence. }
  split.
  - intros t o. at_key t k.
    + intros [= <-]. split; [assumption|]. intros _. exists b, bs.
      now rewrite lookup_insert_eq.
    + intros Ht. destruct (H1 t o Ht) as [Hs H]. split; [assumption|].
      intros Hown. destruct (H Hown) as (b' & bs' & E' & Hl & Hlen').
      exists b', bs'. rewrite lookup_insert_ne; [auto|]. congruence.
  - intros t1 t2 o1 o2 Hne. at_key t1 k.
    + at_key t2 k; [congruence|]. intros [= <-] Ht2 _ Hown2 E.
      now apply (Hold t2 o2 Ht2 Hown2).
    + at_key t2 k; [|now apply H2]. intros Ht1 [= <-] Hown1 _ E.
      now apply (Hold t1 o1 Ht1 Hown1).
Qed.

Lemma terminated_release os m k o b :
  terminated os m -> os !! k = Some o -> mOwnsBuffer o = true ->
  mBuffer o = Addr b 0 ->
  terminated (<[k := sentinel]> os) (delete b m).
Proof.
  intros [H1 H2] Hk Hown Hbuf. split.
  - intros t o'. at_key t k.
    + intros [= <-]. split; [unfold UINT32_MAX; cbn; lia | discriminate].
    + intros Ht. destruct (H1 t o' Ht) as [Hs H]. split; [assumption|].
      intros Hown'. destruct (H Hown') as (b' & bs' & E' & Hl & Hlen').
      exists b', bs'. rewrite lookup_delete_ne; [auto|].
      intros <-. apply (H2 t k o' o); try assumption. congruence.
  - intros t1 t2 o1 o2 Hne. at_key t1 k; [intros [= <-]; discriminate|].
    at_key t2 k; [intros _ [= <-]; discriminate|]. now apply H2.
Qed.

Lemma terminated_move os m this other oo :
  terminated os m -> os !! other = Some oo ->
  terminated (<[other := disowned oo]> (<[this := oo]> os)) m.
Proof.
  intros [H1 H2] Ho. split.
  - intros t o. at_key t other.
    + intros [= <-]. split; [apply (H1 other oo Ho) | discriminate].
    + at_key t this; [intros [= <-]; apply (H1 other _ Ho) | apply H1].
  - intros t1 t2 o1 o2 Hne.
    at_key t1 other; [intros [= <-]; discriminate|].
    at_key t2 other; [intros _ [= <-]; discriminate|].
    at_key t1 this.
    + at_key t2 this; [congruence|]. intros [= <-] Ht2.
      apply (H2 other t2); auto.
    + at_key t2 this; [|now apply H2]. intros Ht1 [= <-].
      apply (H2 t1 other); auto.
Qed.

Lemma zero_fits : 0 <= UINT32_MAX.
Proof. unfold UINT32_MAX. lia. Qed.

Lemma keeps_terminated_clear this : keeps terminated (clear this).
Proof.
  intros w [] w' H Hw. apply clear_inv in H as (o & Ho & -> & Hm).
  destruct Hm as [->|(b & blk & Hown & Hb & Hl & ->)].
  - apply terminated_unowned; [assumption | reflexivity | apply zero_fits].
  - now apply (terminated_release _ _ _ o b).
Qed.

Lemma reachable_terminated w : reachable w -> terminated (objs w) (mem w).
Proof.
  apply methods_keep_reachable.
  - intros this w0 [] w' [= <-] Hw. cbn [objs mem set_objs].
    apply terminated_unowned; [assumption | reflexivity | apply zero_fits].
  - intros this data size w0 [] w' H Hw.
    apply copyFrom_inv_bytes in H as (o & b & bs & _ & Hb & Hlen & Hn & -> & ->).
    now apply terminated_alloc.
  - apply keeps_terminated_clear.
  - intros this other w0 [] w' H Hw.
    apply moveFrom_inv in H as (oo & Ho & -> & ->). now apply terminated_move.
  - intros this data size w0 [] w' H Hw. unfold setToExternal in H.
    inv_bind H. destruct a. apply size_check_inv in Hstep as [-> Hn].
    inv_bind H. destruct a. apply keeps_terminated_clear in Hstep.
    specialize (Hstep Hw).
    unfold set_mBuffer, set_mSize, set_mOwnsBuffer in H.
    apply assign3_inv in H as (o & _ & -> & ->).
    apply terminated_unowned; [assumption | reflexivity|].
    cbn [mSize]. now rewrite size_fits_uint32.
  - intros this. apply keeps_bind; [apply keeps_terminated_clear|]. intros _.
    intros w0 a w' [= <- <-] Hw. cbn [objs mem set_objs].
    now apply terminated_delete.
  - intros m. split.
    + intros t o. now rewrite lookup_empty.
    + intros t1 t2 o1 o2 _. now rewrite lookup_empty.
Qed.

(** X6.  In every world reachable through the public operations, the
    length of a hidl_string never exceeds 2^32-1, and a hidl_string that
    owns its buffer is a well-formed C string: the buffer holds exactly
    [size()] written bytes followed by a zero byte, so that the conversion
    to a host string is defined and returns [size()] bytes. *)
Theorem owned_strings_are_terminated (w : world) (this : N) (o : hidl_string) :
  reachable w ->
  objs w !! this = Some o ->
  mSize o <= UINT32_MAX /\
  (mOwnsBuffer o = true ->
   exists B,
     to_std_string this w = Ok B w /\
     N.of_nat (length B) = mSize o /\
     load w (mBuffer o) (mSize o + 1) = Some (B ++ [x00]) /\
     load w (ptr_add (mBuffer o) (mSize o)) 1 = Some [x00]).
Proof.
  intros Hw Ho. destruct (reachable_terminated w Hw) as [H1 _].
  destruct (H1 this o Ho) as [Hs H]. split; [exact Hs|].
  intros Hown. destruct (H Hown) as (b & bs & Hb & Hl & Hlen).
  destruct (load_whole w b bs true (mSize o) Hl (eq_sym Hlen)) as [L1 L2].
  exists bs. rewrite Hb. repeat split; try assumption.
  - unfold to_std_string, mbnd. rewrite !(field_ok _ _ _ _ Ho).
    rewrite Hb. now rewrite L2.
  - cbn [ptr_add]. rewrite N.add_0_l. unfold load, cells_at. rewrite Hl.
    cbn [cells]. rewrite length_app, length_fmap. cbn [length].
    assert (E : (mSize o <=? N.of_nat (length bs + 1)) = true)
      by (apply N.leb_le; lia).
    rewrite E, <- Hlen, Nat2N.id, drop_app_length' by now rewrite length_fmap.
    reflexivity.
Qed.

(** Scenario: the string that owns "hello". *)
Lemma owned_strings_are_terminated_witness :
  exists B,
    to_std_string 100 Sample.w_x = Ok B Sample.w_x /\
    load Sample.w_x (Addr 8 0) (5 + 1) = Some (B ++ [x00]).
Proof.
  destruct (owned_strings_are_terminated Sample.w_x 100 Sample.x_obj)
    as [_ H]; [apply sample_x_reachable | reflexivity |].
  destruct (H eq_refl) as (B & H1 & _ & H3 & _). exists B. now split.
Defined.

(** *** Copies *)

Lemma copyFrom_with_copy this data w o bs :
  objs w !! this = Some o ->
  N.of_nat (length bs) <= UINT32_MAX ->
  load w data (N.of_nat (length bs)) = Some bs ->
  malloc_ok w ->
  copyFrom this data (N.of_nat (length bs)) w = Ok tt (with_copy this bs w).
Proof. intros Ho Hn Hld Hm. apply (copyFrom_ok _ _ _ _ _ _ Ho Hn Hld Hm). Qed.

Lemma to_std_string_ok this w o bs :
  objs w !! this = Some o -> load w (mBuffer o) (mSize o) = Some bs ->
  to_std_string this w = Ok bs w.
Proof.
  intros Ho Hld. unfold to_std_string, mbnd. rewrite !(field_ok _ _ _ _ Ho).
  now rewrite Hld.
Qed.

Lemma load_not_fresh w p n bs off :
  load w p n = Some bs -> p <> Addr (fresh (dom (mem w))) off.
Proof.
  intros H ->. destruct (load_live _ _ _ _ _ off H eq_refl) as [x Hx].
  now rewrite fresh_block_not_live in Hx.
Qed.

Lemma copied_with_copy x y ox B w0 :
  x <> y ->
  objs w0 !! x = Some ox ->
  releasable w0 ox ->
  load w0 (mBuffer ox) (mSize ox) = Some B ->
  copied x y ox B (with_copy y B w0).
Proof.
  intros Hne Hx Hr Hld. set (b := fresh (dom (mem w0))).
  set (yo := mkString (Addr b 0) (N.of_nat (length B)) true).
  set (w' := with_copy y B w0).
  assert (Hnb : forall off, mBuffer ox <> Addr b off)
    by (intros off; apply (load_not_fresh _ _ _ _ off Hld)).
  assert (Hy' : objs w' !! y = Some yo) by apply lookup_insert_eq.
  assert (Hx' : objs w' !! x = Some ox)
    by (subst w'; unfold with_copy; run; reflexivity).
  assert (Hb' : mem w' !! b = Some (mkBlock ((Some <$> B) ++ [Some x00]) true))
    by apply lookup_insert_eq.
  assert (Hldx : load w' (mBuffer ox) (mSize ox) = Some B).
  { rewrite <- (load_fresh_frame w0 _ _ _
                 (mkBlock ((Some <$> B) ++ [Some x00]) true) Hld).
    now apply load_ext. }
  assert (Hrx : releasable w' ox).
  { intros Hown. destruct (Hr Hown) as (bx & blk & Hbx & Hl & Hf).
    exists bx, blk. repeat split; try assumption.
    subst w'. unfold with_copy. run. rewrite lookup_insert_ne; [assumption|].
    intros E. apply (Hnb 0). rewrite Hbx. f_equal. symmetry. exact E. }
  assert (Hry : releasable w' yo) by (intros _; exists b; eauto).
  destruct (load_whole w' b B true _ Hb' eq_refl) as [_ Hldy].
  exists b. split; [exact Hy'|]. split; [exact Hnb|]. split; [exact Hx'|].
  split; [apply (to_std_string_ok _ _ _ _ Hx' Hldx)|].
  split; [apply (to_std_string_ok _ _ _ _ Hy' Hldy)|]. split.
  - eexists. split; [apply (clear_spec _ _ _ Hx' Hrx)|].
    apply (to_std_string_ok _ _ yo);
      [run; rewrite released_objs; run; reflexivity|].
    assert (Hl2 : load (released ox w') (Addr b 0) (N.of_nat (length B)) = Some B).
    { apply load_released; [assumption | | exact Hldy].
      intros Hown off E. destruct (Hr Hown) as (bx & blk & Hbx & _).
      rewrite Hbx in E. cbn [block_of] in E. injection E as <- _.
      now apply (Hnb 0). }
    rewrite <- Hl2. apply load_ext. reflexivity.
  - eexists. split; [apply (clear_spec _ _ _ Hy' Hry)|].
    apply (to_std_string_ok _ _ ox); [run; rewrite released_objs; run;
                                       reflexivity|].
    apply load_released; [assumption | | ].
    + intros _ off. cbn [mBuffer block_of yo]. apply Hnb.
    + rewrite <- Hldx. apply load_ext. reflexivity.
Qed.

Lemma released_oom o w : oom (released o w) = oom w.
Proof. unfold released. now destruct (mOwnsBuffer o). Qed.

Lemma string_assign_copy_self x w : assign_copy x x w = Ok tt w.
Proof. unfold assign_copy. now rewrite N.eqb_refl. Qed.

(** Reading [x] and copying its bytes into [y], in a world [w0] where [y]
    already is in its empty state. *)
Lemma copy_of_ok x y ox B w0 :
  x <> y ->
  objs w0 !! x = Some ox -> objs w0 !! y = Some sentinel ->
  mSize ox <= UINT32_MAX ->
  load w0 (mBuffer ox) (mSize ox) = Some B ->
  malloc_ok w0 ->
  (let* p := c_str x in let* n := size x in copyFrom y p n) w0 =
    Ok tt (with_copy y B w0).
Proof.
  intros Hne Hx Hy Hs Hld Hm.
  pose proof (load_length _ _ _ _ Hld) as Hlen.
  unfold c_str, size.
  rewrite (bind_ok _ _ _ _ _ (field_ok mBuffer _ _ _ Hx)).
  rewrite (bind_ok _ _ _ _ _ (field_ok mSize _ _ _ Hx)).
  rewrite <- Hlen in *. now apply (copyFrom_with_copy y _ w0 sentinel B).
Qed.

(** X7.  A copy is deep.  In a reachable world, copying [x], which holds
    the bytes [B], into another object [y], by the copy constructor or by
    copy assignment (when [x]'s buffer is no part of a block that [y]
    owns), succeeds when the allocation does and gives [y] a buffer of its
    own, at an address that is not [x]'s, with the same bytes and length;
    [x] is unchanged; clearing [x] afterwards leaves [y] converting to
    [B], and clearing [y] leaves [x] converting to [B].  Copy assignment
    releases what [y] owned before.  Assigning an object to itself changes
    nothing. *)
Theorem copy_is_deep (w : world) (x y : N) (ox : hidl_string) (B : list byte) :
  reachable w ->
  x <> y ->
  objs w !! x = Some ox ->
  to_std_string x w = Ok B w ->
  malloc_ok w ->
  (exists w', ctor_copy y x w = Ok tt w' /\ copied x y ox B w') /\
  (forall oy, objs w !! y = Some oy -> apart oy ox ->
     exists w',
       assign_copy y x w = Ok tt w' /\ copied x y ox B w' /\
       frees (trace w') =
         frees (trace w) ++ (if mOwnsBuffer oy then [mBuffer oy] else [])) /\
  assign_copy x x w = Ok tt w.
Proof.
  intros Hw Hne Hx HB Hm.
  pose proof (to_std_string_inv _ _ _ _ Hx HB) as Hld.
  destruct (reachable_terminated w Hw) as [H1 _].
  destruct (H1 x ox Hx) as [Hs _].
  pose proof (reachable_releasable _ _ _ Hw Hx) as Hrx.
  split; [|split].
  - set (w0 := set_objs <[y := sentinel]> w).
    assert (Hx0 : objs w0 !! x = Some ox) by (subst w0; run; reflexivity).
    assert (Hy0 : objs w0 !! y = Some sentinel) by apply lookup_insert_eq.
    assert (Hld0 : load w0 (mBuffer ox) (mSize ox) = Some B)
      by (rewrite <- Hld; now apply load_ext).
    exists (with_copy y B w0). split.
    + unfold ctor_copy. rewrite (bind_ok _ _ _ _ _ (ctor_spec y w)).
      now apply (copy_of_ok x y ox B w0).
    + apply copied_with_copy; assumption.
  - intros oy Hy Ha. pose proof (reachable_releasable _ _ _ Hw Hy) as Hry.
    set (w0 := set_objs <[y := sentinel]> (released oy w)).
    assert (Hx0 : objs w0 !! x = Some ox)
      by (subst w0; run; rewrite released_objs; run; reflexivity).
    assert (Hy0 : objs w0 !! y = Some sentinel) by apply lookup_insert_eq.
    assert (Hld0 : load w0 (mBuffer ox) (mSize ox) = Some B).
    { assert (L : load (released oy w) (mBuffer ox) (mSize ox) = Some B).
      { apply load_released; try assumption.
        intros Hown. now apply (apart_block oy ox w). }
      rewrite <- L. now apply load_ext. }
    assert (Hm0 : malloc_ok w0)
      by (unfold malloc_ok; subst w0; cbn [oom set_objs];
          now rewrite released_oom).
    exists (with_copy y B w0). split; [|split].
    + unfold assign_copy.
      assert (E : (y =? x) = false) by (apply N.eqb_neq; congruence).
      rewrite E. cbn [negb].
      rewrite (bind_ok _ _ _ _ _ (clear_spec _ _ _ Hy Hry)).
      now apply (copy_of_ok x y ox B w0).
    + apply copied_with_copy; try assumption.
      apply (releasable_ext (released oy w)); [reflexivity|].
      apply (releasable_released_owner w x y); try assumption.
      now apply reachable_well_owned.
    + unfold with_copy. cbn [trace]. rewrite frees_app. cbn [frees omap].
      rewrite app_nil_r. subst w0. cbn [trace set_objs].
      apply released_frees.
  - apply string_assign_copy_self.
Qed.

(** Scenario: "hello" is copied from [x] at 100 into a new [y] at 200,
    and copy-assigned to the default-constructed [y] there. *)
Lemma copy_is_deep_witness :
  (exists w', ctor_copy 200 100 Sample.w_x = Ok tt w' /\
              copied 100 200 Sample.x_obj Sample.hello w') /\
  (exists w', assign_copy 200 100 Sample.w_xy = Ok tt w' /\
              copied 100 200 Sample.x_obj Sample.hello w').
Proof.
  split.
  - apply (copy_is_deep Sample.w_x 100 200 Sample.x_obj Sample.hello);
      [apply sample_x_reachable | discriminate | reflexivity | reflexivity
      | vm_compute; discriminate].
  - destruct (copy_is_deep Sample.w_xy 100 200 Sample.x_obj Sample.hello)
      as (_ & H & _);
      [apply sample_xy_reachable | discriminate | reflexivity | reflexivity
      | vm_compute; discriminate |].
    destruct (H sentinel) as (w' & H1 & H2 & _); [reflexivity | intros [=] |].
    exists w'. now split.
Defined.

(** *** C strings *)

Lemma find_nul_c_string (B : list byte) rest :
  Forall (fun b => b <> x00) B ->
  find_nul ((Some <$> B) ++ Some x00 :: rest) = Some (N.of_nat (length B)).
Proof.
  induction 1 as [|b B Hb _ IH]; [reflexivity|].
  cbn [fmap list_fmap app find_nul length]. fold (fmap (M := list) (@Some byte) B).
  destruct (Byte.eqb b x00) eqn:E; [now apply byte_dec_bl in E|].
  rewrite IH. f_equal. lia.
Qed.

Lemma c_string_ext w w' s B :
  cells_at w' s = cells_at w s -> c_string w s B -> c_string w' s B.
Proof. intros E [HB (rest & Hc)]. split; [assumption|]. exists rest. congruence. Qed.

Lemma c_string_strlen w s B :
  c_string w s B -> strlen s w = Ok (N.of_nat (length B)) w.
Proof.
  intros [HB (rest & Hc)]. unfold strlen.
  now rewrite Hc, (find_nul_c_string B rest HB).
Qed.

Lemma c_string_load w s B :
  c_string w s B -> load w s (N.of_nat (length B)) = Some B.
Proof.
  intros [_ (rest & Hc)]. unfold load. rewrite Hc.
  assert (E : (N.of_nat (length B) <=?
               N.of_nat (length ((Some <$> B) ++ Some x00 :: rest))) = true).
  { apply N.leb_le. rewrite length_app, length_fmap. lia. }
  rewrite E, Nat2N.id, take_app_length' by now rewrite length_fmap.
  apply written_Some.
Qed.

Lemma c_string_nonnull w s B : c_string w s B -> ptr_eqb s nullptr = false.
Proof. intros [_ (rest & Hc)]. now destruct s. Qed.

Lemma with_copy_holds this B w : holds this B (with_copy this B w).
Proof.
  set (w' := with_copy this B w). set (b := fresh (dom (mem w))).
  assert (Ho : objs w' !! this =
               Some (mkString (Addr b 0) (N.of_nat (length B)) true))
    by apply lookup_insert_eq.
  assert (Hb : mem w' !! b = Some (mkBlock ((Some <$> B) ++ [Some x00]) true))
    by apply lookup_insert_eq.
  destruct (load_whole w' b B true _ Hb eq_refl) as [_ Hld].
  split.
  - unfold size. now rewrite (field_ok _ _ _ _ Ho).
  - now apply (to_std_string_ok _ _ _ _ Ho).
Qed.

(** Measuring the C string at [s] and copying it into the object at
    [this]. *)
Lemma copy_cstr_ok this s B w0 o :
  objs w0 !! this = Some o ->
  c_string w0 s B ->
  N.of_nat (length B) <= UINT32_MAX ->
  malloc_ok w0 ->
  (if ptr_eqb s nullptr then mret tt
   else let* n := strlen s in copyFrom this s n) w0 =
    Ok tt (with_copy this B w0).
Proof.
  intros Ho Hs Hn Hm. rewrite (c_string_nonnull _ _ _ Hs).
  rewrite (bind_ok _ _ _ _ _ (c_string_strlen _ _ _ Hs)).
  apply (copyFrom_with_copy _ _ _ _ _ Ho Hn (c_string_load _ _ _ Hs) Hm).
Qed.

(** X8.  The constructor and the assignment from a C string take the
    bytes before the first zero byte at [s]: when the C string at [s] is
    [B], of at most 2^32-1 bytes, and the allocation succeeds,
    [hidl_string(s)] is [hidl_string(s, |B|)], and the object then has
    size [|B|] and converts to [B]; [operator=(s)], when [s] does not point
    into a buffer that the object owns, releases that buffer and leaves the
    object with size [|B|], converting to [B].  From a null pointer the
    constructor gives the empty state and the assignment is [clear()];
    neither calls the allocator. *)
Theorem c_string_is_cut_at_zero (w : world) (this : N) (s : ptr)
    (B : list byte) :
  c_string w s B ->
  N.of_nat (length B) <= UINT32_MAX ->
  malloc_ok w ->
  (exists w',
     ctor_cstr this s w = Ok tt w' /\
     ctor_buf this s (N.of_nat (length B)) w = Ok tt w' /\
     holds this B w') /\
  (forall o, objs w !! this = Some o -> releasable w o ->
     apart o (mkString s 0 false) ->
     exists w',
       assign_cstr this s w = Ok tt w' /\ holds this B w' /\
       frees (trace w') =
         frees (trace w) ++ (if mOwnsBuffer o then [mBuffer o] else [])) /\
  (exists w0,
     ctor_cstr this nullptr w = Ok tt w0 /\ is_sentinel this w0 /\
     trace w0 = trace w) /\
  assign_cstr this nullptr w = clear this w.
Proof.
  intros Hs Hn Hm. split; [|split; [|split]].
  - set (w0 := set_objs <[this := sentinel]> w).
    assert (Ho : objs w0 !! this = Some sentinel) by apply lookup_insert_eq.
    assert (Hs0 : c_string w0 s B) by now apply (c_string_ext w).
    exists (with_copy this B w0). split; [|split].
    + unfold ctor_cstr. rewrite (bind_ok _ _ _ _ _ (ctor_spec this w)).
      now apply (copy_cstr_ok this s B w0 sentinel).
    + unfold ctor_buf. rewrite (bind_ok _ _ _ _ _ (ctor_spec this w)).
      apply (copyFrom_with_copy _ _ _ _ _ Ho Hn (c_string_load _ _ _ Hs0) Hm).
    + apply with_copy_holds.
  - intros o Ho Hr Ha.
    set (w0 := set_objs <[this := sentinel]> (released o w)).
    assert (Ho0 : objs w0 !! this = Some sentinel) by apply lookup_insert_eq.
    assert (Hs0 : c_string w0 s B).
    { apply (c_string_ext w); [|assumption].
      change (cells_at w0 s) with (cells_at (released o w) s).
      unfold released. destruct (mOwnsBuffer o) eqn:Hown; [|reflexivity].
      apply cells_at_delete_ne. intros off.
      apply (apart_block o (mkString s 0 false) w Hr Ha Hown). }
    assert (Hm0 : malloc_ok w0)
      by (unfold malloc_ok; subst w0; cbn [oom set_objs];
          now rewrite released_oom).
    exists (with_copy this B w0). split; [|split].
    + unfold assign_cstr. rewrite (bind_ok _ _ _ _ _ (clear_spec _ _ _ Ho Hr)).
      now apply (copy_cstr_ok this s B w0 sentinel).
    + apply with_copy_holds.
    + unfold with_copy. cbn [trace]. rewrite frees_app. cbn [frees omap].
      rewrite app_nil_r. subst w0. cbn [trace set_objs].
      apply released_frees.
  - exists (set_objs <[this := sentinel]> w). split; [reflexivity|].
    split; [apply is_sentinel_intro; apply lookup_insert_eq | reflexivity].
  - unfold assign_cstr, mbnd. cbn [ptr_eqb mret].
    destruct (clear this w) as [[] w1| |]; reflexivity.
Qed.

(** Scenario: [hidl_string x("hello")] over the caller's block, whose
    sixth cell is the closing zero. *)
Lemma c_string_is_cut_at_zero_witness :
  exists w',
    ctor_cstr 100 (Addr 7 0) Sample.w_hello = Ok tt w' /\
    ctor_buf 100 (Addr 7 0) 5 Sample.w_hello = Ok tt w' /\
    holds 100 Sample.hello w'.
Proof.
  apply (c_string_is_cut_at_zero Sample.w_hello 100 (Addr 7 0) Sample.hello).
  - split; [repeat constructor; discriminate | now exists []].
  - vm_compute. discriminate.
  - vm_compute. discriminate.
Defined.

(** *** Aborts and undefined behaviour *)

Lemma bind_abort {A B} (m : call A) (k : A -> call B) w w1 :
  m w = Abort w1 -> mbnd m k w = Abort w1.
Proof. unfold mbnd. now intros ->. Qed.

Lemma bind_undefined {A B} (m : call A) (k : A -> call B) w :
  m w = Undefined -> mbnd m k w = Undefined.
Proof. unfold mbnd. now intros ->. Qed.

Lemma copyFrom_fatal this data n w :
  UINT32_MAX < n ->
  copyFrom this data n w =
    Abort (record (EvLogFatal "string size can't exceed 2^32 bytes.") w).
Proof.
  intros Hn. unfold copyFrom.
  assert (Hlt : (UINT32_MAX <? n) = true) by now apply N.ltb_lt.
  rewrite Hlt. reflexivity.
Qed.

(** X9.  A length above 2^32-1 aborts the copying operations at the size
    check of [copyFrom], before any allocation: the constructors from a
    pointer and a length and from a host string abort with the new object
    in its empty state and the fatal record as the only thing written; the
    assignment from a host string has by then run [clear()], so that the
    buffer the object owned is already released and the object is in its
    empty state when the process aborts. *)
Theorem oversized_copy_aborts (w : world) (this : N) (data : ptr) (n : N) :
  UINT32_MAX < n ->
  let fatal := EvLogFatal "string size can't exceed 2^32 bytes." in
  ctor_buf this data n w =
    Abort (record fatal (set_objs <[this := sentinel]> w)) /\
  ctor_std this (mkStd data n) w =
    Abort (record fatal (set_objs <[this := sentinel]> w)) /\
  (forall o, objs w !! this = Some o -> releasable w o ->
     exists w',
       assign_std this (mkStd data n) w = Abort w' /\
       objs w' !! this = Some sentinel /\
       mem w' = mem (released o w) /\
       trace w' =
         trace w ++ (if mOwnsBuffer o then [EvFree (mBuffer o)] else []) ++
         [fatal]).
Proof.
  intros Hn fatal.
  assert (Hc : ctor_buf this data n w =
               Abort (record fatal (set_objs <[this := sentinel]> w))).
  { unfold ctor_buf. rewrite (bind_ok _ _ _ _ _ (ctor_spec this w)).
    now apply copyFrom_fatal. }
  split; [exact Hc|]. split; [exact Hc|].
  intros o Ho Hr. eexists. split.
  - unfold assign_std. rewrite (bind_ok _ _ _ _ _ (clear_spec _ _ _ Ho Hr)).
    cbn [std_c_str std_size]. now apply copyFrom_fatal.
  - split; [apply lookup_insert_eq|]. split; [reflexivity|].
    cbn [trace record set_objs]. unfold released.
    destruct (mOwnsBuffer o); cbn [trace record set_mem].
    + now rewrite <- app_assoc.
    + reflexivity.
Qed.

(** Scenario: the string that owns "hello" is assigned a host string of
    2^32 bytes. *)
Lemma oversized_copy_aborts_witness :
  exists w',
    assign_std 100 (mkStd (Addr 7 0) 4294967296) Sample.w_x = Abort w' /\
    objs w' !! 100 = Some sentinel /\
    mem w' = mem (released Sample.x_obj Sample.w_x).
Proof.
  destruct (oversized_copy_aborts Sample.w_x 100 (Addr 7 0) 4294967296)
    as (_ & _ & H); [reflexivity|].
  destruct (H Sample.x_obj) as (w' & H1 & H2 & H3 & _).
  - reflexivity.
  - intros _. exists 8, (mkBlock (Some <$> Sample.hello ++ [x00]) true).
    repeat split.
  - exists w'. repeat split; assumption.
Defined.

Lemma clear_oom this w w' : clear this w = Ok tt w' -> oom w' = oom w.
Proof.
  unfold clear. intros H.
  inv_bind H. destruct a.
  inv_bind Hstep. apply field_inv in Hstep0 as [-> (o & Ho & ->)].
  inv_bind Hstep. apply field_inv in Hstep0 as [-> (o' & Ho' & ->)].
  assert (E : oom w0 = oom w).
  { destruct (_ && _).
    - now destruct (free_inv _ _ _ Hstep) as (_ & E & _).
    - now injection Hstep as <-. }
  unfold set_mBuffer, set_mSize, set_mOwnsBuffer in H.
  inv_bind H. destruct a. apply assign_inv in Hstep0 as (o1 & _ & ->).
  inv_bind H. destruct a. apply assign_inv in Hstep0 as (o2 & _ & ->).
  apply assign_inv in H as (o3 & _ & ->). exact E.
Qed.

Lemma bind_no_abort {A B} (m : call A) (k : A -> call B) :
  (forall w w1, m w <> Abort w1) -> (forall a w w1, k a w <> Abort w1) ->
  forall w w1, mbnd m k w <> Abort w1.
Proof.
  intros Hm Hk w w1. unfold mbnd. destruct (m w) as [a w2|w2|] eqn:E.
  - apply Hk.
  - now destruct (Hm w w2).
  - discriminate.
Qed.

Lemma field_no_abort {A} (f : hidl_string -> A) this w w1 :
  field f this w <> Abort w1.
Proof. unfold field. now destruct (objs w !! this). Qed.

Lemma assign_no_abort f this w w1 : assign f this w <> Abort w1.
Proof. unfold assign. now destruct (objs w !! this). Qed.

Lemma free_no_abort p w w1 : free p w <> Abort w1.
Proof.
  unfold free. destruct p as [| |b [|o]]; try discriminate.
  destruct (mem w !! b) as [blk|]; [|discriminate].
  now destruct (from_malloc blk).
Qed.

(** [clear()] has no fatal exit. *)
Lemma clear_no_abort this w w1 : clear this w <> Abort w1.
Proof.
  revert w w1. unfold clear.
  apply bind_no_abort; [|intros _; apply bind_no_abort;
    [apply assign_no_abort | intros _; apply bind_no_abort;
      [apply assign_no_abort | intros _; apply assign_no_abort]]].
  apply bind_no_abort; [apply field_no_abort | intros owns].
  apply bind_no_abort; [apply field_no_abort | intros buf].
  destruct (_ && _); [apply free_no_abort | discriminate].
Qed.

Lemma copyFrom_null this data n w :
  head (oom w) = Some true -> n <= UINT32_MAX ->
  copyFrom this data n w = Undefined.
Proof.
  intros Hoom Hn. unfold copyFrom.
  assert (Hlt : (UINT32_MAX <? n) = false) by now apply N.ltb_ge.
  rewrite Hlt. unfold mbnd at 1. cbn [mret].
  unfold mbnd at 1. unfold malloc.
  destruct (oom w) as [|[|] o]; try discriminate.
  apply bind_undefined. unfold memcpy.
  now destruct (load _ data n).
Qed.

(** X10.  The result of [malloc] is not checked.  When the allocation
    fails, [copyFrom] copies to the null pointer it was given: with a
    length that passes the size check, [copyFrom], the constructors from a
    pointer and a length and from a host string, and the assignment from a
    host string have no defined behaviour. *)
Theorem failed_allocation_is_written_to (w : world) (this : N) (data : ptr)
    (n : N) :
  head (oom w) = Some true ->
  n <= UINT32_MAX ->
  copyFrom this data n w = Undefined /\
  ctor_buf this data n w = Undefined /\
  ctor_std this (mkStd data n) w = Undefined /\
  assign_std this (mkStd data n) w = Undefined.
Proof.
  intros Hoom Hn.
  assert (Hc : ctor_buf this data n w = Undefined).
  { unfold ctor_buf. rewrite (bind_ok _ _ _ _ _ (ctor_spec this w)).
    now apply copyFrom_null. }
  split; [now apply copyFrom_null|]. split; [exact Hc|]. split; [exact Hc|].
  unfold assign_std. cbn [std_c_str std_size].
  destruct (clear this w) as [[] w1|w1|] eqn:E.
  - rewrite (bind_ok _ _ _ _ _ E). apply copyFrom_null; [|assumption].
    now rewrite (clear_oom _ _ _ E).
  - now destruct (clear_no_abort this w w1).
  - now apply bind_undefined.
Qed.

(** Scenario: "hello" is to be copied when the next allocation fails. *)
Lemma failed_allocation_is_written_to_witness :
  ctor_buf 100 (Addr 7 0) 5 (set_oom [true] Sample.w_hello) = Undefined.
Proof.
  apply (failed_allocation_is_written_to (set_oom [true] Sample.w_hello)
           100 (Addr 7 0) 5).
  - reflexivity.
  - vm_compute. discriminate.
Defined.

Lemma delete_fresh_block (w : world) blk :
  delete (fresh (dom (mem w))) (<[fresh (dom (mem w)) := blk]> (mem w)) = mem w.
Proof.
  rewrite delete_insert_eq. apply delete_id. apply fresh_block_not_live.
Qed.

(** X11.  Construction and destruction balance.  Constructing a string at
    a free address from [B] and destroying it again leaves the objects and
    the memory exactly as they were; the allocator has been called twice,
    for a block of [|B|+1] bytes and for its release. *)
Theorem construct_destroy_balanced (w : world) (this : N) (data : ptr)
    (B : list byte) :
  let n := N.of_nat (length B) in
  n <= UINT32_MAX ->
  load w data n = Some B ->
  malloc_ok w ->
  objs w !! this = None ->
  exists p,
    (ctor_buf this data n ;; dtor this) w =
      Ok tt (mkWorld (objs w) (mem w) (tail (oom w))
                     (trace w ++ [EvMalloc (n + 1) p; EvFree p])).
Proof.
  intros n Hn Hld Hm Hnone.
  pose proof (ctor_buf_ok this data n w B Hn Hld Hm) as Hc. cbv zeta in Hc.
  set (b := fresh (dom (mem w))) in Hc. set (w1 := mkWorld _ _ _ _) in Hc.
  set (o := mkString (Addr b 0) n true).
  assert (Ho : objs w1 !! this = Some o) by apply lookup_insert_eq.
  assert (Hr : releasable w1 o).
  { intros _. exists b, (mkBlock ((Some <$> B) ++ [Some x00]) true).
    repeat split. apply lookup_insert_eq. }
  exists (Addr b 0).
  rewrite (bind_ok _ _ _ _ _ Hc), (dtor_spec _ _ _ Ho Hr).
  unfold released, set_objs, record, set_mem. subst o w1.
  cbn [mOwnsBuffer mBuffer block_of objs mem oom trace]. f_equal. f_equal.
  - rewrite delete_insert_eq. now apply delete_id.
  - apply delete_fresh_block.
  - now rewrite <- app_assoc.
Qed.

(** Scenario: [{ hidl_string x("hello", 5); }] at address 100. *)
Lemma construct_destroy_balanced_witness :
  exists p,
    (ctor_buf 100 (Addr 7 0) 5 ;; dtor 100) Sample.w_hello =
      Ok tt (mkWorld (objs Sample.w_hello) (mem Sample.w_hello) []
                     (trace Sample.w_hello ++ [EvMalloc 6 p; EvFree p])).
Proof.
  apply (construct_destroy_balanced Sample.w_hello 100 (Addr 7 0) Sample.hello).
  - vm_compute. discriminate.
  - reflexivity.
  - vm_compute. discriminate.
  - reflexivity.
Defined.

Lemma insert_same_world this o w :
  objs w !! this = Some o -> set_objs <[this := o]> w = w.
Proof.
  intros H. destruct w as [os m oo t]. unfold set_objs. cbn in *.
  f_equal. now apply insert_id.
Qed.

(** X12.  [clear()] is idempotent.  Whenever [clear()] returns, the object
    is in its empty state, a second [clear()] changes nothing, and the
    destructor then only removes the object: it releases nothing and
    leaves the memory as it is. *)
Theorem clear_twice_is_clear (w w1 : world) (this : N) :
  clear this w = Ok tt w1 ->
  is_sentinel this w1 /\
  clear this w1 = Ok tt w1 /\
  (clear this ;; clear this) w = clear this w /\
  exists w2,
    dtor this w1 = Ok tt w2 /\ objs w2 = delete this (objs w1) /\
    mem w2 = mem w1 /\ trace w2 = trace w1.
Proof.
  intros H. destruct (clear_inv _ _ _ H) as (o & _ & Eo & _).
  assert (Hs : objs w1 !! this = Some sentinel)
    by (rewrite Eo; apply lookup_insert_eq).
  assert (Hc : clear this w1 = Ok tt w1).
  { rewrite (clear_keep _ _ _ Hs eq_refl). f_equal.
    now apply insert_same_world. }
  split; [now apply is_sentinel_intro|]. split; [exact Hc|]. split.
  - rewrite (bind_ok _ _ _ _ _ H), Hc. now symmetry.
  - eexists. split.
    + unfold dtor. rewrite (bind_ok _ _ _ _ _ Hc). reflexivity.
    + repeat split.
Qed.

(** Scenario: the string that owns "hello" is cleared twice. *)
Lemma clear_twice_is_clear_witness :
  clear 100 (after (clear 100) Sample.w_x) =
    Ok tt (after (clear 100) Sample.w_x).
Proof.
  apply (clear_twice_is_clear Sample.w_x (after (clear 100) Sample.w_x) 100).
  reflexivity.
Defined.

(** X13.  An object must not be given its own buffer.  In a reachable
    world, for an object that owns its buffer: assigning it the C string
    at a pointer into that buffer (as in [x = x.c_str()]) reads the buffer
    after [clear()] has released it, which has no defined behaviour; and
    [setToExternal] with such a pointer and a length [n] returns with the
    buffer released and the object pointing into the released block, so
    that, for [n > 0], its conversion to a host string, which reads [n]
    bytes there, has no defined behaviour. *)
Theorem own_buffer_is_released_first (w : world) (x : N) (ox : hidl_string)
    (b off : N) :
  reachable w ->
  objs w !! x = Some ox ->
  mOwnsBuffer ox = true ->
  mBuffer ox = Addr b 0 ->
  assign_cstr x (Addr b off) w = Undefined /\
  forall n, n <= UINT32_MAX ->
    exists w',
      setToExternal x (Addr b off) n w = Ok tt w' /\
      frees (trace w') = frees (trace w) ++ [Addr b 0] /\
      c_str x w' = Ok (Addr b off) w' /\
      size x w' = Ok n w' /\
      (0 < n -> to_std_string x w' = Undefined).
Proof.
  intros Hw Hx Hown Hb.
  pose proof (reachable_releasable _ _ _ Hw Hx) as Hr.
  assert (Hgone : forall w', mem w' = mem (released ox w) ->
            cells_at w' (Addr b off) = None).
  { intros w' E. unfold cells_at. rewrite E. unfold released.
    rewrite Hown, Hb. cbn [block_of mem set_mem record].
    now rewrite lookup_delete_eq. }
  split.
  - unfold assign_cstr. rewrite (bind_ok _ _ _ _ _ (clear_spec _ _ _ Hx Hr)).
    cbn [ptr_eqb]. apply bind_undefined. unfold strlen.
    now rewrite (Hgone (set_objs <[x := sentinel]> (released ox w)) eq_refl).
  - intros n Hn. eexists. split; [apply (setToExternal_ok _ _ _ _ _ Hn Hx Hr)|].
    set (w' := set_objs _ _).
    assert (Hx' : objs w' !! x = Some (mkString (Addr b off) n false))
      by apply lookup_insert_eq.
    split; [|split; [|split]].
    + subst w'. cbn [trace set_objs]. rewrite released_frees, Hown, Hb.
      reflexivity.
    + unfold c_str. now rewrite (field_ok _ _ _ _ Hx').
    + unfold size. now rewrite (field_ok _ _ _ _ Hx').
    + intros _. unfold to_std_string, mbnd. rewrite !(field_ok _ _ _ _ Hx').
      cbn [mBuffer mSize]. unfold load.
      now rewrite (Hgone w' eq_refl).
Qed.

(** Scenario: [x = x.c_str()], and [x.setToExternal(x.c_str(), 5)], for
    the string that owns "hello". *)
Lemma own_buffer_is_released_first_witness :
  assign_cstr 100 (Addr 8 0) Sample.w_x = Undefined /\
  exists w',
    setToExternal 100 (Addr 8 0) 5 Sample.w_x = Ok tt w' /\
    to_std_string 100 w' = Undefined.
Proof.
  destruct (own_buffer_is_released_first Sample.w_x 100 Sample.x_obj 8 0)
    as [H1 H2];
    [apply sample_x_reachable | reflexivity | reflexivity | reflexivity |].
  split; [exact H1|].
  destruct (H2 5) as (w' & Hs & _ & _ & _ & Hu); [vm_compute; discriminate|].
  exists w'. split; [exact Hs|]. now apply Hu.
Defined.

(** *** Operations on other objects *)

Lemma load_same_block w w' b off n :
  mem w' !! b = mem w !! b -> load w' (Addr b off) n = load w (Addr b off) n.
Proof. intros E. unfold load, cells_at. now rewrite E. Qed.

Lemma preserved_refl y oy b w : objs w !! y = Some oy -> preserved y oy b w w.
Proof. now split. Qed.

Lemma preserved_trans y oy b w w1 w' :
  preserved y oy b w w1 -> preserved y oy b w1 w' -> preserved y oy b w w'.
Proof. intros [_ E1] [H2 E2]. split; [assumption | congruence]. Qed.

Lemma frame_ctor y oy b this w a w' :
  this <> y -> objs w !! y = Some oy ->
  ctor this w = Ok a w' -> preserved y oy b w w'.
Proof.
  intros Hne Hy [= _ <-]. split; [|reflexivity].
  cbn [objs set_objs]. now rewrite lookup_insert_ne.
Qed.

Lemma frame_clear y oy b this w a w' :
  well_owned (objs w) (mem w) ->
  this <> y -> objs w !! y = Some oy ->
  mOwnsBuffer oy = true -> mBuffer oy = Addr b 0 ->
  clear this w = Ok a w' -> preserved y oy b w w'.
Proof.
  intros [_ H2] Hne Hy Hown Hb H. destruct a.
  apply clear_inv in H as (o & Ho & Eo & Hm). split.
  - now rewrite Eo, lookup_insert_ne.
  - destruct Hm as [->|(b' & blk & Hown' & Hb' & _ & ->)]; [reflexivity|].
    apply lookup_delete_ne. intros <-.
    apply (H2 this y o oy); congruence.
Qed.

Lemma frame_copyFrom y oy b this data size w a w' :
  this <> y -> objs w !! y = Some oy -> is_Some (mem w !! b) ->
  copyFrom this data size w = Ok a w' -> preserved y oy b w w'.
Proof.
  intros Hne Hy [blk Hl] H. destruct a.
  apply copyFrom_inv in H as (o & b' & blk' & _ & _ & Hb' & _ & Eo & Em).
  split.
  - now rewrite Eo, lookup_insert_ne.
  - rewrite Em. apply lookup_insert_ne. congruence.
Qed.

Lemma frame_moveFrom y oy b this other w a w' :
  this <> y -> other <> y -> objs w !! y = Some oy ->
  moveFrom this other w = Ok a w' -> preserved y oy b w w'.
Proof.
  intros Hne Hne' Hy H. destruct a.
  apply moveFrom_inv in H as (oo & _ & Eo & Em). split.
  - now rewrite Eo, !lookup_insert_ne.
  - now rewrite Em.
Qed.

Lemma frame_copy_cstr y oy b this s w a w' :
  this <> y -> objs w !! y = Some oy -> is_Some (mem w !! b) ->
  (if ptr_eqb s nullptr then mret tt
   else let* n := strlen s in copyFrom this s n) w = Ok a w' ->
  preserved y oy b w w'.
Proof.
  intros Hne Hy Hl H. destruct (ptr_eqb s nullptr).
  - injection H as _ <-. now apply preserved_refl.
  - inv_bind H. apply strlen_inv in Hstep as ->.
    now apply (frame_copyFrom _ _ _ _ _ _ _ _ _ Hne Hy Hl H).
Qed.

Lemma frame_copy_of y oy b this other w a w' :
  this <> y -> objs w !! y = Some oy -> is_Some (mem w !! b) ->
  (let* p := c_str other in
   let* n := size other in copyFrom this p n) w = Ok a w' ->
  preserved y oy b w w'.
Proof.
  intros Hne Hy Hl H.
  inv_bind H. apply field_inv in Hstep as [-> _].
  inv_bind H. apply field_inv in Hstep as [-> _].
  now apply (frame_copyFrom _ _ _ _ _ _ _ _ _ Hne Hy Hl H).
Qed.

(** A first step that preserves, and the rest of the operation on the
    world it leads to. *)
Lemma preserved_then y oy b w w1 w' blk :
  mem w !! b = Some blk ->
  preserved y oy b w w1 ->
  (objs w1 !! y = Some oy -> is_Some (mem w1 !! b) -> preserved y oy b w1 w') ->
  preserved y oy b w w'.
Proof.
  intros Hl H1 H2. apply (preserved_trans _ _ _ _ w1); [assumption|].
  destruct H1 as [Hy E]. apply H2; [assumption|]. rewrite E. eauto.
Qed.

(** One operation that does not touch [y] preserves an owning [y] and its
    buffer. *)
Lemma exec_preserves w o w' y oy b :
  reachable w -> exec o w = Ok tt w' -> touches o y = false ->
  objs w !! y = Some oy -> mOwnsBuffer oy = true -> mBuffer oy = Addr b 0 ->
  preserved y oy b w w'.
Proof.
  intros Hw H Ht Hy Hown Hb.
  pose proof (reachable_well_owned w Hw) as Hwo.
  destruct (reachable_releasable w y oy Hw Hy Hown) as (b0 & blk & Hb0 & Hl & _).
  rewrite Hb in Hb0. injection Hb0 as <-.
  assert (Hlive : is_Some (mem w !! b)) by eauto.
  destruct o; cbn [exec touches] in H, Ht;
    try (apply orb_false_iff in Ht as [Ht Ht']; apply N.eqb_neq in Ht');
    apply N.eqb_neq in Ht.
  - now apply (frame_ctor _ _ _ _ _ _ _ Ht Hy H).
  - unfold ctor_cstr in H. inv_bind H.
    apply (preserved_then _ _ _ _ w0 _ _ Hl (frame_ctor _ _ _ _ _ _ _ Ht Hy Hstep)).
    intros Hy0 Hl0. now apply (frame_copy_cstr _ _ _ _ _ _ _ _ Ht Hy0 Hl0 H).
  - unfold ctor_buf in H. inv_bind H.
    apply (preserved_then _ _ _ _ w0 _ _ Hl (frame_ctor _ _ _ _ _ _ _ Ht Hy Hstep)).
    intros Hy0 Hl0. now apply (frame_copyFrom _ _ _ _ _ _ _ _ _ Ht Hy0 Hl0 H).
  - unfold ctor_copy in H. inv_bind H.
    apply (preserved_then _ _ _ _ w0 _ _ Hl (frame_ctor _ _ _ _ _ _ _ Ht Hy Hstep)).
    intros Hy0 Hl0. now apply (frame_copy_of _ _ _ _ _ _ _ _ Ht Hy0 Hl0 H).
  - unfold ctor_std in H. inv_bind H.
    apply (preserved_then _ _ _ _ w0 _ _ Hl (frame_ctor _ _ _ _ _ _ _ Ht Hy Hstep)).
    intros Hy0 Hl0. now apply (frame_copyFrom _ _ _ _ _ _ _ _ _ Ht Hy0 Hl0 H).
  - unfold ctor_move in H. inv_bind H.
    apply (preserved_then _ _ _ _ w0 _ _ Hl (frame_ctor _ _ _ _ _ _ _ Ht Hy Hstep)).
    intros Hy0 Hl0. now apply (frame_moveFrom _ _ _ _ _ _ _ _ Ht Ht' Hy0 H).
  - unfold assign_move in H. destruct (negb _).
    + inv_bind H.
      apply (preserved_then _ _ _ _ w0 _ _ Hl
               (frame_clear _ _ _ _ _ _ _ Hwo Ht Hy Hown Hb Hstep)).
      intros Hy0 Hl0. now apply (frame_moveFrom _ _ _ _ _ _ _ _ Ht Ht' Hy0 H).
    + injection H as <-. now apply preserved_refl.
  - unfold assign_copy in H. destruct (negb _).
    + inv_bind H.
      apply (preserved_then _ _ _ _ w0 _ _ Hl
               (frame_clear _ _ _ _ _ _ _ Hwo Ht Hy Hown Hb Hstep)).
      intros Hy0 Hl0. now apply (frame_copy_of _ _ _ _ _ _ _ _ Ht Hy0 Hl0 H).
    + injection H as <-. now apply preserved_refl.
  - unfold assign_cstr in H. inv_bind H.
    apply (preserved_then _ _ _ _ w0 _ _ Hl
             (frame_clear _ _ _ _ _ _ _ Hwo Ht Hy Hown Hb Hstep)).
    intros Hy0 Hl0. now apply (frame_copy_cstr _ _ _ _ _ _ _ _ Ht Hy0 Hl0 H).
  - unfold assign_std in H. inv_bind H.
    apply (preserved_then _ _ _ _ w0 _ _ Hl
             (frame_clear _ _ _ _ _ _ _ Hwo Ht Hy Hown Hb Hstep)).
    intros Hy0 Hl0. now apply (frame_copyFrom _ _ _ _ _ _ _ _ _ Ht Hy0 Hl0 H).
  - now apply (frame_clear _ _ _ _ _ _ _ Hwo Ht Hy Hown Hb H).
  - unfold setToExternal in H.
    inv_bind H. destruct a. apply size_check_inv in Hstep as [-> _].
    inv_bind H.
    apply (preserved_then _ _ _ _ w0 _ _ Hl
             (frame_clear _ _ _ _ _ _ _ Hwo Ht Hy Hown Hb Hstep)).
    intros Hy0 Hl0. unfold set_mBuffer, set_mSize, set_mOwnsBuffer in H.
    apply assign3_inv in H as (o & _ & Eo & Em). split.
    + now rewrite Eo, lookup_insert_ne.
    + now rewrite Em.
  - unfold dtor in H. inv_bind H.
    apply (preserved_then _ _ _ _ w0 _ _ Hl
             (frame_clear _ _ _ _ _ _ _ Hwo Ht Hy Hown Hb Hstep)).
    intros Hy0 Hl0. injection H as <-. split; [|reflexivity].
    cbn [objs set_objs]. now rewrite lookup_delete_ne.
Qed.

(** X14.  An owned buffer is private to its owner.  In a reachable world,
    let [y] own its buffer and hold the bytes [B].  Whatever sequence of
    public operations is run on other objects (none of them applied to
    [y], none moving from [y]; copies of [y] are allowed), whenever it
    returns [y] has the same pointer, length and ownership and still
    converts to [B]: no operation on another string releases or
    overwrites the buffer. *)
Theorem owned_bytes_are_private (w w' : world) (l : list op) (y : N)
    (oy : hidl_string) (B : list byte) :
  reachable w ->
  exec_all l w = Ok tt w' ->
  Forall (fun o => touches o y = false) l ->
  objs w !! y = Some oy ->
  mOwnsBuffer oy = true ->
  to_std_string y w = Ok B w ->
  objs w' !! y = Some oy /\ to_std_string y w' = Ok B w'.
Proof.
  intros Hw H Hl Hy Hown HB. revert w Hw H Hy HB.
  induction Hl as [|o l Ho _ IH]; intros w Hw H Hy HB.
  - injection H as <-. now split.
  - cbn [exec_all] in H. inv_bind H. destruct a.
    destruct (reachable_releasable w y oy Hw Hy Hown) as (b & blk & Hb & _).
    destruct (exec_preserves w o w0 y oy b Hw Hstep Ho Hy Hown Hb) as [Hy0 E].
    apply (IH w0); try assumption.
    + now apply (reachable_step w o).
    + apply (to_std_string_ok _ _ _ _ Hy0).
      rewrite Hb, (load_same_block w w0 b 0 _ E), <- Hb.
      now apply to_std_string_inv with (x := y).
Qed.

(** Scenario: next to [x], which owns "hello", the string [y] is assigned
    the caller's C string, copy-assigned from [x] and destroyed. *)
Lemma owned_bytes_are_private_witness :
  exists w',
    exec_all [AssignCstr 200 (Addr 7 0); AssignCopy 200 100; Dtor 200]
      Sample.w_xy = Ok tt w' /\
    objs w' !! 100 = Some Sample.x_obj /\
    to_std_string 100 w' = Ok Sample.hello w'.
Proof.
  eexists. split; [reflexivity|].
  apply (owned_bytes_are_private Sample.w_xy _
           [AssignCstr 200 (Addr 7 0); AssignCopy 200 100; Dtor 200] 100
           Sample.x_obj Sample.hello).
  - apply sample_xy_reachable.
  - reflexivity.
  - repeat constructor.
  - reflexivity.
  - reflexivity.
  - reflexivity.
Defined.

(** *** The accessors *)

Lemma to_std_string_object this w B w' :
  to_std_string this w = Ok B w' ->
  exists o, objs w !! this = Some o /\
            load w (mBuffer o) (mSize o) = Some B.
Proof.
  intros H. destruct (objs w !! this) as [o|] eqn:Ho.
  - exists o. split; [reflexivity|]. revert H.
    unfold to_std_string, mbnd. rewrite !(field_ok _ _ _ _ Ho).
    destruct (load w _ _); [|discriminate]. now intros [= ->].
  - revert H. unfold to_std_string, mbnd, field. now rewrite Ho.
Qed.

(** X15.  The accessors agree with the conversion.  Whenever the
    conversion to a host string returns [B], [size()] is [|B|], [empty()]
    holds exactly for an empty [B], the conversion to a C pointer is
    [c_str()], and [B] is what the [size()] bytes at [c_str()] are. *)
Theorem accessors_agree (w w' : world) (this : N) (B : list byte) :
  to_std_string this w = Ok B w' ->
  w' = w /\
  size this w = Ok (N.of_nat (length B)) w /\
  empty this w = Ok (match B with [] => true | _ => false end) w /\
  to_c_str this w = c_str this w /\
  exists p, c_str this w = Ok p w /\
            load w p (N.of_nat (length B)) = Some B.
Proof.
  intros H. destruct (to_std_string_object _ _ _ _ H) as (o & Ho & Hld).
  pose proof (load_length _ _ _ _ Hld) as Hlen.
  rewrite (to_std_string_ok _ _ _ _ Ho Hld) in H. injection H as <-.
  split; [reflexivity|].
  unfold size, empty, to_c_str, c_str. rewrite !(field_ok _ _ _ _ Ho).
  rewrite <- Hlen. repeat split.
  - now destruct B.
  - exists (mBuffer o). split; [reflexivity|]. now rewrite Hlen.
Qed.

(** Scenario: the string that owns "hello". *)
Lemma accessors_agree_witness :
  size 100 Sample.w_x = Ok 5 Sample.w_x /\
  empty 100 Sample.w_x = Ok false Sample.w_x.
Proof.
  destruct (accessors_agree Sample.w_x Sample.w_x 100 Sample.hello)
    as (_ & H1 & H2 & _); [reflexivity | now split].
Defined.

End HStringFacts.

(** ** hidl_handle *)

Module HandleFacts.
Import Handle.
Local Open Scope call_scope.

Ltac run :=
  repeat first
    [ progress cbn [objs recs open_fds clone_fails trace set_objs set_recs
                    set_open_fds set_clone_fails record mHandle mOwnsHandle
                    mret]
    | rewrite lookup_insert_eq
    | rewrite insert_insert_eq
    | rewrite lookup_insert_ne by congruence
    | match goal with
      | H : ?m !! ?t = Some _ |- context [?m !! ?t] => rewrite H
      | H : ?c = _ |- context [if ?c then _ else _] => rewrite H
      end ].

Ltac same_world :=
  unfold set_objs, set_recs, set_open_fds, set_clone_fails, record; run;
  try reflexivity.

Lemma world_eta w :
  mkWorld (objs w) (recs w) (open_fds w) (clone_fails w) (trace w) = w.
Proof. now destruct w. Qed.

Lemma handle_field_ok {A} (f : hidl_handle -> A) this w o :
  objs w !! this = Some o -> field f this w = Ok (f o) w.
Proof. unfold field. now intros ->. Qed.

(** *** freeHandle and the destructor *)

Lemma freed_objs o w : objs (freed o w) = objs w.
Proof.
  unfold freed. destruct (owns_record o); [|reflexivity].
  now destruct (recs w !! mHandle o).
Qed.

Lemma freed_clone_fails o w : clone_fails (freed o w) = clone_fails w.
Proof.
  unfold freed. destruct (owns_record o); [|reflexivity].
  now destruct (recs w !! mHandle o).
Qed.

Lemma freed_trace o w :
  valid w o -> trace (freed o w) = trace w ++ release_calls o.
Proof.
  unfold valid, freed, release_calls. destruct (owns_record o).
  - intros H. destruct (H eq_refl) as [r ->].
    unfold closed_deleted, record, set_recs, set_open_fds. cbn [trace].
    now rewrite <- app_assoc.
  - now rewrite app_nil_r.
Qed.

Lemma freed_recs o w :
  recs (freed o w) =
  if owns_record o then delete (mHandle o) (recs w) else recs w.
Proof.
  unfold freed. destruct (owns_record o); [|reflexivity].
  destruct (recs w !! mHandle o) eqn:E; [reflexivity|].
  symmetry. now apply delete_id.
Qed.

Lemma freeHandle_spec this w o :
  objs w !! this = Some o -> valid w o ->
  freeHandle this w = Ok tt (set_objs <[this := dropped o]> (freed o w)).
Proof.
  intros Ho Hv. unfold valid, owns_record in Hv.
  unfold freeHandle, mbnd, field, dropped, freed, owns_record.
  destruct (mOwnsHandle o && negb (mHandle o =? nullptr)) eqn:Hown.
  - destruct (Hv eq_refl) as [r Hr].
    unfold native_handle_close, native_handle_delete, set_mHandle, assign.
    run. unfold closed_deleted. same_world.
  - run. unfold set_objs. rewrite insert_id by assumption.
    now rewrite world_eta.
Qed.

Lemma handle_dtor_spec this w o :
  objs w !! this = Some o -> valid w o ->
  dtor this w = Ok tt (set_objs (delete this) (freed o w)).
Proof.
  intros Ho Hv. unfold dtor.
  rewrite (bind_ok _ _ _ _ _ (freeHandle_spec _ _ _ Ho Hv)).
  unfold set_objs. run. now rewrite delete_insert_eq.
Qed.

(** *** Moves *)

Lemma handle_assign_move_spec x y w ox oy :
  x <> y -> objs w !! x = Some ox -> objs w !! y = Some oy -> valid w oy ->
  assign_move y x w = Ok tt (moved x y ox (freed oy w)).
Proof.
  intros Hne Hx Hy Hv. unfold assign_move.
  assert (E : (y =? x) = false) by (apply N.eqb_neq; congruence).
  rewrite E. cbn [negb].
  rewrite (bind_ok _ _ _ _ _ (freeHandle_spec _ _ _ Hy Hv)).
  assert (Hx' : objs (freed oy w) !! x = Some ox) by now rewrite freed_objs.
  unfold mbnd, field, set_mHandle, set_mOwnsHandle, assign. run.
  unfold moved. destruct ox. same_world.
Qed.

Lemma handle_assign_move_self x w : assign_move x x w = Ok tt w.
Proof. unfold assign_move. now rewrite N.eqb_refl. Qed.

Lemma unowned_valid w h : valid w (mkHandle h false).
Proof. intros [=]. Qed.

Lemma freed_unowned w h : freed (mkHandle h false) w = w.
Proof. reflexivity. Qed.

Lemma handle_ctor_move_spec x y w ox raw :
  x <> y -> objs w !! x = Some ox ->
  ctor_move y raw x w = Ok tt (moved x y ox w).
Proof.
  intros Hne Hx. unfold ctor_move, storage.
  unfold mbnd at 1. unfold mbnd at 1. unfold set_mOwnsHandle at 1, assign.
  run.
  rewrite (handle_assign_move_spec x y _ ox (mkHandle (mHandle raw) false));
    [| assumption | run; reflexivity | run; reflexivity | apply unowned_valid].
  rewrite freed_unowned. unfold moved. same_world.
Qed.

Lemma valid_ext w w' o : recs w = recs w' -> valid w o -> valid w' o.
Proof. unfold valid. now intros <-. Qed.

Lemma valid_freed w oy ox :
  apart oy ox -> valid w ox -> valid (freed oy w) ox.
Proof.
  intros Ha Hv Hown. rewrite freed_recs.
  destruct (owns_record oy) eqn:Hoy; [|auto].
  rewrite lookup_delete_ne; [auto|]. intros E. now apply (Ha Hoy).
Qed.

Lemma handed_over_moved x y ox w0 :
  x <> y -> valid w0 ox -> handed_over x y ox (moved x y ox w0).
Proof.
  intros Hne Hv. set (w' := moved x y ox w0).
  assert (Hx : objs w' !! x = Some (mkHandle nullptr false))
    by (subst w'; unfold moved; run; reflexivity).
  assert (Hy : objs w' !! y = Some ox)
    by (subst w'; unfold moved; run; reflexivity).
  assert (Hv' : valid w' ox) by now apply (valid_ext w0).
  split; [exact Hx|]. split; [exact Hy|].
  pose proof (handle_dtor_spec _ _ _ Hy Hv') as Hdy.
  set (w2 := set_objs (delete y) (freed ox w')) in Hdy.
  assert (Hx2 : objs w2 !! x = Some (mkHandle nullptr false)).
  { subst w2. cbn [objs set_objs]. rewrite lookup_delete_ne by congruence.
    now rewrite freed_objs. }
  exists w2. eexists. split; [exact Hdy|]. split.
  { subst w2. cbn [trace set_objs]. now apply freed_trace. }
  split.
  { intros Hown. subst w2. cbn [recs set_objs]. rewrite freed_recs, Hown.
    apply lookup_delete_eq. }
  split; [apply (handle_dtor_spec _ _ _ Hx2 (unowned_valid _ _))|].
  reflexivity.
Qed.

(** C7.  Moving [x], whose owned record, if any, is live, into another
    object [y], by the move constructor or by move assignment (on a [y]
    whose owned record, if any, is live and is not the one [x] points to):
    [x] becomes null and not owning, [y] has the record pointer and the
    ownership flag [x] had, and destroying [y] calls the close primitive
    and then the delete primitive on the record, once, when [y] owns it
    (nothing otherwise), after which destroying [x] calls nothing.  Moving
    an object into itself changes nothing. *)
Theorem move_hands_over (w : world) (x y : N) (ox : hidl_handle) :
  x <> y ->
  objs w !! x = Some ox ->
  valid w ox ->
  (forall raw,
     exists w', ctor_move y raw x w = Ok tt w' /\ handed_over x y ox w') /\
  (forall oy, objs w !! y = Some oy -> valid w oy -> apart oy ox ->
     exists w', assign_move y x w = Ok tt w' /\ handed_over x y ox w') /\
  assign_move x x w = Ok tt w.
Proof.
  intros Hne Hx Hv. split; [|split].
  - intros raw. eexists. split; [apply (handle_ctor_move_spec _ _ _ _ _ Hne Hx)|].
    now apply handed_over_moved.
  - intros oy Hy Hvy Ha. eexists.
    split; [apply (handle_assign_move_spec _ _ _ _ _ Hne Hx Hy Hvy)|].
    apply handed_over_moved; [assumption|]. now apply valid_freed.
  - apply handle_assign_move_self.
Qed.

(** Scenario: [x] owns the record at 16 and is moved into a new [y] and
    into a default-constructed [y]. *)
Lemma move_hands_over_witness :
  (exists w', ctor_move 200 (mkHandle 99 true) 100 Sample.w_x = Ok tt w' /\
              handed_over 100 200 Sample.x_obj w') /\
  (exists w', assign_move 200 100 Sample.w_xy = Ok tt w' /\
              handed_over 100 200 Sample.x_obj w').
Proof.
  split.
  - destruct (move_hands_over Sample.w_x 100 200 Sample.x_obj) as (H & _);
      [discriminate | reflexivity | intros _; now exists Sample.rec16 |].
    apply H.
  - destruct (move_hands_over Sample.w_xy 100 200 Sample.x_obj) as (_ & H & _);
      [discriminate | reflexivity | intros _; now exists Sample.rec16 |].
    apply (H (mkHandle nullptr false)); [reflexivity | intros [=] | intros [=]].
Defined.

(** *** The clone primitive *)

Lemma dup_all_length l open : length (fst (dup_all l open)) = length l.
Proof.
  revert open. induction l as [|fd l IH]; intros open; [reflexivity|].
  cbn [dup_all]. specialize (IH ({[fresh open]} ∪ open)).
  destruct (dup_all l _) as [ds open']. cbn [fst length] in *. now rewrite IH.
Qed.

Lemma dup_all_mono l open : open ⊆ snd (dup_all l open).
Proof.
  revert open. induction l as [|fd l IH]; intros open; [reflexivity|].
  cbn [dup_all]. specialize (IH ({[fresh open]} ∪ open)).
  destruct (dup_all l _) as [ds open']. cbn [snd] in *. set_solver.
Qed.

Lemma dup_all_fresh l open fd : fd ∈ fst (dup_all l open) -> fd ∉ open.
Proof.
  revert open. induction l as [|fd0 l IH]; intros open.
  - cbn. intros H. now apply elem_of_nil in H.
  - cbn [dup_all]. specialize (IH ({[fresh open]} ∪ open)).
    destruct (dup_all l _) as [ds open']. cbn [fst] in *.
    intros [->|H]%elem_of_cons.
    + apply is_fresh.
    + specialize (IH H). set_solver.
Qed.

Lemma clone_addr_nonnull w : clone_addr w <> nullptr.
Proof.
  unfold clone_addr. intros E.
  apply (is_fresh ({[nullptr]} ∪ dom (recs w))). rewrite E. set_solver.
Qed.

Lemma clone_addr_fresh w : recs w !! clone_addr w = None.
Proof.
  apply not_elem_of_dom. unfold clone_addr. intros E.
  apply (is_fresh ({[nullptr]} ∪ dom (recs w))). set_solver.
Qed.

Lemma clone_spec h r w :
  clone_ok w -> recs w !! h = Some r ->
  native_handle_clone h w = Ok (clone_addr w) (with_clone h r w).
Proof.
  unfold clone_ok, native_handle_clone, with_clone. intros Hok ->.
  fold (clone_addr w). destruct (dup_all (fds r) (open_fds w)) as [ds open'].
  destruct (clone_fails w) as [|[|] o]; cbn in *; try reflexivity. congruence.
Qed.

Lemma clone_fail_spec h r w :
  ~ clone_ok w -> recs w !! h = Some r ->
  native_handle_clone h w =
    Ok nullptr (record (EvClone h nullptr)
                  (set_clone_fails (tail (clone_fails w)) w)).
Proof.
  unfold clone_ok, native_handle_clone. intros Hok ->.
  destruct (clone_fails w) as [|[|] o]; cbn in *; try reflexivity;
    exfalso; apply Hok; congruence.
Qed.

(** *** Copies *)

Lemma assign_copy_self x w : assign_copy x x w = Ok tt w.
Proof. unfold assign_copy. now rewrite N.eqb_refl. Qed.

Section CopyOnto.

Variables (w : world) (x y : N) (ox oy : hidl_handle).
Hypothesis Hne : x <> y.
Hypothesis Hx : objs w !! x = Some ox.
Hypothesis Hy : objs w !! y = Some oy.
Hypothesis Hv : valid w oy.

(** The source is read and cloned in the world [let_go y oy w]. *)
Lemma copy_reads_source :
  assign_copy y x w =
    (let* oh := field mHandle x in
     if negb (oh =? nullptr) then
       (let* c := native_handle_clone oh in set_mHandle c y) ;;
       (let* h := field mHandle y in
        if h =? nullptr
        then log_fatal "Failed to clone native_handle in hidl_handle."
        else mret tt) ;;
       set_mOwnsHandle true y
     else
       set_mHandle nullptr y ;;
       set_mOwnsHandle false y) (let_go y oy w).
Proof.
  unfold assign_copy.
  assert (E : (y =? x) = false) by (apply N.eqb_neq; congruence).
  rewrite E. now rewrite (bind_ok _ _ _ _ _ (freeHandle_spec _ _ _ Hy Hv)).
Qed.

Lemma source_in_let_go : objs (let_go y oy w) !! x = Some ox.
Proof. unfold let_go. run. now rewrite freed_objs. Qed.

Lemma target_in_let_go : objs (let_go y oy w) !! y = Some (dropped oy).
Proof. unfold let_go. run. reflexivity. Qed.

Lemma assign_copy_null :
  mHandle ox = nullptr ->
  assign_copy y x w =
    Ok tt (set_objs <[y := mkHandle nullptr false]> (freed oy w)).
Proof.
  intros Hnull. rewrite copy_reads_source.
  rewrite (bind_ok _ _ _ _ _ (handle_field_ok _ _ _ _ source_in_let_go)).
  rewrite Hnull. cbn [N.eqb nullptr negb].
  unfold mbnd, set_mHandle, set_mOwnsHandle, assign. unfold let_go. run.
  same_world.
Qed.

Lemma assign_copy_clone r :
  mHandle ox <> nullptr -> recs (freed oy w) !! mHandle ox = Some r ->
  clone_ok w ->
  assign_copy y x w =
    Ok tt (set_objs <[y := mkHandle (clone_addr (let_go y oy w)) true]>
             (with_clone (mHandle ox) r (let_go y oy w))).
Proof.
  intros Hnn Hr Hok. rewrite copy_reads_source.
  rewrite (bind_ok _ _ _ _ _ (handle_field_ok _ _ _ _ source_in_let_go)).
  assert (E : (mHandle ox =? nullptr) = false) by now apply N.eqb_neq.
  rewrite E. cbn [negb].
  assert (Hokc : clone_ok (let_go y oy w))
    by (unfold clone_ok; unfold let_go; cbn; now rewrite freed_clone_fails).
  assert (Hrc : recs (let_go y oy w) !! mHandle ox = Some r) by exact Hr.
  unfold mbnd at 1. unfold mbnd at 1. rewrite (clone_spec _ _ _ Hokc Hrc).
  assert (Ea : (clone_addr (let_go y oy w) =? nullptr) = false)
    by apply N.eqb_neq, clone_addr_nonnull.
  pose proof target_in_let_go as Hyc.
  unfold mbnd, field, set_mHandle, set_mOwnsHandle, assign, with_clone.
  run. same_world.
Qed.

Lemma assign_copy_fatal r :
  mHandle ox <> nullptr -> recs (freed oy w) !! mHandle ox = Some r ->
  ~ clone_ok w ->
  exists w',
    assign_copy y x w = Abort w' /\
    trace w' =
      trace (freed oy w) ++
      [EvClone (mHandle ox) nullptr;
       EvLogFatal "Failed to clone native_handle in hidl_handle."].
Proof.
  intros Hnn Hr Hok. rewrite copy_reads_source.
  rewrite (bind_ok _ _ _ _ _ (handle_field_ok _ _ _ _ source_in_let_go)).
  assert (E : (mHandle ox =? nullptr) = false) by now apply N.eqb_neq.
  rewrite E. cbn [negb].
  assert (Hokc : ~ clone_ok (let_go y oy w))
    by (unfold clone_ok; unfold let_go; cbn; now rewrite freed_clone_fails).
  assert (Hrc : recs (let_go y oy w) !! mHandle ox = Some r) by exact Hr.
  unfold mbnd at 1. unfold mbnd at 1.
  rewrite (clone_fail_spec _ _ _ Hokc Hrc).
  pose proof target_in_let_go as Hyc.
  unfold mbnd, field, set_mHandle, set_mOwnsHandle, assign, log_fatal.
  run. eexists. split; [reflexivity|]. run. now rewrite <- app_assoc.
Qed.

End CopyOnto.

Lemma cloned_intro x y ox r w1 w1' :
  x <> y ->
  recs w1' = recs w1 -> trace w1' = trace w1 -> open_fds w1' = open_fds w1 ->
  objs w1' !! x = Some ox ->
  recs w1 !! mHandle ox = Some r ->
  cloned x y ox r w1
    (set_objs <[y := mkHandle (clone_addr w1') true]>
       (with_clone (mHandle ox) r w1')).
Proof.
  intros Hne Er Et Eo Hx Hr.
  set (c := clone_addr w1'). set (d := dup_all (fds r) (open_fds w1')).
  set (rc := mkNative (fst d) (ints r)).
  set (w' := set_objs _ _).
  assert (Hcf : recs w1 !! c = None) by (rewrite <- Er; apply clone_addr_fresh).
  assert (Hc0 : c <> nullptr) by apply clone_addr_nonnull.
  assert (Hcx : c <> mHandle ox) by (intros E; rewrite E, Hr in Hcf; discriminate).
  assert (Hy' : objs w' !! y = Some (mkHandle c true))
    by (subst w'; unfold with_clone; run; reflexivity).
  assert (Hx' : objs w' !! x = Some ox)
    by (subst w'; unfold with_clone; run; reflexivity).
  assert (Hrc : recs w' !! c = Some rc)
    by (subst w'; unfold with_clone; run; reflexivity).
  assert (Hrx : recs w' !! mHandle ox = Some r).
  { subst w'. unfold with_clone. run. fold c. rewrite lookup_insert_ne by congruence.
    now rewrite Er. }
  exists c, rc. repeat split; try assumption.
  - subst w'. unfold with_clone. run. now rewrite Et.
  - subst rc d. cbn [fds]. apply dup_all_length.
  - assert (Hown : owns_record (mkHandle c true) = true).
    { unfold owns_record. cbn [mOwnsHandle mHandle andb].
      apply negb_true_iff, N.eqb_neq, Hc0. }
    assert (Hv : valid w' (mkHandle c true)) by (intros _; cbn [mHandle]; eauto).
    pose proof (handle_dtor_spec _ _ _ Hy' Hv) as Hd.
    assert (Hf : freed (mkHandle c true) w' = closed_deleted c rc w').
    { unfold freed. rewrite Hown. cbn [mHandle]. now rewrite Hrc. }
    rewrite Hf in Hd. eexists. split; [exact Hd|].
    unfold closed_deleted. run. repeat split.
    + now rewrite <- app_assoc.
    + rewrite lookup_delete_ne by congruence. exact Hx'.
    + rewrite lookup_delete_ne by congruence. exact Hrx.
    + intros fd Hfd Hopen. subst w'. unfold with_clone. run. fold d.
      rewrite <- Eo in Hopen. apply elem_of_difference. split.
      * now apply (dup_all_mono (fds r) (open_fds w1')).
      * subst rc. cbn [fds]. rewrite elem_of_list_to_set. intros Hin.
        now apply (dup_all_fresh _ _ _ Hin).
Qed.

Lemma copies_assign w x y ox oy :
  x <> y -> objs w !! x = Some ox -> objs w !! y = Some oy -> valid w oy ->
  copies (assign_copy y x) x y ox w (freed oy w).
Proof.
  intros Hne Hx Hy Hv. split.
  - intros Hnull. eexists.
    split; [apply (assign_copy_null _ _ _ _ _ Hne Hx Hy Hv Hnull)|].
    run. rewrite freed_objs. run. repeat split; reflexivity.
  - intros r Hnn Hr. split.
    + intros Hok. eexists.
      split; [apply (assign_copy_clone _ _ _ _ _ Hne Hx Hy Hv r Hnn Hr Hok)|].
      apply cloned_intro; try assumption; try reflexivity.
      unfold let_go. run. now rewrite freed_objs.
    + intros Hok. apply (assign_copy_fatal _ _ _ _ _ Hne Hx Hy Hv r Hnn Hr Hok).
Qed.

Lemma cloned_ext x y ox r w1 w1' w' :
  recs w1' = recs w1 -> trace w1' = trace w1 -> open_fds w1' = open_fds w1 ->
  cloned x y ox r w1 w' -> cloned x y ox r w1' w'.
Proof.
  intros Er Et Eo (c & rc & H). exists c, rc. now rewrite Er, Et, Eo.
Qed.

Lemma ctor_copy_as_assign x y raw w :
  ctor_copy y raw x w =
  assign_copy y x (set_objs <[y := mkHandle (mHandle raw) false]> w).
Proof.
  unfold ctor_copy, storage, mbnd, set_mOwnsHandle, assign. run. same_world.
Qed.

Lemma copies_ctor w x y ox raw :
  x <> y -> objs w !! x = Some ox ->
  copies (ctor_copy y raw x) x y ox w w.
Proof.
  intros Hne Hx. set (oy := mkHandle (mHandle raw) false).
  set (w0 := set_objs <[y := oy]> w).
  assert (Hx0 : objs w0 !! x = Some ox) by (subst w0; run; reflexivity).
  assert (Hy0 : objs w0 !! y = Some oy) by (subst w0; run; reflexivity).
  destruct (copies_assign w0 x y ox oy Hne Hx0 Hy0 (unowned_valid _ _))
    as [H1 H2].
  unfold copies. rewrite ctor_copy_as_assign. fold oy w0. split.
  - exact H1.
  - intros r Hnn Hr. destruct (H2 r Hnn Hr) as [H3 H4]. split.
    + intros Hok. destruct (H3 Hok) as (w' & Hc & Hcl). exists w'.
      split; [exact Hc|]. revert Hcl. now apply cloned_ext.
    + exact H4.
Qed.

(** C6 (as amended).  Copying [x] into another object [y], by copy
    assignment (on a [y] whose owned record, if any, is live) or by the
    copy constructor: a null
    [x] gives a null [y] that does not own; a non-null [x] whose record is
    live once [y] has let go of its own has it cloned by the clone
    primitive, and [y] then owns the clone, whatever the ownership flag of
    [x], at an address that is not null, differs from [x]'s pointer and
    held no record; [x] and its record are untouched, and destroying [y]
    closes and deletes the clone only, the record of [x] staying live and
    its descriptors open.  When the clone primitive returns null the call
    is fatal.  Assigning an object to itself changes nothing. *)
Theorem copy_clones (w : world) (x y : N) (ox : hidl_handle) :
  x <> y ->
  objs w !! x = Some ox ->
  (forall oy, objs w !! y = Some oy -> valid w oy ->
     copies (assign_copy y x) x y ox w (freed oy w)) /\
  (forall raw, copies (ctor_copy y raw x) x y ox w w) /\
  assign_copy x x w = Ok tt w.
Proof.
  intros Hne Hx. split; [|split].
  - intros oy Hy Hv. now apply copies_assign.
  - intros raw. now apply copies_ctor.
  - apply assign_copy_self.
Qed.

(** Scenario: [x] owns the record at 16; it is copied into a new [y], and
    copy-assigned to a default-constructed [y] when the clone fails. *)
Lemma copy_clones_witness :
  (exists w', ctor_copy 200 (mkHandle 99 true) 100 Sample.w_x = Ok tt w' /\
              cloned 100 200 Sample.x_obj Sample.rec16 Sample.w_x w') /\
  (exists w', assign_copy 200 100 Sample.w_xy_failing = Abort w').
Proof.
  split.
  - destruct (copy_clones Sample.w_x 100 200 Sample.x_obj) as (_ & H & _);
      [discriminate | reflexivity |].
    destruct (H (mkHandle 99 true)) as [_ H2].
    destruct (H2 Sample.rec16) as [H3 _]; [discriminate | reflexivity |].
    apply H3. discriminate.
  - destruct (copy_clones Sample.w_xy_failing 100 200 Sample.x_obj)
      as (H & _); [discriminate | reflexivity |].
    destruct (H (mkHandle nullptr false)) as [_ H2];
      [reflexivity | intros [=] |].
    destruct (H2 Sample.rec16) as [_ H4]; [discriminate | reflexivity |].
    destruct H4 as (w' & Hw & _); [intros Hok; now apply Hok|].
    now exists w'.
Defined.

(** C6 as stated fails for copy assignment: it does not clone for every
    [x] whose record is live.  When [x] is a view of the record that [y]
    owns ([hidl_handle x(y.getNativeHandle()); y = x]), the assignment,
    which only guards against [this == &other], first has [freeHandle()]
    close and delete that record, so that [x] points to a deleted record,
    and then applies the clone primitive to it. *)
Lemma copy_onto_owner_of_the_record_fails :
  ~ (forall (w : world) (x y : N) (ox oy : hidl_handle) (r : native_handle_t),
       x <> y -> objs w !! x = Some ox -> objs w !! y = Some oy ->
       valid w oy ->
       mHandle ox <> nullptr -> recs w !! mHandle ox = Some r -> clone_ok w ->
       exists w' c,
         assign_copy y x w = Ok tt w' /\
         objs w' !! y = Some (mkHandle c true) /\ c <> mHandle ox /\
         recs w' !! mHandle ox = Some r) /\
  (exists w1,
     freeHandle 200 Sample.w_alias = Ok tt w1 /\
     trace w1 = trace Sample.w_alias ++ [EvClose 16; EvDelete 16] /\
     objs w1 !! 100 = Some (mkHandle 16 false) /\
     recs w1 !! 16 = None) /\
  assign_copy 200 100 Sample.w_alias = Undefined.
Proof.
  split; [|split].
  - intros H.
    destruct (H Sample.w_alias 100 200 (mkHandle 16 false) (mkHandle 16 true)
                Sample.rec16) as (w' & c & Hc & _);
      [discriminate | reflexivity | reflexivity
      | intros _; now exists Sample.rec16 | discriminate | reflexivity
      | discriminate |].
    vm_compute in Hc. discriminate.
  - eexists. split; [reflexivity|]. repeat split.
  - reflexivity.
Qed.

(** *** Borrowed records and setTo *)

Lemma ctor_native_spec this raw h w :
  ctor_native this raw h w = Ok tt (set_objs <[this := mkHandle h false]> w).
Proof.
  unfold ctor_native, storage, mbnd, set_mHandle, set_mOwnsHandle, assign.
  run. same_world.
Qed.

Lemma setTo_spec this h own w o :
  objs w !! this = Some o -> valid w o ->
  setTo this h own w = Ok tt (set_objs <[this := mkHandle h own]> (freed o w)).
Proof.
  intros Ho Hv. unfold setTo.
  rewrite (bind_ok _ _ _ _ _ (freeHandle_spec _ _ _ Ho Hv)).
  unfold mbnd, set_mHandle, set_mOwnsHandle, assign. run. same_world.
Qed.

Lemma assign_native_as_setTo this h w :
  assign_native this h w = setTo this h false w.
Proof. reflexivity. Qed.

(** The destructor of an object that owns no record calls no primitive. *)
Lemma dtor_unowned this w o :
  objs w !! this = Some o -> owns_record o = false ->
  dtor this w = Ok tt (set_objs (delete this) w).
Proof.
  intros Ho Hown.
  assert (Hv : valid w o) by (unfold valid; congruence).
  rewrite (handle_dtor_spec _ _ _ Ho Hv). unfold freed. now rewrite Hown.
Qed.

(** X3.  A handle built from a raw record pointer, or assigned one, does
    not own it: the object holds the pointer with ownership false,
    [getNativeHandle()] gives the pointer back, and its destructor calls
    neither close nor delete and leaves every record and descriptor as it
    is.  The assignment first closes and deletes the record the object
    owned, if any, and nothing else. *)
Theorem borrowed_record_never_released (w : world) (this h : N) :
  (forall raw,
    exists w1 w2,
      ctor_native this raw h w = Ok tt w1 /\
      getNativeHandle this w1 = Ok h w1 /\
      trace w1 = trace w /\
      dtor this w1 = Ok tt w2 /\
      trace w2 = trace w /\ recs w2 = recs w /\ open_fds w2 = open_fds w) /\
  (forall o,
    objs w !! this = Some o -> valid w o ->
    exists w1 w2,
      assign_native this h w = Ok tt w1 /\
      getNativeHandle this w1 = Ok h w1 /\
      trace w1 = trace w ++ release_calls o /\
      dtor this w1 = Ok tt w2 /\
      trace w2 = trace w1 /\ recs w2 = recs w1 /\ open_fds w2 = open_fds w1).
Proof.
  split; [intros raw | intros o Ho Hv].
  - pose proof (ctor_native_spec this raw h w) as H1.
    set (w1 := set_objs _ w) in H1.
    assert (Ho1 : objs w1 !! this = Some (mkHandle h false))
      by apply lookup_insert_eq.
    exists w1. eexists. split; [exact H1|].
    split; [exact (handle_field_ok mHandle _ _ _ Ho1)|]. split; [reflexivity|].
    split; [apply (dtor_unowned _ _ _ Ho1 eq_refl)|]. now repeat split.
  - pose proof (setTo_spec this h false w o Ho Hv) as H1.
    set (w1 := set_objs _ _) in H1.
    assert (Ho1 : objs w1 !! this = Some (mkHandle h false))
      by apply lookup_insert_eq.
    exists w1. eexists. split; [exact H1|].
    split; [exact (handle_field_ok mHandle _ _ _ Ho1)|].
    split; [now apply freed_trace|].
    split; [apply (dtor_unowned _ _ _ Ho1 eq_refl)|]. now repeat split.
Qed.

(** Scenario: [x], which owns the record at 16, is assigned the raw
    pointer 32: the record at 16 is closed and deleted, 32 never is. *)
Lemma borrowed_record_never_released_witness :
  exists w1 w2,
    assign_native 100 32 Sample.w_x = Ok tt w1 /\
    trace w1 = [EvClose 16; EvDelete 16] /\
    dtor 100 w1 = Ok tt w2 /\ trace w2 = trace w1.
Proof.
  destruct (borrowed_record_never_released Sample.w_x 100 32) as [_ H].
  destruct (H Sample.x_obj) as (w1 & w2 & H1 & _ & H3 & H4 & H5 & _).
  - reflexivity.
  - intros _. now exists Sample.rec16.
  - exists w1, w2. repeat split; assumption.
Defined.



(** *** A copy outlives the original *)

Lemma dup_all_in l open fd : fd ∈ fst (dup_all l open) -> fd ∈ snd (dup_all l open).
Proof.
  revert open. induction l as [|fd0 l IH]; intros open.
  - cbn. intros H. now apply elem_of_nil in H.
  - cbn [dup_all]. specialize (IH ({[fresh open]} ∪ open)).
    pose proof (dup_all_mono l ({[fresh open]} ∪ open)) as Hm.
    destruct (dup_all l _) as [ds open']. cbn [fst snd] in *.
    intros [->|H]%elem_of_cons; [set_solver | auto].
Qed.

Lemma freed_open_fds o w r :
  recs w !! mHandle o = Some r ->
  open_fds (freed o w) =
  if owns_record o then open_fds w ∖ list_to_set (fds r) else open_fds w.
Proof.
  intros Hr. unfold freed. destruct (owns_record o); [|reflexivity].
  now rewrite Hr.
Qed.

(** X5.  A copy-constructed handle outlives the one it was copied from:
    when [x] holds a live record whose descriptors are open and the clone
    succeeds, then after [hidl_handle y(x)] and the destruction of [x]
    (which closes and deletes [x]'s record exactly when [x] owned it) the
    record of [y] is still live with all its descriptors open, and the
    destruction of [y] is what closes and deletes it. *)
Theorem copy_outlives_original (w : world) (x y : N) (ox raw : hidl_handle)
    (r : native_handle_t) :
  x <> y ->
  objs w !! x = Some ox ->
  mHandle ox <> nullptr ->
  recs w !! mHandle ox = Some r ->
  (forall fd, fd ∈ fds r -> fd ∈ open_fds w) ->
  clone_ok w ->
  exists w1 w2 w3 c rc,
    ctor_copy y raw x w = Ok tt w1 /\
    dtor x w1 = Ok tt w2 /\
    trace w2 = trace w1 ++ release_calls ox /\
    objs w2 !! y = Some (mkHandle c true) /\
    recs w2 !! c = Some rc /\
    (forall fd, fd ∈ fds rc -> fd ∈ open_fds w2) /\
    dtor y w2 = Ok tt w3 /\
    trace w3 = trace w2 ++ [EvClose c; EvDelete c] /\
    recs w3 !! c = None /\
    (forall fd, fd ∈ fds rc -> fd ∉ open_fds w3).
Proof.
  intros Hne Hx Hnn Hr Hopen Hok.
  set (oy := mkHandle (mHandle raw) false).
  set (w0 := set_objs <[y := oy]> w).
  assert (Hx0 : objs w0 !! x = Some ox) by (subst w0; run; reflexivity).
  assert (Hy0 : objs w0 !! y = Some oy) by (subst w0; run; reflexivity).
  pose proof (assign_copy_clone w0 x y ox oy Hne Hx0 Hy0 (unowned_valid _ _)
                r Hnn Hr Hok) as Hc.
  unfold w0, oy in Hc. rewrite <- ctor_copy_as_assign in Hc.
  fold oy in Hc. fold w0 in Hc.
  change (let_go y oy w0) with (set_objs <[y := oy]> w0) in Hc.
  set (wl := set_objs <[y := oy]> w0) in Hc.
  set (c := clone_addr wl) in Hc. set (d := dup_all (fds r) (open_fds w)).
  set (rc := mkNative (fst d) (ints r)).
  set (w1 := set_objs _ _) in Hc.
  assert (Hcf : recs w !! c = None) by apply (clone_addr_fresh wl).
  assert (Hc0 : c <> nullptr) by apply clone_addr_nonnull.
  assert (Hcx : c <> mHandle ox) by (intros E; rewrite E, Hr in Hcf; discriminate).
  assert (Hx1 : objs w1 !! x = Some ox)
    by (subst w1 wl w0; unfold with_clone; run; reflexivity).
  assert (Hy1 : objs w1 !! y = Some (mkHandle c true))
    by (subst w1; unfold with_clone; run; reflexivity).
  assert (Hrx1 : recs w1 !! mHandle ox = Some r).
  { subst w1. unfold with_clone. run. fold c.
    rewrite lookup_insert_ne by congruence. exact Hr. }
  assert (Hrc1 : recs w1 !! c = Some rc)
    by (subst w1; unfold with_clone; run; reflexivity).
  assert (Ho1 : open_fds w1 = snd d) by reflexivity.
  assert (Hvx : valid w1 ox) by (intros _; eauto).
  pose proof (handle_dtor_spec _ _ _ Hx1 Hvx) as Hd1.
  set (w2 := set_objs (delete x) (freed ox w1)) in Hd1.
  assert (Hy2 : objs w2 !! y = Some (mkHandle c true)).
  { subst w2. cbn [objs set_objs]. rewrite lookup_delete_ne by congruence.
    now rewrite freed_objs. }
  assert (Hrc2 : recs w2 !! c = Some rc).
  { subst w2. cbn [recs set_objs]. rewrite freed_recs.
    destruct (owns_record ox); [|exact Hrc1].
    rewrite lookup_delete_ne by congruence. exact Hrc1. }
  assert (Hopen2 : forall fd, fd ∈ fds rc -> fd ∈ open_fds w2).
  { intros fd Hfd. subst w2. cbn [open_fds set_objs].
    rewrite (freed_open_fds ox w1 r Hrx1), Ho1.
    pose proof (dup_all_in _ _ _ Hfd) as Hin.
    destruct (owns_record ox); [|exact Hin].
    apply elem_of_difference. split; [exact Hin|].
    rewrite elem_of_list_to_set. intros Hr'.
    apply (dup_all_fresh _ _ _ Hfd). now apply Hopen. }
  assert (Hown : owns_record (mkHandle c true) = true).
  { unfold owns_record. cbn [mOwnsHandle mHandle andb].
    apply negb_true_iff, N.eqb_neq, Hc0. }
  assert (Hvy : valid w2 (mkHandle c true)) by (intros _; cbn [mHandle]; eauto).
  pose proof (handle_dtor_spec _ _ _ Hy2 Hvy) as Hd2.
  assert (Hf : freed (mkHandle c true) w2 = closed_deleted c rc w2).
  { unfold freed. rewrite Hown. cbn [mHandle]. now rewrite Hrc2. }
  rewrite Hf in Hd2.
  exists w1, w2. eexists. exists c, rc.
  split; [exact Hc|]. split; [exact Hd1|].
  split; [subst w2; cbn [trace set_objs]; now apply freed_trace|].
  split; [exact Hy2|]. split; [exact Hrc2|]. split; [exact Hopen2|].
  split; [exact Hd2|]. unfold closed_deleted. run. repeat split.
  - now rewrite <- app_assoc.
  - apply lookup_delete_eq.
  - intros fd Hfd [_ Hn]%elem_of_difference. apply Hn.
    now rewrite elem_of_list_to_set.
Qed.

(** Scenario: [x] owns the record at 16, is copied into [y] at 200 and
    destroyed; [y] is destroyed last. *)
Lemma copy_outlives_original_witness :
  exists w1 w2 w3 c,
    ctor_copy 200 (mkHandle 99 true) 100 Sample.w_x = Ok tt w1 /\
    dtor 100 w1 = Ok tt w2 /\
    dtor 200 w2 = Ok tt w3 /\
    trace w3 = trace w1 ++ [EvClose 16; EvDelete 16; EvClose c; EvDelete c].
Proof.
  destruct (copy_outlives_original Sample.w_x 100 200 Sample.x_obj
              (mkHandle 99 true) Sample.rec16)
    as (w1 & w2 & w3 & c & rc & H1 & H2 & H3 & _ & _ & _ & H7 & H8 & _).
  - discriminate.
  - reflexivity.
  - discriminate.
  - reflexivity.
  - intros fd Hfd. vm_compute in Hfd. vm_compute.
    repeat (apply elem_of_cons in Hfd as [->|Hfd]; [set_solver|]).
    now apply elem_of_nil in Hfd.
  - discriminate.
  - exists w1, w2, w3, c. repeat split; try assumption.
    rewrite H8, H3. now rewrite <- app_assoc.
Defined.

End HandleFacts.
